(** * V-Qualia lap-time engine: a shallow embedding and its properties

    The C++ engine under [backend/engine] computes with [double].  This
    development reads every [double] as a real number: arithmetic is exact,
    there is no rounding, overflow, infinity or NaN.  Comparisons are the
    decidable comparisons of [R]; [std::sqrt], [std::pow] (positive base) and
    [std::atan2] are the real functions they approximate.  [size_t] indices are
    [nat], [int] values are [Z].

    Exceptions are modelled by an outcome type; loops whose trip count depends
    on real-valued data take a fuel argument and report [OutOfFuel] when it is
    exhausted, so that divergence of the source is visible in the model.

    A [std::vector] is a list: [v[i]] is the total lookup [v !!! i] and an
    assignment to [v[i]] is [<[i := _]>] or [alter]; the statements are about
    states in which every index the engine uses is in range.  Console output
    is left out. *)

From Stdlib Require Import Reals Lra Lia ZArith String.
From stdpp Require Import list.
From Equations Require Import Equations.

Open Scope R_scope.

(** ** Outcomes: normal return, C++ exception, or exhausted fuel *)

Inductive exn : Type :=
| runtime_error (what : string)
| out_of_range (what : string)
| invalid_argument (what : string).

Inductive outcome (A : Type) : Type :=
| Ok (a : A)
| Throw (e : exn)
| OutOfFuel.

Arguments Ok {A} a.
Arguments Throw {A} e.
Arguments OutOfFuel {A}.

Definition obind {A B} (m : outcome A) (k : A -> outcome B) : outcome B :=
  match m with
  | Ok a => k a
  | Throw e => Throw e
  | OutOfFuel => OutOfFuel
  end.

Notation "'do' x <- m ; k" := (obind m (fun x => k))
  (at level 10, x name, m at level 100, k at level 200).

Definition throws {A} (m : outcome A) : Prop := exists e, m = Throw e.
Definition returns {A} (m : outcome A) : Prop := exists a, m = Ok a.

(** ** The pieces of <cmath> and <algorithm> the engine uses *)

Module Std.

(** [std::min(a, b)] is [(b < a) ? b : a]. *)
Definition min (a b : R) : R := if Rlt_dec b a then b else a.

(** [std::max(a, b)] is [(a < b) ? b : a]. *)
Definition max (a b : R) : R := if Rlt_dec a b then b else a.

(** [std::min_element] keeps the first smallest element seen so far. *)
Fixpoint min_element (smallest : R) (rest : list R) : R :=
  match rest with
  | [] => smallest
  | x :: rest' =>
      if Rlt_dec x smallest then min_element x rest'
      else min_element smallest rest'
  end.

(** [std::min({x, xs...})] on a non-empty initializer list. *)
Definition min_il (x : R) (xs : list R) : R := min_element x xs.

Definition abs (x : R) : R := Rabs x.

(** [std::pow] is only called with a positive base (see
    [TireModel::applyLoadSensitivity]). *)
Definition pow (base exponent : R) : R := Rpower base exponent.

(** [std::atan2(y, x)], with the branch cut on the negative x axis. *)
Definition atan2 (y x : R) : R :=
  if Rlt_dec 0 x then atan (y / x)
  else if Rlt_dec x 0 then
         if Rle_dec 0 y then atan (y / x) + PI else atan (y / x) - PI
       else if Rlt_dec 0 y then PI / 2
            else if Rlt_dec y 0 then - (PI / 2) else 0.

(** [static_cast<int>(x)]: truncation toward zero. *)
Definition to_int (x : R) : Z :=
  if Rle_dec 0 x then Int_part x else (- Int_part (- x))%Z.

End Std.

(** [for (size_t i = lo; i < hi; ++i) body]. *)
Definition for_range {S : Type} (lo hi : nat) (body : nat -> S -> S) (st : S) : S :=
  foldl (fun acc i => body i acc) st (seq lo (hi - lo)).

(** * data/TrackData *)

Record TrackPoint : Type := mkTrackPoint {
  x : R; y : R; z : R;
  w_tr_left : R; w_tr_right : R; banking : R;
  s : R; psi : R; kappa : R; ds : R
}.

(** The default constructor zero-initialises every field. *)
Definition TrackPoint0 : TrackPoint := mkTrackPoint 0 0 0 0 0 0 0 0 0 0.

#[global] Instance TrackPoint_inhabited : Inhabited TrackPoint := populate TrackPoint0.

Definition set_s (v : R) (p : TrackPoint) : TrackPoint :=
  mkTrackPoint (x p) (y p) (z p) (w_tr_left p) (w_tr_right p) (banking p)
               v (psi p) (kappa p) (ds p).
Definition set_psi (v : R) (p : TrackPoint) : TrackPoint :=
  mkTrackPoint (x p) (y p) (z p) (w_tr_left p) (w_tr_right p) (banking p)
               (s p) v (kappa p) (ds p).
Definition set_kappa (v : R) (p : TrackPoint) : TrackPoint :=
  mkTrackPoint (x p) (y p) (z p) (w_tr_left p) (w_tr_right p) (banking p)
               (s p) (psi p) v (ds p).
Definition set_ds (v : R) (p : TrackPoint) : TrackPoint :=
  mkTrackPoint (x p) (y p) (z p) (w_tr_left p) (w_tr_right p) (banking p)
               (s p) (psi p) (kappa p) v.

Record TrackData : Type := mkTrackData {
  points_ : list TrackPoint;
  total_length_ : R;
  preprocessed_ : bool;
  track_name_ : string
}.

Module Track.

Definition TrackData_new : TrackData := mkTrackData [] 0 false "Unnamed Track".

Definition getTotalLength (t : TrackData) : R := total_length_ t.
Definition getNumPoints (t : TrackData) : nat := length (points_ t).
Definition isPreprocessed (t : TrackData) : bool := preprocessed_ t.

Definition addPoint (t : TrackData) (px py pz w_left w_right bank : R) : TrackData :=
  let point := mkTrackPoint px py pz w_left w_right bank 0 0 0 0 in
  mkTrackData (points_ t ++ [point]) (total_length_ t) false (track_name_ t).

(** The literal [PI] of TrackData.cpp, a decimal truncation of pi. *)
Definition PI_lit : R := 3.14159265358979323846.

(** One [while (c) angle op= 2.0 * PI] loop of [normalizeAngle]. *)
Fixpoint while_gt (fuel : nat) (angle : R) : option R :=
  if Rlt_dec PI_lit angle then
    match fuel with
    | O => None
    | S f => while_gt f (angle - 2.0 * PI_lit)
    end
  else Some angle.

Fixpoint while_lt (fuel : nat) (angle : R) : option R :=
  if Rlt_dec angle (- PI_lit) then
    match fuel with
    | O => None
    | S f => while_lt f (angle + 2.0 * PI_lit)
    end
  else Some angle.

Definition normalizeAngle_fuel (fuel : nat) (angle : R) : option R :=
  match while_gt fuel angle with
  | Some a => while_lt fuel a
  | None => None
  end.

(** Both loops of [normalizeAngle] change the angle by more than 6 per
    round, so [|angle|] rounds always suffice; the value is [angle] itself
    only if the fuel were to run out, which [normalizeAngle_fuel_enough]
    excludes. *)
Definition normalizeAngle_rounds (angle : R) : nat := Z.to_nat (up (Rabs angle)).

Definition normalizeAngle (angle : R) : R :=
  match normalizeAngle_fuel (normalizeAngle_rounds angle) angle with
  | Some a => a
  | None => angle
  end.

Definition dist3 (p q : TrackPoint) : R :=
  let dx := x p - x q in
  let dy := y p - y q in
  let dz := z p - z q in
  sqrt (dx * dx + dy * dy + dz * dz).

Definition calculateArcLength_step (i : nat) (pts : list TrackPoint) : list TrackPoint :=
  let segment_length := dist3 (pts !!! i) (pts !!! (i - 1)%nat) in
  let pts := alter (set_ds segment_length) (i - 1)%nat pts in
  alter (set_s (s (pts !!! (i - 1)%nat) + segment_length)) i pts.

Definition back (pts : list TrackPoint) : nat := (length pts - 1)%nat.

Definition calculateArcLength (t : TrackData) : TrackData :=
  let pts := alter (set_s 0.0) 0%nat (points_ t) in
  let pts := for_range 1 (length pts) calculateArcLength_step pts in
  let pts := alter (set_ds (dist3 (pts !!! 0%nat) (pts !!! back pts))) (back pts) pts in
  mkTrackData pts (s (pts !!! back pts) + ds (pts !!! back pts))
              (preprocessed_ t) (track_name_ t).

Definition i_prev_of (n i : nat) : nat := if decide (i = 0)%nat then (n - 1)%nat else (i - 1)%nat.
Definition i_next_of (n i : nat) : nat := if decide (i = n - 1)%nat then 0%nat else (i + 1)%nat.

Definition calculateHeading_step (n i : nat) (pts : list TrackPoint) : list TrackPoint :=
  let i_prev := i_prev_of n i in
  let i_next := i_next_of n i in
  let dx := x (pts !!! i_next) - x (pts !!! i_prev) in
  let dy := y (pts !!! i_next) - y (pts !!! i_prev) in
  alter (set_psi (Std.atan2 dy dx)) i pts.

Definition calculateHeading (t : TrackData) : TrackData :=
  let n := length (points_ t) in
  mkTrackData (for_range 0 n (calculateHeading_step n) (points_ t))
              (total_length_ t) (preprocessed_ t) (track_name_ t).

Definition calculateCurvature_step (total_length : R) (n i : nat)
           (pts : list TrackPoint) : list TrackPoint :=
  let i_prev := i_prev_of n i in
  let i_next := i_next_of n i in
  let dpsi := normalizeAngle (psi (pts !!! i_next) - psi (pts !!! i_prev)) in
  let ds0 := s (pts !!! i_next) - s (pts !!! i_prev) in
  let ds1 := if Rlt_dec ds0 0 then ds0 + total_length else ds0 in
  alter (set_kappa (if Rlt_dec 1e-6 ds1 then dpsi / ds1 else 0.0)) i pts.

Definition calculateCurvature (t : TrackData) : TrackData :=
  let n := length (points_ t) in
  mkTrackData (for_range 0 n (calculateCurvature_step (total_length_ t) n) (points_ t))
              (total_length_ t) (preprocessed_ t) (track_name_ t).

Definition set_preprocessed (b : bool) (t : TrackData) : TrackData :=
  mkTrackData (points_ t) (total_length_ t) b (track_name_ t).

Definition preprocess (t : TrackData) : outcome TrackData :=
  if decide (length (points_ t) < 3)%nat then
    Throw (runtime_error "Track must have at least 3 points for preprocessing")
  else
    Ok (set_preprocessed true
          (calculateCurvature (calculateHeading (calculateArcLength t)))).

Definition getPoint (t : TrackData) (index : nat) : outcome TrackPoint :=
  if decide (length (points_ t) <= index)%nat then
    Throw (out_of_range "Track point index out of range")
  else Ok (points_ t !!! index).

(** [while (s < 0) s += total_length_;] *)
Fixpoint wrap_up (fuel : nat) (total_length sv : R) : outcome R :=
  if Rlt_dec sv 0 then
    match fuel with
    | O => OutOfFuel
    | S f => wrap_up f total_length (sv + total_length)
    end
  else Ok sv.

(** [while (s >= total_length_) s -= total_length_;] *)
Fixpoint wrap_down (fuel : nat) (total_length sv : R) : outcome R :=
  if Rle_dec total_length sv then
    match fuel with
    | O => OutOfFuel
    | S f => wrap_down f total_length (sv - total_length)
    end
  else Ok sv.

(** The two normalisation loops that open [interpolateAt] and
    [getCurvatureAt]. *)
Definition normalize_s (fuel : nat) (t : TrackData) (sv : R) : outcome R :=
  do s1 <- wrap_up fuel (total_length_ t) sv;
  wrap_down fuel (total_length_ t) s1.

(** [size_t mid = left + (right - left) / 2;] *)
Definition mid_of (left_ right_ : nat) : nat := (left_ + (right_ - left_) / 2)%nat.

Equations findIndexAt_loop (pts : list TrackPoint) (sv : R) (left_ right_ : nat) : nat
  by wf (right_ - left_)%nat lt :=
findIndexAt_loop pts sv left_ right_ with decide (left_ < right_)%nat := {
  | left _ =>
      if Rle_dec (s (pts !!! mid_of left_ right_)) sv
      then findIndexAt_loop pts sv (mid_of left_ right_ + 1)%nat right_
      else findIndexAt_loop pts sv left_ (mid_of left_ right_)
  | right _ => left_ }.
Next Obligation.
  intros. unfold mid_of.
  assert (Hd := Nat.div_mod_eq (right_ - left_) 2).
  assert (Hm := Nat.mod_upper_bound (right_ - left_) 2). lia.
Qed.
Next Obligation.
  intros. unfold mid_of.
  assert (Hd := Nat.div_mod_eq (right_ - left_) 2).
  assert (Hm := Nat.mod_upper_bound (right_ - left_) 2). lia.
Qed.

Definition findIndexAt (t : TrackData) (sv : R) : nat :=
  let left_ := findIndexAt_loop (points_ t) sv 0 (length (points_ t) - 1) in
  if decide (0 < left_)%nat then
    if Rlt_dec sv (s (points_ t !!! left_)) then (left_ - 1)%nat else left_
  else left_.

(** The interpolation parameter, clamped to [0, 1]. *)
Definition interp_t (p1 : TrackPoint) (sv : R) : R :=
  let t0 := if Rlt_dec 1e-6 (ds p1) then (sv - s p1) / ds p1 else 0.0 in
  Std.max 0.0 (Std.min 1.0 t0).

Definition interpolateAt (fuel : nat) (t : TrackData) (sv : R) : outcome TrackPoint :=
  if negb (preprocessed_ t) then
    Throw (runtime_error "Track must be preprocessed before interpolation")
  else
    do sv <- normalize_s fuel t sv;
    let i := findIndexAt t sv in
    let i_next := ((i + 1) mod length (points_ t))%nat in
    let p1 := points_ t !!! i in
    let p2 := points_ t !!! i_next in
    let tt := interp_t p1 sv in
    let dpsi := normalizeAngle (psi p2 - psi p1) in
    Ok (mkTrackPoint
          (x p1 + tt * (x p2 - x p1))
          (y p1 + tt * (y p2 - y p1))
          (z p1 + tt * (z p2 - z p1))
          (w_tr_left p1 + tt * (w_tr_left p2 - w_tr_left p1))
          (w_tr_right p1 + tt * (w_tr_right p2 - w_tr_right p1))
          (banking p1 + tt * (banking p2 - banking p1))
          sv
          (normalizeAngle (psi p1 + tt * dpsi))
          (kappa p1 + tt * (kappa p2 - kappa p1))
          (ds p1)).

Definition getCurvatureAt (fuel : nat) (t : TrackData) (sv : R) : outcome R :=
  if negb (preprocessed_ t) then
    Throw (runtime_error "Track must be preprocessed before querying curvature")
  else
    do sv <- normalize_s fuel t sv;
    let i := findIndexAt t sv in
    let i_next := ((i + 1) mod length (points_ t))%nat in
    let p1 := points_ t !!! i in
    let p2 := points_ t !!! i_next in
    let tt := interp_t p1 sv in
    Ok (kappa p1 + tt * (kappa p2 - kappa p1)).

Definition isWithinBounds (fuel : nat) (t : TrackData) (sv n : R) : outcome bool :=
  if negb (preprocessed_ t) then
    Throw (runtime_error "Track must be preprocessed before boundary checking")
  else
    do point <- interpolateAt fuel t sv;
    Ok (if Rle_dec (- w_tr_right point) n
        then (if Rle_dec n (w_tr_left point) then true else false)
        else false).

(** The states a [TrackData] object can be in: built by the constructor,
    [addPoint] and a successful [preprocess]. *)
Inductive reachable : TrackData -> Prop :=
| reach_new : reachable TrackData_new
| reach_setName t name :
    reachable t ->
    reachable (mkTrackData (points_ t) (total_length_ t) (preprocessed_ t) name)
| reach_addPoint t px py pz wl wr bk :
    reachable t -> reachable (addPoint t px py pz wl wr bk)
| reach_preprocess t t' :
    reachable t -> preprocess t = Ok t' -> reachable t'.

End Track.

(** * data/VehicleParams *)

#[global] Instance R_inhabited : Inhabited R := populate 0.

Definition Rltb (a b : R) : bool := if Rlt_dec a b then true else false.
Definition Rleb (a b : R) : bool := if Rle_dec a b then true else false.
Infix "<?" := Rltb : R_scope.
Infix "<=?" := Rleb : R_scope.

Record AeroParams : Type := mkAeroParams {
  Cl : R; Cd : R; frontal_area : R; air_density : R
}.

Record TireParams : Type := mkTireParams {
  mu_x : R; mu_y : R; load_sensitivity : R; tire_radius : R
}.

(** [engine_torque_curve] is a [std::map<double, double>]; it is kept as its
    in-order sequence of (rpm, torque) entries, keys strictly increasing. *)
Record PowertrainParams : Type := mkPowertrainParams {
  engine_torque_curve : list (R * R);
  gear_ratios : list R;
  final_drive_ratio : R;
  drivetrain_efficiency : R;
  max_rpm : R;
  min_rpm : R;
  shift_time : R
}.

Record MassParams : Type := mkMassParams {
  mass : R; cog_height : R; wheelbase : R; weight_distribution : R
}.

Record BrakeParams : Type := mkBrakeParams {
  max_brake_force : R; brake_bias : R
}.

(** The member [VehicleParams::mass] (the group) is [mass_params] here, since
    [mass] already names [MassParams::mass]. *)
Record VehicleParams : Type := mkVehicleParams {
  mass_params : MassParams;
  aero : AeroParams;
  tire : TireParams;
  powertrain : PowertrainParams;
  brake : BrakeParams;
  vehicle_name_ : string
}.

Definition GRAVITY : R := 9.81.

Module Params.

Definition AeroParams_default : AeroParams := mkAeroParams (-3.0) 0.8 1.5 1.225.
Definition TireParams_default : TireParams := mkTireParams 1.6 1.8 0.9 0.3.
Definition PowertrainParams_default : PowertrainParams :=
  mkPowertrainParams [] [] 3.5 0.95 15000 4000 0.05.
Definition MassParams_default : MassParams := mkMassParams 800 0.3 2.5 0.45.
Definition BrakeParams_default : BrakeParams := mkBrakeParams 20000 0.6.
Definition VehicleParams_new : VehicleParams :=
  mkVehicleParams MassParams_default AeroParams_default TireParams_default
                  PowertrainParams_default BrakeParams_default "Unnamed Vehicle".

(** [engine_torque_curve.upper_bound(rpm)]: position of the first entry
    whose key is greater than [rpm]. *)
Fixpoint upper_bound (curve : list (R * R)) (rpm : R) : nat :=
  match curve with
  | [] => O
  | e :: rest => if Rlt_dec rpm (fst e) then O else S (upper_bound rest rpm)
  end.

Definition getTorqueAt (p : PowertrainParams) (rpm : R) : R :=
  let curve := engine_torque_curve p in
  match curve with
  | [] => 0.0
  | first :: _ =>
      let rpm := Std.max 0.0 rpm in
      let last := curve !!! (length curve - 1)%nat in
      if Rle_dec rpm (fst first) then snd first
      else if Rle_dec (fst last) rpm then snd last
      else
        let upper := upper_bound curve rpm in
        let lower := (upper - 1)%nat in
        let rpm1 := fst (curve !!! lower) in
        let torque1 := snd (curve !!! lower) in
        let rpm2 := fst (curve !!! upper) in
        let torque2 := snd (curve !!! upper) in
        let t := (rpm - rpm1) / (rpm2 - rpm1) in
        torque1 + t * (torque2 - torque1)
  end.

(** The literal [PI] of VehicleParams.cpp. *)
Definition PI : R := 3.14159265358979323846.

(** [for (i in idxs) if (test i) return i;]: where a search loop returns. *)
Fixpoint find_index (test : nat -> bool) (idxs : list nat) : option nat :=
  match idxs with
  | [] => None
  | i :: rest => if test i then Some i else find_index test rest
  end.

(** The engine speed in gear [i + 1], as both loops of [getOptimalGear]
    compute it. *)
Definition gear_rpm (p : PowertrainParams) (velocity tire_radius : R) (i : nat) : R :=
  (velocity / tire_radius) * (gear_ratios p !!! i) * final_drive_ratio p * 60.0 / (2.0 * PI).

Definition getOptimalGear (p : PowertrainParams) (velocity tire_radius target_rpm : R) : Z :=
  if bool_decide (gear_ratios p = []) || (tire_radius <=? 0.0) || (velocity <=? 0.1) then 1%Z
  else
    let optimal_rpm_low := max_rpm p * 0.70 in
    let n := length (gear_ratios p) in
    match find_index
            (fun i =>
               let rpm := gear_rpm p velocity tire_radius i in
               (min_rpm p <=? rpm) && (rpm <=? max_rpm p) && (optimal_rpm_low <=? rpm))
            (reverse (seq 0 n)) with
    | Some i => (Z.of_nat i + 1)%Z
    | None =>
        match find_index
                (fun i =>
                   let rpm := gear_rpm p velocity tire_radius i in
                   (min_rpm p <=? rpm) && (rpm <=? max_rpm p))
                (seq 0 n) with
        | Some i => Z.of_nat (i + 1)
        | None => 1%Z
        end
    end.

Definition validate (v : VehicleParams) : bool :=
  if mass (mass_params v) <=? 0.0 then false
  else if cog_height (mass_params v) <? 0.0 then false
  else if wheelbase (mass_params v) <=? 0.0 then false
  else if (weight_distribution (mass_params v) <? 0.0)
          || (1.0 <? weight_distribution (mass_params v)) then false
  else if frontal_area (aero v) <=? 0.0 then false
  else if air_density (aero v) <=? 0.0 then false
  else if (mu_x (tire v) <=? 0.0) || (mu_y (tire v) <=? 0.0) then false
  else if tire_radius (tire v) <=? 0.0 then false
  else if (load_sensitivity (tire v) <? 0.0)
          || (1.0 <? load_sensitivity (tire v)) then false
  else if decide (engine_torque_curve (powertrain v) = []) then false
  else if decide (gear_ratios (powertrain v) = []) then false
  else if final_drive_ratio (powertrain v) <=? 0.0 then false
  else if (drivetrain_efficiency (powertrain v) <=? 0.0)
          || (1.0 <? drivetrain_efficiency (powertrain v)) then false
  else if max_brake_force (brake v) <=? 0.0 then false
  else if (brake_bias (brake v) <? 0.0) || (1.0 <? brake_bias (brake v)) then false
  else true.

End Params.

(** * physics/AerodynamicsModel *)

Module AerodynamicsModel.

Record t : Type := new { params_ : AeroParams }.

Definition getAeroCoefficient (m : t) : R :=
  0.5 * air_density (params_ m) * frontal_area (params_ m).

Definition getDragForce (m : t) (v : R) : R :=
  let v_squared := v * v in
  getAeroCoefficient m * Cd (params_ m) * v_squared.

Definition getDownforce (m : t) (v : R) : R :=
  let v_squared := v * v in
  - getAeroCoefficient m * Cl (params_ m) * v_squared.

Definition getTotalVerticalLoad (m : t) (v mass g : R) : R :=
  let weight := mass * g in
  let downforce := getDownforce m v in
  weight + downforce.

Definition getDragPower (m : t) (v : R) : R := getDragForce m v * v.

End AerodynamicsModel.

(** * physics/TireModel *)

Module TireModel.

Record t : Type := new { params_ : TireParams }.

Definition applyLoadSensitivity (m : t) (Fz base_mu : R) : R :=
  let Fz_reference := 2000.0 in
  if Rle_dec Fz 0.0 then 0.0
  else
    let load_ratio := Fz / Fz_reference in
    let exponent := load_sensitivity (params_ m) - 1.0 in
    base_mu * Std.pow load_ratio exponent.

Definition getEffectiveMu (m : t) (Fz base_mu : R) : R :=
  applyLoadSensitivity m Fz base_mu.

Definition getMaxLongitudinalForce (m : t) (Fz : R) : R :=
  getEffectiveMu m Fz (mu_x (params_ m)) * Fz.

Definition getMaxLateralForce (m : t) (Fz : R) : R :=
  getEffectiveMu m Fz (mu_y (params_ m)) * Fz.

Definition getMaxTotalForce (m : t) (Fz : R) : R :=
  let mu_avg := (mu_x (params_ m) + mu_y (params_ m)) / 2.0 in
  let mu_eff := getEffectiveMu m Fz mu_avg in
  mu_eff * Fz.

Definition getAvailableLongitudinalForce (m : t) (Fz Fy_current : R) : R :=
  let F_max := getMaxTotalForce m Fz in
  let Fy_squared := Fy_current * Fy_current in
  let F_max_squared := F_max * F_max in
  if Rle_dec F_max_squared Fy_squared then 0.0
  else sqrt (F_max_squared - Fy_squared).

Definition getAvailableLateralForce (m : t) (Fz Fx_current : R) : R :=
  let F_max := getMaxTotalForce m Fz in
  let Fx_squared := Fx_current * Fx_current in
  let F_max_squared := F_max * F_max in
  if Rle_dec F_max_squared Fx_squared then 0.0
  else sqrt (F_max_squared - Fx_squared).

Definition isWithinFrictionCircle (m : t) (Fx Fy Fz : R) : bool :=
  let F_max := getMaxTotalForce m Fz in
  let F_combined := sqrt (Fx * Fx + Fy * Fy) in
  F_combined <=? F_max.

End TireModel.

(** * physics/PowertrainModel *)

Module PowertrainModel.

Record t : Type := mk { params_ : PowertrainParams; tire_radius_ : R }.

Definition new (params : PowertrainParams) (tire_radius : R) : outcome t :=
  if Rle_dec tire_radius 0.0 then
    Throw (invalid_argument "Tire radius must be positive")
  else Ok (mk params tire_radius).

Definition PI : R := 3.14159265358979323846.

Definition isValidGear (m : t) (gear : Z) : bool :=
  (1 <=? gear)%Z && (gear <=? Z.of_nat (length (gear_ratios (params_ m))))%Z.

Definition getTotalGearRatio (m : t) (gear : Z) : R :=
  if negb (isValidGear m gear) then 0.0
  else
    let gear_index := Z.to_nat (gear - 1) in
    (gear_ratios (params_ m) !!! gear_index) * final_drive_ratio (params_ m).

Definition getRPM (m : t) (v : R) (gear : Z) : R :=
  if negb (isValidGear m gear) then 0.0
  else
    let wheel_angular_velocity := v / tire_radius_ m in
    let total_ratio := getTotalGearRatio m gear in
    let engine_angular_velocity := wheel_angular_velocity * total_ratio in
    engine_angular_velocity * 60.0 / (2.0 * PI).

Definition getEngineTorque (m : t) (rpm : R) : R :=
  Params.getTorqueAt (params_ m) rpm.

Definition getWheelForce (m : t) (v : R) (gear : Z) : R :=
  if negb (isValidGear m gear) || (v <=? 0.0) then 0.0
  else
    let rpm := getRPM m v gear in
    if (rpm <? min_rpm (params_ m)) || (max_rpm (params_ m) <? rpm) then 0.0
    else
      let engine_torque := getEngineTorque m rpm in
      let total_ratio := getTotalGearRatio m gear in
      let wheel_torque :=
        engine_torque * total_ratio * drivetrain_efficiency (params_ m) in
      wheel_torque / tire_radius_ m.

Definition getMaxWheelForce (m : t) (v : R) : R :=
  if Rle_dec v 0.0 then getWheelForce m 0.01 1
  else
    for_range 0 (length (gear_ratios (params_ m)))
      (fun i max_force =>
         let gear := Z.of_nat (i + 1) in
         let force := getWheelForce m v gear in
         Std.max max_force force)
      0.0.

Definition getWheelPower (m : t) (v : R) (gear : Z) : R :=
  getWheelForce m v gear * v.

(** One round of the loop of [getPeakPowerRPM]; the state is
    [(max_power, peak_rpm)]. *)
Definition peak_power_step (st : R * R) (e : R * R) : R * R :=
  let angular_velocity := fst e * 2.0 * PI / 60.0 in
  let power := snd e * angular_velocity in
  if Rlt_dec (fst st) power then (power, fst e) else st.

Definition getPeakPowerRPM (m : t) : R :=
  snd (foldl peak_power_step (0.0, 0.0) (engine_torque_curve (params_ m))).

Definition getMaxPower (m : t) : R :=
  let max_power :=
    foldl (fun max_power e =>
             let angular_velocity := fst e * 2.0 * PI / 60.0 in
             let power := snd e * angular_velocity in
             Std.max max_power power)
          0.0 (engine_torque_curve (params_ m)) in
  max_power * drivetrain_efficiency (params_ m).

Definition getOptimalGear (m : t) (v : R) : Z :=
  if Rle_dec v 0.0 then 1%Z
  else
    let target_rpm := getPeakPowerRPM m in
    Params.getOptimalGear (params_ m) v (tire_radius_ m) target_rpm.

End PowertrainModel.

(** * solver/GGVGenerator *)

Record GGVPoint : Type := mkGGVPoint {
  velocity : R; ay_lateral : R; ax_max_accel : R; ax_max_brake : R
}.

#[global] Instance GGVPoint_inhabited : Inhabited GGVPoint :=
  populate (mkGGVPoint 0 0 0 0).

Module GGVGenerator.

Record t : Type := mk {
  vehicle_ : VehicleParams;
  aero_model_ : AerodynamicsModel.t;
  tire_model_ : TireModel.t;
  powertrain_model_ : PowertrainModel.t;
  ggv_points_ : list GGVPoint;
  generated_ : bool;
  v_min_ : R; v_max_ : R; v_step_ : R;
  ay_min_ : R; ay_max_ : R; ay_step_ : R
}.

Definition new (vehicle : VehicleParams) : outcome t :=
  do pm <- PowertrainModel.new (powertrain vehicle) (tire_radius (tire vehicle));
  Ok (mk vehicle (AerodynamicsModel.new (aero vehicle)) (TireModel.new (tire vehicle))
         pm [] false 0 0 1 0 0 1).

Definition calculateMaxAcceleration (g0 : t) (v ay : R) : R :=
  let g := GRAVITY in
  let m := mass (mass_params (vehicle_ g0)) in
  let v := if Rlt_dec v 0.1 then 0.1 else v in
  let Fz_total := AerodynamicsModel.getTotalVerticalLoad (aero_model_ g0) v m g in
  let Fy_required := m * ay in
  let Fx_tire_max :=
    TireModel.getAvailableLongitudinalForce (tire_model_ g0) Fz_total Fy_required in
  let Fx_engine := PowertrainModel.getMaxWheelForce (powertrain_model_ g0) v in
  let F_drag := AerodynamicsModel.getDragForce (aero_model_ g0) v in
  let Fx_available := Std.min Fx_engine Fx_tire_max in
  let Fx_net := Fx_available - F_drag in
  let ax := Fx_net / m in
  Std.max 0.0 (Std.min ax 50.0).

Definition calculateMaxBraking (g0 : t) (v ay : R) : R :=
  let g := GRAVITY in
  let m := mass (mass_params (vehicle_ g0)) in
  let v := if Rlt_dec v 0.1 then 0.1 else v in
  let Fz_total := AerodynamicsModel.getTotalVerticalLoad (aero_model_ g0) v m g in
  let Fy_required := m * ay in
  let Fx_tire_max :=
    TireModel.getAvailableLongitudinalForce (tire_model_ g0) Fz_total Fy_required in
  let Fx_brake_system := max_brake_force (brake (vehicle_ g0)) in
  let Fx_brake := Std.min Fx_tire_max Fx_brake_system in
  let F_drag := AerodynamicsModel.getDragForce (aero_model_ g0) v in
  let Fx_net := - (Fx_brake + F_drag) in
  let ax := Fx_net / m in
  Std.max ax (-60.0).

Definition make_point (g0 : t) (v ay : R) : GGVPoint :=
  mkGGVPoint v ay (calculateMaxAcceleration g0 v ay) (calculateMaxBraking g0 v ay).

(** [for (double ay = 0.0; ay <= ay_max; ay += ay_step) push_back(...)] *)
Fixpoint generate_ay (fuel : nat) (g0 : t) (v ay ay_max ay_step : R)
         (pts : list GGVPoint) : outcome (list GGVPoint) :=
  if Rle_dec ay ay_max then
    match fuel with
    | O => OutOfFuel
    | S f => generate_ay f g0 v (ay + ay_step) ay_max ay_step (pts ++ [make_point g0 v ay])
    end
  else Ok pts.

(** [for (double v = v_min; v <= v_max; v += v_step) ...]; every run of the
    inner loop gets the whole fuel. *)
Fixpoint generate_v (fuel fuel_ay : nat) (g0 : t) (v v_max v_step ay_max ay_step : R)
         (pts : list GGVPoint) : outcome (list GGVPoint) :=
  if Rle_dec v v_max then
    match fuel with
    | O => OutOfFuel
    | S f =>
        do pts <- generate_ay fuel_ay g0 v 0.0 ay_max ay_step pts;
        generate_v f fuel_ay g0 (v + v_step) v_max v_step ay_max ay_step pts
    end
  else Ok pts.

Definition generate (fuel : nat) (g0 : t) (v_min v_max v_step ay_max ay_step : R)
  : outcome t :=
  do pts <- generate_v fuel fuel g0 v_min v_max v_step ay_max ay_step [];
  Ok (mk (vehicle_ g0) (aero_model_ g0) (tire_model_ g0) (powertrain_model_ g0)
         pts true v_min v_max v_step 0.0 ay_max ay_step).

(** The bilinear interpolation shared by [interpolateAcceleration] and
    [interpolateBraking]; [field] selects the stored value. *)
Definition interpolate (field : GGVPoint -> R) (g0 : t) (v ay : R) : R :=
  let v := Std.max (v_min_ g0) (Std.min (v_max_ g0) v) in
  let ay := Std.max 0.0 (Std.min (ay_max_ g0) ay) in
  let v_idx_f := (v - v_min_ g0) / v_step_ g0 in
  let ay_idx_f := ay / ay_step_ g0 in
  let v_idx := Std.to_int v_idx_f in
  let ay_idx := Std.to_int ay_idx_f in
  let v_t := v_idx_f - IZR v_idx in
  let ay_t := ay_idx_f - IZR ay_idx in
  let num_ay_points := (Std.to_int ((ay_max_ g0 - ay_min_ g0) / ay_step_ g0) + 1)%Z in
  let getValue (vi ayi : Z) : R :=
    let index := (vi * num_ay_points + ayi)%Z in
    if (0 <=? index)%Z && (index <? Z.of_nat (length (ggv_points_ g0)))%Z
    then field (ggv_points_ g0 !!! Z.to_nat index)
    else 0.0 in
  let v00 := getValue v_idx ay_idx in
  let v10 := getValue (v_idx + 1)%Z ay_idx in
  let v01 := getValue v_idx (ay_idx + 1)%Z in
  let v11 := getValue (v_idx + 1)%Z (ay_idx + 1)%Z in
  let v0 := v00 * (1 - v_t) + v10 * v_t in
  let v1 := v01 * (1 - v_t) + v11 * v_t in
  v0 * (1 - ay_t) + v1 * ay_t.

Definition interpolateAcceleration := interpolate ax_max_accel.
Definition interpolateBraking := interpolate ax_max_brake.

Definition getMaxAcceleration (g0 : t) (v ay : R) : outcome R :=
  if negb (generated_ g0) then
    Throw (runtime_error "GGV diagram has not been generated")
  else Ok (interpolateAcceleration g0 v (Std.abs ay)).

Definition getMaxBraking (g0 : t) (v ay : R) : outcome R :=
  if negb (generated_ g0) then
    Throw (runtime_error "GGV diagram has not been generated")
  else Ok (interpolateBraking g0 v (Std.abs ay)).

End GGVGenerator.

(** * data/SimulationState *)

Module SimulationState.

Record t : Type := mk {
  s : R; n : R; x : R; y : R; z : R;
  v : R; v_kmh : R; ax : R; ay : R; az : R;
  gx : R; gy : R; gz : R; g_total : R;
  throttle : R; brake : R; steering_angle : R;
  gear : Z; rpm : R; engine_torque : R; wheel_force : R;
  drag_force : R; downforce : R; tire_force_x : R; tire_force_y : R;
  vertical_load : R;
  curvature : R; radius : R; banking_angle : R;
  timestamp : R
}.

(** The state after [reset()], which the constructor calls. *)
Definition reset : t :=
  mk 0 0 0 0 0  0 0 0 0 0  0 0 0 0  0 0 0  1 0 0 0  0 0 0 0 0  0 1e9 0  0.

(** A freshly reset state moved to arc length [s0]. *)
Definition at_s (s0 : R) : t :=
  mk s0 0 0 0 0  0 0 0 0 0  0 0 0 0  0 0 0  1 0 0 0  0 0 0 0 0  0 1e9 0  0.

Definition updateGForces (gravity : R) (st : t) : t :=
  let gravity := if Rle_dec gravity 0.0 then 9.81 else gravity in
  let gx' := ax st / gravity in
  let gy' := ay st / gravity in
  let gz' := az st / gravity in
  mk (s st) (n st) (x st) (y st) (z st)
     (v st) (v_kmh st) (ax st) (ay st) (az st)
     gx' gy' gz' (sqrt (gx' * gx' + gy' * gy' + gz' * gz'))
     (throttle st) (brake st) (steering_angle st)
     (gear st) (rpm st) (engine_torque st) (wheel_force st)
     (drag_force st) (downforce st) (tire_force_x st) (tire_force_y st)
     (vertical_load st)
     (curvature st) (radius st) (banking_angle st)
     (timestamp st).

End SimulationState.

#[global] Instance SimulationState_inhabited : Inhabited SimulationState.t :=
  populate SimulationState.reset.

Module LapResult.

Record t : Type := mk { states_ : list SimulationState.t; lap_time_ : R }.

Definition new : t := mk [] 0.0.

Definition addState (r : t) (state : SimulationState.t) : t :=
  mk (states_ r ++ [state]) (lap_time_ r).

Definition setLapTime (r : t) (time : R) : t := mk (states_ r) time.
Definition getLapTime (r : t) : R := lap_time_ r.

(** [states_.back()] *)
Definition states_back (r : t) : SimulationState.t :=
  states_ r !!! (length (states_ r) - 1)%nat.

Definition getMaxSpeed (r : t) : R :=
  match states_ r with
  | [] => 0.0
  | _ => foldl (fun max_speed state => Std.max max_speed (SimulationState.v state)) 0.0 (states_ r)
  end.

Definition getAverageSpeed (r : t) : R :=
  if decide (states_ r = []) then 0.0
  else if Rle_dec (lap_time_ r) 0.0 then 0.0
  else
    if decide (states_ r = []) then 0.0
    else
      let total_distance := SimulationState.s (states_back r) in
      total_distance / lap_time_ r.

(** The three output parameters of [getMaxGForces], in order. *)
Definition getMaxGForces (r : t) : R * R * R :=
  foldl (fun '(max_gx, max_gy, max_g_total) state =>
           (Std.max max_gx (Std.abs (SimulationState.gx state)),
            Std.max max_gy (Std.abs (SimulationState.gy state)),
            Std.max max_g_total (SimulationState.g_total state)))
        (0.0, 0.0, 0.0) (states_ r).

Definition size (r : t) : nat := length (states_ r).

End LapResult.

(** * solver/QuasiSteadyStateSolver *)

(** [for (size_t i = lo; i < hi; ++i) body] where the body may throw. *)
Fixpoint for_each_m {S : Type} (body : nat -> S -> outcome S) (idxs : list nat) (st : S)
  : outcome S :=
  match idxs with
  | [] => Ok st
  | i :: rest => do st' <- body i st; for_each_m body rest st'
  end.

Definition for_range_m {S : Type} (lo hi : nat) (body : nat -> S -> outcome S) (st : S)
  : outcome S :=
  for_each_m body (seq lo (hi - lo)) st.

(** [n - 1] on [size_t]: wraps around at zero. *)
Definition size_t_pred (n : nat) : nat :=
  if decide (n = 0)%nat then Z.to_nat (2 ^ 64 - 1) else (n - 1)%nat.

Module QuasiSteadyStateSolver.

(** [track_] and [vehicle_] are references in the source; the engine never
    changes the objects behind them once the solver exists, so the solver
    state carries their values. *)
Record t : Type := mk {
  track_ : TrackData;
  vehicle_ : VehicleParams;
  n_points_ : nat;
  v_corner_ : list R;
  v_accel_ : list R;
  v_brake_ : list R;
  v_optimal_ : list R;
  lap_time_ : R;
  converged_ : bool;
  iterations_used_ : Z;
  ggv_ : GGVGenerator.t;
  aero_ : AerodynamicsModel.t;
  tire_ : TireModel.t;
  powertrain_model_ : PowertrainModel.t
}.

Definition set_v_corner (l : list R) (q : t) : t :=
  mk (track_ q) (vehicle_ q) (n_points_ q) l (v_accel_ q) (v_brake_ q) (v_optimal_ q)
     (lap_time_ q) (converged_ q) (iterations_used_ q)
     (ggv_ q) (aero_ q) (tire_ q) (powertrain_model_ q).
Definition set_v_accel (l : list R) (q : t) : t :=
  mk (track_ q) (vehicle_ q) (n_points_ q) (v_corner_ q) l (v_brake_ q) (v_optimal_ q)
     (lap_time_ q) (converged_ q) (iterations_used_ q)
     (ggv_ q) (aero_ q) (tire_ q) (powertrain_model_ q).
Definition set_v_brake (l : list R) (q : t) : t :=
  mk (track_ q) (vehicle_ q) (n_points_ q) (v_corner_ q) (v_accel_ q) l (v_optimal_ q)
     (lap_time_ q) (converged_ q) (iterations_used_ q)
     (ggv_ q) (aero_ q) (tire_ q) (powertrain_model_ q).
Definition set_v_optimal (l : list R) (q : t) : t :=
  mk (track_ q) (vehicle_ q) (n_points_ q) (v_corner_ q) (v_accel_ q) (v_brake_ q) l
     (lap_time_ q) (converged_ q) (iterations_used_ q)
     (ggv_ q) (aero_ q) (tire_ q) (powertrain_model_ q).
Definition set_lap_time (v : R) (q : t) : t :=
  mk (track_ q) (vehicle_ q) (n_points_ q) (v_corner_ q) (v_accel_ q) (v_brake_ q)
     (v_optimal_ q) v (converged_ q) (iterations_used_ q)
     (ggv_ q) (aero_ q) (tire_ q) (powertrain_model_ q).
Definition set_converged (b : bool) (q : t) : t :=
  mk (track_ q) (vehicle_ q) (n_points_ q) (v_corner_ q) (v_accel_ q) (v_brake_ q)
     (v_optimal_ q) (lap_time_ q) b (iterations_used_ q)
     (ggv_ q) (aero_ q) (tire_ q) (powertrain_model_ q).
Definition set_iterations_used (k : Z) (q : t) : t :=
  mk (track_ q) (vehicle_ q) (n_points_ q) (v_corner_ q) (v_accel_ q) (v_brake_ q)
     (v_optimal_ q) (lap_time_ q) (converged_ q) k
     (ggv_ q) (aero_ q) (tire_ q) (powertrain_model_ q).
Definition set_ggv (g : GGVGenerator.t) (q : t) : t :=
  mk (track_ q) (vehicle_ q) (n_points_ q) (v_corner_ q) (v_accel_ q) (v_brake_ q)
     (v_optimal_ q) (lap_time_ q) (converged_ q) (iterations_used_ q)
     g (aero_ q) (tire_ q) (powertrain_model_ q).

(** The constructor. *)
Definition new (track : TrackData) (vehicle : VehicleParams) : outcome t :=
  let n := Track.getNumPoints track in
  if negb (Track.isPreprocessed track) then
    Throw (runtime_error "Track must be preprocessed before solving")
  else if negb (Params.validate vehicle) then
    Throw (runtime_error "Vehicle parameters are invalid")
  else
    do ggv <- GGVGenerator.new vehicle;
    do pm <- PowertrainModel.new (powertrain vehicle) (tire_radius (tire vehicle));
    Ok (mk track vehicle n
           (replicate n 0.0) (replicate n 0.0) (replicate n 0.0) (replicate n 0.0)
           0.0 false 0
           ggv (AerodynamicsModel.new (aero vehicle)) (TireModel.new (tire vehicle)) pm).

Definition initialize (fuel : nat) (q : t) : outcome t :=
  let v_max := 120.0 in
  let v_step := 0.5 in
  let ay_max := 50.0 in
  let ay_step := 1.0 in
  do g <- GGVGenerator.generate fuel (ggv_ q) 0.0 v_max v_step ay_max ay_step;
  Ok (set_ggv g q).

Definition solveCorneringVelocity (q : t) (kappa : R) : R :=
  let g := GRAVITY in
  let m := mass (mass_params (vehicle_ q)) in
  let mu := mu_y (tire (vehicle_ q)) in
  let rho := air_density (aero (vehicle_ q)) in
  let Cl := Cl (aero (vehicle_ q)) in
  let A := frontal_area (aero (vehicle_ q)) in
  if Rlt_dec (Std.abs kappa) 0.002 then 110.0
  else
    let abs_kappa := Std.abs kappa in
    let aero_factor := 0.5 * mu * rho * (- Cl) * A in
    let denominator := m * abs_kappa - aero_factor in
    let numerator := mu * m * g in
    if Rle_dec denominator 0.0 then 100.0
    else
      let v_squared := numerator / denominator in
      if Rlt_dec v_squared 0.0 then 0.0
      else sqrt v_squared.

(** The statistics gathered for the console report are left out. *)
Definition calculateCorneringLimit (q : t) : outcome t :=
  for_range_m 0 (n_points_ q)
    (fun i q =>
       do point <- Track.getPoint (track_ q) i;
       Ok (set_v_corner (<[i := solveCorneringVelocity q (kappa point)]> (v_corner_ q)) q))
    q.

Definition forwardIntegration_step (i : nat) (q : t) : outcome t :=
  let v_start := Std.max (v_accel_ q !!! i) 1.0 in
  do point <- Track.getPoint (track_ q) i;
  let ay := v_start * v_start * Std.abs (kappa point) in
  do ax_max <- GGVGenerator.getMaxAcceleration (ggv_ q) v_start ay;
  let ax_max := Std.min ax_max 50.0 in
  let v_squared_end := v_start * v_start + 2.0 * ax_max * ds point in
  let v_end := if Rlt_dec 0.0 v_squared_end then sqrt v_squared_end else v_start in
  let q := set_v_accel
             (<[(i + 1)%nat := Std.min v_end (v_corner_ q !!! (i + 1)%nat)]> (v_accel_ q)) q in
  Ok (set_v_accel
        (<[(i + 1)%nat := Std.max (v_accel_ q !!! (i + 1)%nat) 1.0]> (v_accel_ q)) q).

Definition forwardIntegration (q : t) : outcome t :=
  do q <- for_range_m 0 (size_t_pred (n_points_ q)) forwardIntegration_step q;
  let last := size_t_pred (n_points_ q) in
  let v_start := v_accel_ q !!! last in
  do point <- Track.getPoint (track_ q) last;
  let ay := v_start * v_start * Std.abs (kappa point) in
  do ax_max <- GGVGenerator.getMaxAcceleration (ggv_ q) v_start ay;
  let v_squared_end := v_start * v_start + 2.0 * ax_max * ds point in
  let v_end := if Rlt_dec 0.0 v_squared_end then sqrt v_squared_end else 0.0 in
  Ok (set_v_accel
        (<[0%nat := Std.min (v_accel_ q !!! 0%nat)
                            (Std.min v_end (v_corner_ q !!! 0%nat))]> (v_accel_ q)) q).

(** The body of the backward loop at [int i]; [i] is positive there. *)
Definition backwardIntegration_step (i : nat) (q : t) : outcome t :=
  let v_start := Std.max (v_brake_ q !!! i) 1.0 in
  let i_prev := (i - 1)%nat in
  do point_prev <- Track.getPoint (track_ q) i_prev;
  do point_i <- Track.getPoint (track_ q) i;
  let ay := v_start * v_start * Std.abs (kappa point_i) in
  do ax_min <- GGVGenerator.getMaxBraking (ggv_ q) v_start ay;
  let ax_min := Std.max ax_min (-60.0) in
  let v_squared_prev := v_start * v_start - 2.0 * ax_min * ds point_prev in
  let v_prev := if Rlt_dec 0.0 v_squared_prev then sqrt v_squared_prev else v_start in
  let q := set_v_brake
             (<[i_prev := Std.min v_prev (v_corner_ q !!! i_prev)]> (v_brake_ q)) q in
  Ok (set_v_brake (<[i_prev := Std.max (v_brake_ q !!! i_prev) 1.0]> (v_brake_ q)) q).

(** [for (int i = n_points_ - 1; i > 0; --i)] visits [n-1, ..., 1]. *)
Definition backwardIntegration (q : t) : outcome t :=
  do q <- for_each_m backwardIntegration_step (reverse (seq 1 (n_points_ q - 1))) q;
  let v_start := v_brake_ q !!! 0%nat in
  do last_point <- Track.getPoint (track_ q) (size_t_pred (n_points_ q));
  do point_0 <- Track.getPoint (track_ q) 0;
  let ay := v_start * v_start * Std.abs (kappa point_0) in
  do ax_min <- GGVGenerator.getMaxBraking (ggv_ q) v_start ay;
  let v_squared_prev := v_start * v_start - 2.0 * ax_min * ds last_point in
  let v_prev := if Rlt_dec 0.0 v_squared_prev then sqrt v_squared_prev else 0.0 in
  let last := size_t_pred (n_points_ q) in
  Ok (set_v_brake
        (<[last := Std.min (v_brake_ q !!! last)
                           (Std.min v_prev (v_corner_ q !!! last))]> (v_brake_ q)) q).

Definition combineProfiles (q : t) : t :=
  for_range 0 (n_points_ q)
    (fun i q =>
       set_v_optimal
         (<[i := Std.min_il (v_corner_ q !!! i) [v_accel_ q !!! i; v_brake_ q !!! i]]>
            (v_optimal_ q)) q)
    q.

Definition calculateLapTime (q : t) : outcome R :=
  for_range_m 0 (n_points_ q)
    (fun i total_time =>
       do point <- Track.getPoint (track_ q) i;
       if Rlt_dec 0.0 (v_optimal_ q !!! i) then
         let dt := ds point / (v_optimal_ q !!! i) in
         Ok (total_time + dt)
       else Ok total_time)
    0.0.

(** The body of [for (int iter = 0; iter < max_iterations; ++iter)], with
    [remaining] the number of rounds still allowed. *)
Fixpoint solve_loop (remaining : nat) (iter : Z) (prev_lap_time tolerance : R) (q : t)
  : outcome t :=
  match remaining with
  | O => Ok q
  | S remaining' =>
      let q := set_iterations_used (iter + 1)%Z q in
      do q <- forwardIntegration q;
      do q <- backwardIntegration q;
      let q := combineProfiles q in
      do lap_time <- calculateLapTime q;
      let q := set_lap_time lap_time q in
      let lap_time_change := Std.abs (lap_time_ q - prev_lap_time) in
      if Rlt_dec lap_time_change tolerance then Ok (set_converged true q)
      else solve_loop remaining' (iter + 1)%Z (lap_time_ q) tolerance q
  end.

Definition solve (fuel : nat) (q : t) (max_iterations : Z) (tolerance : R)
  : outcome (R * t) :=
  do q <- initialize fuel q;
  do q <- calculateCorneringLimit q;
  let initial_speed := 50.0 in
  let q := for_range 0 (n_points_ q)
             (fun i q =>
                let q := set_v_accel
                           (<[i := Std.min initial_speed (v_corner_ q !!! i)]> (v_accel_ q)) q in
                set_v_brake
                  (<[i := Std.min initial_speed (v_corner_ q !!! i)]> (v_brake_ q)) q)
             q in
  let prev_lap_time := 1e9 in
  let q := set_converged false q in
  do q <- solve_loop (Z.to_nat max_iterations) 0 prev_lap_time tolerance q;
  Ok (lap_time_ q, q).

Definition createState (q : t) (index : nat) (time : R) : outcome SimulationState.t :=
  do point <- Track.getPoint (track_ q) index;
  let v := v_optimal_ q !!! index in
  let ay := v * v * kappa point in
  let ax :=
    if decide (index < size_t_pred (n_points_ q))%nat then
      let v_next := v_optimal_ q !!! (index + 1)%nat in
      let dv := v_next - v in
      let dt := if Rlt_dec 0.0 v then ds point / v else 0.0 in
      if Rlt_dec 0.0 dt then dv / dt else 0.0
    else 0.0 in
  let r0 := SimulationState.reset in
  let state :=
    SimulationState.updateGForces 9.81
      (SimulationState.mk
         (s point) 0.0 (x point) (y point) (z point)
         v (v * 3.6) ax ay GRAVITY
         (SimulationState.gx r0) (SimulationState.gy r0) (SimulationState.gz r0)
         (SimulationState.g_total r0)
         (SimulationState.throttle r0) (SimulationState.brake r0)
         (SimulationState.steering_angle r0)
         (SimulationState.gear r0) (SimulationState.rpm r0)
         (SimulationState.engine_torque r0) (SimulationState.wheel_force r0)
         (SimulationState.drag_force r0) (SimulationState.downforce r0)
         (SimulationState.tire_force_x r0) (SimulationState.tire_force_y r0)
         (SimulationState.vertical_load r0)
         (SimulationState.curvature r0) (SimulationState.radius r0)
         (SimulationState.banking_angle r0)
         (SimulationState.timestamp r0)) in
  let throttle :=
    if Rlt_dec 0.1 ax then Std.min 1.0 (ax / 20.0) else 0.0 in
  let brake :=
    if Rlt_dec 0.1 ax then 0.0
    else if Rlt_dec ax (-0.1) then Std.min 1.0 (- ax / 30.0) else 0.0 in
  let gear := PowertrainModel.getOptimalGear (powertrain_model_ q) v in
  Ok (SimulationState.mk
        (SimulationState.s state) (SimulationState.n state)
        (SimulationState.x state) (SimulationState.y state) (SimulationState.z state)
        (SimulationState.v state) (SimulationState.v_kmh state)
        (SimulationState.ax state) (SimulationState.ay state) (SimulationState.az state)
        (SimulationState.gx state) (SimulationState.gy state) (SimulationState.gz state)
        (SimulationState.g_total state)
        throttle brake
        (atan (wheelbase (mass_params (vehicle_ q)) * kappa point))
        gear (PowertrainModel.getRPM (powertrain_model_ q) v gear)
        (SimulationState.engine_torque state) (SimulationState.wheel_force state)
        (AerodynamicsModel.getDragForce (aero_ q) v)
        (AerodynamicsModel.getDownforce (aero_ q) v)
        (SimulationState.tire_force_x state) (SimulationState.tire_force_y state)
        (AerodynamicsModel.getTotalVerticalLoad (aero_ q) v
           (mass (mass_params (vehicle_ q))) 9.81)
        (kappa point)
        (if Rlt_dec 1e-6 (Std.abs (kappa point)) then 1.0 / Std.abs (kappa point) else 1e9)
        (banking point)
        time).

(** One round of the loop of [getDetailedResult]; the state is
    [(result, cumulative_time)]. *)
Definition getDetailedResult_step (q : t) (i : nat) (st : LapResult.t * R)
  : outcome (LapResult.t * R) :=
  do state <- createState q i (snd st);
  let result := LapResult.addState (fst st) state in
  do point <- Track.getPoint (track_ q) i;
  if Rlt_dec 0.0 (v_optimal_ q !!! i)
  then Ok (result, snd st + ds point / (v_optimal_ q !!! i))
  else Ok (result, snd st).

Definition getDetailedResult (q : t) : outcome LapResult.t :=
  let result := LapResult.setLapTime LapResult.new (lap_time_ q) in
  do st <- for_range_m 0 (n_points_ q) (getDetailedResult_step q) (result, 0.0);
  Ok (fst st).

End QuasiSteadyStateSolver.

(** * Vocabulary of the statements, and example data *)

(** A single-gear powertrain used to exercise the statements. *)
Definition example_powertrain : PowertrainParams :=
  mkPowertrainParams [(5000, 250)] [3] 3.5 0.95 15000 4000 0.05.

Definition example_powertrain_model : PowertrainModel.t :=
  PowertrainModel.mk example_powertrain 0.3.

(** The object the constructor builds when it does not throw. *)
Definition solver_of (track : TrackData) (vehicle : VehicleParams) : QuasiSteadyStateSolver.t :=
  let n := length (points_ track) in
  QuasiSteadyStateSolver.mk track vehicle n
    (replicate n 0.0) (replicate n 0.0) (replicate n 0.0) (replicate n 0.0)
    0.0 false 0
    (GGVGenerator.mk vehicle (AerodynamicsModel.new (aero vehicle))
       (TireModel.new (tire vehicle))
       (PowertrainModel.mk (powertrain vehicle) (tire_radius (tire vehicle)))
       [] false 0 0 1 0 0 1)
    (AerodynamicsModel.new (aero vehicle)) (TireModel.new (tire vehicle))
    (PowertrainModel.mk (powertrain vehicle) (tire_radius (tire vehicle))).

(** The vehicle of the specification's end-to-end scenarios. *)
Definition example_vehicle : VehicleParams :=
  mkVehicleParams
    (mkMassParams 800 0.3 2.5 0.45)
    (mkAeroParams (-3) 0.8 1.5 1.225)
    (mkTireParams 1.6 1.6 0.9 0.3)
    (mkPowertrainParams [(5000, 250); (10000, 350); (15000, 300)]
                        [3; 2.2; 1.7; 1.3; 1] 3.5 0.95 15000 4000 0.05)
    (mkBrakeParams 20000 0.6)
    "example".

(** A right triangle with legs 30 and 40, added point by point and then
    preprocessed. *)
Definition example_raw_track : TrackData :=
  Track.addPoint
    (Track.addPoint (Track.addPoint Track.TrackData_new 0 0 0 5 5 0) 30 0 0 5 5 0)
    30 40 0 5 5 0.

Definition example_track : TrackData :=
  Track.set_preprocessed true
    (Track.calculateCurvature (Track.calculateHeading (Track.calculateArcLength example_raw_track))).

(** The four velocity vectors have the size fixed at construction. *)
Definition well_sized (q : QuasiSteadyStateSolver.t) : Prop :=
  length (QuasiSteadyStateSolver.v_corner_ q) = QuasiSteadyStateSolver.n_points_ q
  /\ length (QuasiSteadyStateSolver.v_accel_ q) = QuasiSteadyStateSolver.n_points_ q
  /\ length (QuasiSteadyStateSolver.v_brake_ q) = QuasiSteadyStateSolver.n_points_ q
  /\ length (QuasiSteadyStateSolver.v_optimal_ q) = QuasiSteadyStateSolver.n_points_ q.


(** Parameters under which no gear can push backwards. *)
Definition forward_drive (m : PowertrainModel.t) : Prop :=
  Forall (fun e => 0 <= snd e) (engine_torque_curve (PowertrainModel.params_ m))
  /\ Forall (fun ratio => 0 <= ratio) (gear_ratios (PowertrainModel.params_ m))
  /\ 0 <= final_drive_ratio (PowertrainModel.params_ m)
  /\ 0 <= drivetrain_efficiency (PowertrainModel.params_ m)
  /\ 0 < PowertrainModel.tire_radius_ m.

(** A vehicle that passes [validate] although its torque table holds a
    negative entry and its idle speed is 0. *)
Definition negative_torque_vehicle : VehicleParams :=
  mkVehicleParams
    (mkMassParams 800 0.3 2.5 0.45)
    (mkAeroParams (-3) 0.8 1.5 1.225)
    (mkTireParams 1.6 1.8 0.9 0.3)
    (mkPowertrainParams [(1000, -50)] [3] 3.5 0.95 15000 0 0.05)
    (mkBrakeParams 20000 0.6)
    "negative torque".

Definition negative_torque_model : PowertrainModel.t :=
  PowertrainModel.mk (powertrain negative_torque_vehicle) 0.3.

(** The generator the constructor builds for a positive tire radius. *)
Definition ggv_of (vehicle : VehicleParams) : GGVGenerator.t :=
  GGVGenerator.mk vehicle (AerodynamicsModel.new (aero vehicle))
    (TireModel.new (tire vehicle))
    (PowertrainModel.mk (powertrain vehicle) (tire_radius (tire vehicle)))
    [] false 0 0 1 0 0 1.

(** A vehicle that passes [validate] although its drag coefficient is
    negative: [validate] does not look at [Cd]. *)
Definition negative_drag_vehicle : VehicleParams :=
  mkVehicleParams
    (mkMassParams 800 0.3 2.5 0.45)
    (mkAeroParams (-3) (-100) 1.5 1.225)
    (mkTireParams 1.6 1.8 0.9 0.3)
    (mkPowertrainParams [(5000, 250); (10000, 350); (15000, 300)]
                        [3; 2.2; 1.7; 1.3; 1] 3.5 0.95 15000 4000 0.05)
    (mkBrakeParams 20000 0.6)
    "negative drag".

(** The fields read from the input file. *)
Definition same_raw (p q : TrackPoint) : Prop :=
  x p = x q /\ y p = y q /\ z p = z q
  /\ w_tr_left p = w_tr_left q /\ w_tr_right p = w_tr_right q /\ banking p = banking q.

(** The raw fields together with the arc-length fields. *)
Definition same_arc (p q : TrackPoint) : Prop :=
  same_raw p q /\ s p = s q /\ ds p = ds q.

(** The invariant of the loop of [calculateArcLength] on entering round [k]:
    the segments before point [k - 1] are measured and summed. *)
Definition arc_inv (pts0 : list TrackPoint) (k : nat) (pts : list TrackPoint) : Prop :=
  length pts = length pts0
  /\ (forall i, same_raw (pts !!! i) (pts0 !!! i))
  /\ s (pts !!! 0%nat) = 0
  /\ forall i, (i + 1 < k)%nat ->
       ds (pts !!! i) = Track.dist3 (pts0 !!! (i + 1)%nat) (pts0 !!! i)
       /\ s (pts !!! (i + 1)%nat) = s (pts !!! i) + ds (pts !!! i).

(** What [calculateArcLength] leaves in the track. *)
Definition arc_length_ok (pts0 pts : list TrackPoint) (L : R) : Prop :=
  length pts = length pts0
  /\ (forall i, same_raw (pts !!! i) (pts0 !!! i))
  /\ s (pts !!! 0%nat) = 0
  /\ (forall i, (i + 1 < length pts0)%nat ->
        ds (pts !!! i) = Track.dist3 (pts0 !!! (i + 1)%nat) (pts0 !!! i)
        /\ s (pts !!! (i + 1)%nat) = s (pts !!! i) + ds (pts !!! i))
  /\ ds (pts !!! (length pts0 - 1)%nat)
     = Track.dist3 (pts0 !!! 0%nat) (pts0 !!! (length pts0 - 1)%nat)
  /\ L = s (pts !!! (length pts0 - 1)%nat) + ds (pts !!! (length pts0 - 1)%nat).

(** A track whose first two points coincide. *)
Definition duplicate_point_raw_track : TrackData :=
  Track.addPoint
    (Track.addPoint (Track.addPoint Track.TrackData_new 0 0 0 5 5 0) 0 0 0 5 5 0)
    1 0 0 5 5 0.

Definition duplicate_point_track : TrackData :=
  Track.set_preprocessed true
    (Track.calculateCurvature
       (Track.calculateHeading (Track.calculateArcLength duplicate_point_raw_track))).

(** What the passes rely on and keep: the track, the point count, the four
    vectors sized to it, a generated GGV table, and the iteration counter. *)
Definition ready (track : TrackData) (k : Z) (q : QuasiSteadyStateSolver.t) : Prop :=
  QuasiSteadyStateSolver.track_ q = track
  /\ QuasiSteadyStateSolver.n_points_ q = length (points_ track)
  /\ GGVGenerator.generated_ (QuasiSteadyStateSolver.ggv_ q) = true
  /\ QuasiSteadyStateSolver.iterations_used_ q = k
  /\ well_sized q.

(** The invariant of the [std::map] behind [engine_torque_curve]: its keys
    are strictly increasing. *)
Definition keys_increasing (curve : list (R * R)) : Prop :=
  forall i j, (i < j < length curve)%nat -> fst (curve !!! i) < fst (curve !!! j).

(** The shaft power of a torque table entry, as [getMaxPower] and
    [getPeakPowerRPM] compute it. *)
Definition entry_power (e : R * R) : R :=
  snd e * (fst e * 2.0 * PowertrainModel.PI / 60.0).

(** The signs the two integration passes expect from the envelope: the
    acceleration read from the table is not negative, the braking value not
    positive. *)
Definition envelope_signs (g : GGVGenerator.t) : Prop :=
  forall v ay,
    0 <= GGVGenerator.interpolateAcceleration g v ay
    /\ GGVGenerator.interpolateBraking g v ay <= 0.

(** Every entry of a profile over [n] points is a positive speed. *)
Definition positive_profile (n : nat) (l : list R) : Prop :=
  forall i, (i < n)%nat -> 0 < l !!! i.

(** What the iteration of [solve] keeps: a sized state on [track] for
    [vehicle], the generated table [g], the cornering limit [vc], and, when
    the table has the expected signs, positive forward and backward
    profiles. *)
Definition paced (track : TrackData) (vehicle : VehicleParams) (g : GGVGenerator.t)
           (vc : list R) (q : QuasiSteadyStateSolver.t) : Prop :=
  ready track (QuasiSteadyStateSolver.iterations_used_ q) q
  /\ QuasiSteadyStateSolver.vehicle_ q = vehicle
  /\ QuasiSteadyStateSolver.ggv_ q = g
  /\ QuasiSteadyStateSolver.v_corner_ q = vc
  /\ (envelope_signs g ->
      positive_profile (length (points_ track)) (QuasiSteadyStateSolver.v_accel_ q)
      /\ positive_profile (length (points_ track)) (QuasiSteadyStateSolver.v_brake_ q)).

(** The time [calculateLapTime] and [getDetailedResult] have accumulated on
    reaching point [k]: the segments of the points with a positive optimal
    speed, in order. *)
Definition elapsed (q : QuasiSteadyStateSolver.t) (k : nat) : R :=
  foldl (fun total_time i =>
           if Rlt_dec 0.0 (QuasiSteadyStateSolver.v_optimal_ q !!! i)
           then total_time
                + ds (points_ (QuasiSteadyStateSolver.track_ q) !!! i)
                  / (QuasiSteadyStateSolver.v_optimal_ q !!! i)
           else total_time)
        0.0 (seq 0 k).

(** The length of the first [k] segments of a track. *)
Definition ds_sum (pts : list TrackPoint) (k : nat) : R :=
  foldl (fun acc i => acc + ds (pts !!! i)) 0 (seq 0 k).

(** The arc lengths of the points never decrease along the track. *)
Definition s_sorted (pts : list TrackPoint) : Prop :=
  forall i j, (i <= j < length pts)%nat -> s (pts !!! i) <= s (pts !!! j).

(** * Properties *)

(** ** Comparisons and the [<algorithm>] helpers *)

Lemma Rltb_true a b : (a <? b) = true <-> a < b.
Proof. unfold Rltb. destruct (Rlt_dec a b); split; intros; try lra; congruence. Qed.

Lemma Rltb_false a b : (a <? b) = false <-> b <= a.
Proof. unfold Rltb. destruct (Rlt_dec a b); split; intros; try lra; congruence. Qed.

Lemma Rleb_true a b : (a <=? b) = true <-> a <= b.
Proof. unfold Rleb. destruct (Rle_dec a b); split; intros; try lra; congruence. Qed.

Lemma Rleb_false a b : (a <=? b) = false <-> b < a.
Proof. unfold Rleb. destruct (Rle_dec a b); split; intros; try lra; congruence. Qed.

Lemma std_min_Rmin a b : Std.min a b = Rmin a b.
Proof.
  unfold Std.min, Rmin.
  destruct (Rlt_dec b a), (Rle_dec a b); lra.
Qed.

Lemma std_max_Rmax a b : Std.max a b = Rmax a b.
Proof.
  unfold Std.max, Rmax.
  destruct (Rlt_dec a b), (Rle_dec a b); lra.
Qed.

Lemma std_min_le_l a b : Std.min a b <= a.
Proof. rewrite std_min_Rmin. apply Rmin_l. Qed.

Lemma std_min_le_r a b : Std.min a b <= b.
Proof. rewrite std_min_Rmin. apply Rmin_r. Qed.

Lemma std_max_ge_l a b : a <= Std.max a b.
Proof. rewrite std_max_Rmax. apply Rmax_l. Qed.

Lemma std_max_ge_r a b : b <= Std.max a b.
Proof. rewrite std_max_Rmax. apply Rmax_r. Qed.

Lemma std_min_glb a b c : c <= a -> c <= b -> c <= Std.min a b.
Proof. rewrite std_min_Rmin. apply Rmin_glb. Qed.

Lemma std_max_lub a b c : a <= c -> b <= c -> Std.max a b <= c.
Proof. rewrite std_max_Rmax. apply Rmax_lub. Qed.

Lemma min_element_Rmin smallest rest :
  Std.min_element smallest rest = foldl Rmin smallest rest.
Proof.
  revert smallest. induction rest as [|x rest IH]; intros smallest; simpl; [reflexivity|].
  destruct (Rlt_dec x smallest) as [Hlt|Hge]; rewrite IH; f_equal; unfold Rmin;
    destruct (Rle_dec smallest x); lra.
Qed.

Lemma std_min_il3 a b c : Std.min_il a [b; c] = Rmin a (Rmin b c).
Proof.
  unfold Std.min_il. rewrite min_element_Rmin. simpl.
  symmetry. apply Rmin_assoc.
Qed.

(** ** Counted loops *)

Lemma for_range_S {S : Type} lo hi (body : nat -> S -> S) st :
  (lo <= hi)%nat ->
  for_range lo (Datatypes.S hi) body st = body hi (for_range lo hi body st).
Proof.
  intros Hle. unfold for_range.
  replace (Datatypes.S hi - lo)%nat with (Datatypes.S (hi - lo)) by lia.
  rewrite seq_S, foldl_app. simpl.
  replace (lo + (hi - lo))%nat with hi by lia. reflexivity.
Qed.

Lemma for_range_nil {S : Type} lo hi (body : nat -> S -> S) st :
  (hi <= lo)%nat -> for_range lo hi body st = st.
Proof.
  intros Hle. unfold for_range.
  replace (hi - lo)%nat with 0%nat by lia. reflexivity.
Qed.

(** Loop-invariant rule for [for_range]. *)
Lemma for_range_inv {S : Type} (P : nat -> S -> Prop) lo hi (body : nat -> S -> S) st :
  (lo <= hi)%nat ->
  P lo st ->
  (forall i st', (lo <= i < hi)%nat -> P i st' -> P (Datatypes.S i) (body i st')) ->
  P hi (for_range lo hi body st).
Proof.
  intros Hle H0 Hstep.
  induction hi as [|hi IH].
  - assert (lo = 0)%nat by lia. subst. rewrite for_range_nil by lia. exact H0.
  - destruct (decide (lo = Datatypes.S hi)) as [->|Hne].
    + rewrite for_range_nil by lia. exact H0.
    + rewrite for_range_S by lia. apply Hstep; [lia|].
      apply IH; [lia|]. intros i st' Hi. apply Hstep. lia.
Qed.

(** ** LapResult *)

(** C9: with a non-empty state sequence and a positive lap time,
    [getAverageSpeed] is the arc length [s] of the last state divided by the
    lap time (the track's total length plays no role); with no state or a
    non-positive lap time it is 0. *)
Theorem getAverageSpeed_spec (r : LapResult.t) :
  (forall pre last_state,
      LapResult.states_ r = pre ++ [last_state] ->
      0 < LapResult.lap_time_ r ->
      LapResult.getAverageSpeed r = SimulationState.s last_state / LapResult.lap_time_ r)
  /\ (LapResult.states_ r = [] \/ LapResult.lap_time_ r <= 0 ->
      LapResult.getAverageSpeed r = 0).
Proof.
  split.
  - intros pre last_state Hst Hlap. unfold LapResult.getAverageSpeed.
    destruct (decide (LapResult.states_ r = [])) as [Hnil|Hne].
    { rewrite Hst in Hnil. destruct pre; discriminate. }
    destruct (Rle_dec (LapResult.lap_time_ r) 0.0) as [Hle|_]; [lra|].
    unfold LapResult.states_back. rewrite Hst.
    rewrite length_app. simpl.
    replace (length pre + 1 - 1)%nat with (length pre) by lia.
    rewrite list_lookup_total_middle by reflexivity. reflexivity.
  - intros [Hnil|Hle]; unfold LapResult.getAverageSpeed.
    + destruct (decide (LapResult.states_ r = [])); [lra|contradiction].
    + destruct (decide (LapResult.states_ r = [])); [lra|].
      destruct (Rle_dec (LapResult.lap_time_ r) 0.0); [lra|lra].
Qed.

Lemma getAverageSpeed_spec_witness :
  LapResult.getAverageSpeed
    (LapResult.mk [SimulationState.reset; SimulationState.at_s 30] 2)
  = 30 / 2.
Proof.
  refine (proj1 (getAverageSpeed_spec
                   (LapResult.mk [SimulationState.reset; SimulationState.at_s 30] 2))
                [SimulationState.reset] (SimulationState.at_s 30) eq_refl _).
  simpl. lra.
Defined.

(** ** Vehicle parameters *)

(** What a successful [validate] establishes. *)
Lemma validate_true (v : VehicleParams) :
  Params.validate v = true ->
  0 < mass (mass_params v) /\ 0 <= cog_height (mass_params v)
  /\ 0 < wheelbase (mass_params v)
  /\ 0 <= weight_distribution (mass_params v) <= 1
  /\ 0 < frontal_area (aero v) /\ 0 < air_density (aero v)
  /\ 0 < mu_x (tire v) /\ 0 < mu_y (tire v) /\ 0 < tire_radius (tire v)
  /\ 0 <= load_sensitivity (tire v) <= 1
  /\ engine_torque_curve (powertrain v) <> []
  /\ gear_ratios (powertrain v) <> []
  /\ 0 < final_drive_ratio (powertrain v)
  /\ 0 < drivetrain_efficiency (powertrain v) <= 1
  /\ 0 < max_brake_force (brake v)
  /\ 0 <= brake_bias (brake v) <= 1.
Proof.
  unfold Params.validate, Rleb, Rltb.
  repeat match goal with
         | |- context [Rle_dec ?a ?b] => destruct (Rle_dec a b); simpl; try discriminate
         | |- context [Rlt_dec ?a ?b] => destruct (Rlt_dec a b); simpl; try discriminate
         | |- context [decide ?P] => destruct (decide P); simpl; try discriminate
         end.
  intros _. repeat split; first [lra | assumption].
Qed.

(** ** PowertrainModel *)

Lemma isValidGear_true (m : PowertrainModel.t) (gear : Z) :
  PowertrainModel.isValidGear m gear = true <->
  (1 <= gear <= Z.of_nat (length (gear_ratios (PowertrainModel.params_ m))))%Z.
Proof. unfold PowertrainModel.isValidGear. rewrite andb_true_iff. lia. Qed.

Lemma isValidGear_false (m : PowertrainModel.t) (gear : Z) :
  PowertrainModel.isValidGear m gear = false <->
  ~ (1 <= gear <= Z.of_nat (length (gear_ratios (PowertrainModel.params_ m))))%Z.
Proof. rewrite <- isValidGear_true. destruct (PowertrainModel.isValidGear m gear); intuition congruence. Qed.

(** For a valid gear, [getRPM] is the wheel speed [v / r] taken through the
    total ratio and converted from rad/s to rev/min. *)
Lemma getRPM_valid (m : PowertrainModel.t) (v : R) (gear : Z) :
  (1 <= gear <= Z.of_nat (length (gear_ratios (PowertrainModel.params_ m))))%Z ->
  PowertrainModel.getRPM m v gear =
  v / PowertrainModel.tire_radius_ m
  * (gear_ratios (PowertrainModel.params_ m) !!! Z.to_nat (gear - 1)
     * final_drive_ratio (PowertrainModel.params_ m))
  * 60 / (2 * PowertrainModel.PI).
Proof.
  intros Hg. apply isValidGear_true in Hg.
  unfold PowertrainModel.getRPM, PowertrainModel.getTotalGearRatio.
  rewrite Hg. simpl.
  replace 60.0 with 60 by lra. replace 2.0 with 2 by lra. reflexivity.
Qed.

(** C6: [getWheelForce v g] is 0 for a gear outside [1, number of gears] or
    [v <= 0]; otherwise, with [rpm] obtained from [v] through the gearing, it
    is 0 when [rpm < min_rpm] or [rpm > max_rpm], and else
    [getTorqueAt rpm * gear_ratios[g-1] * final_drive * efficiency / tire_radius]. *)
Theorem getWheelForce_spec (m : PowertrainModel.t) (v : R) (g : Z) :
  let p := PowertrainModel.params_ m in
  let n := Z.of_nat (length (gear_ratios p)) in
  let rpm := v / PowertrainModel.tire_radius_ m
             * (gear_ratios p !!! Z.to_nat (g - 1) * final_drive_ratio p)
             * 60 / (2 * PowertrainModel.PI) in
  (~ (1 <= g <= n)%Z \/ v <= 0 -> PowertrainModel.getWheelForce m v g = 0)
  /\ ((1 <= g <= n)%Z -> 0 < v ->
      PowertrainModel.getRPM m v g = rpm
      /\ (rpm < min_rpm p \/ max_rpm p < rpm -> PowertrainModel.getWheelForce m v g = 0)
      /\ (min_rpm p <= rpm <= max_rpm p ->
          PowertrainModel.getWheelForce m v g =
          Params.getTorqueAt p rpm * (gear_ratios p !!! Z.to_nat (g - 1))
          * final_drive_ratio p * drivetrain_efficiency p
          / PowertrainModel.tire_radius_ m)).
Proof.
  intros p n rpm. split.
  - intros [Hg|Hv]; unfold PowertrainModel.getWheelForce.
    + apply isValidGear_false in Hg. rewrite Hg. simpl. lra.
    + apply Rleb_true in Hv. replace 0.0 with 0 by lra. rewrite Hv.
      rewrite orb_true_r. lra.
  - intros Hg Hv.
    assert (Hrpm : PowertrainModel.getRPM m v g = rpm) by (apply getRPM_valid; exact Hg).
    assert (Hvalid := proj2 (isValidGear_true m g) Hg).
    assert (Hpos : (v <=? 0.0) = false) by (apply Rleb_false; lra).
    split; [exact Hrpm|]. split.
    + intros Hout. unfold PowertrainModel.getWheelForce.
      rewrite Hvalid, Hpos, Hrpm. simpl.
      fold p. destruct Hout as [Hlo|Hhi].
      * apply Rltb_true in Hlo. rewrite Hlo. simpl. lra.
      * apply Rltb_true in Hhi. rewrite Hhi. rewrite orb_true_r. lra.
    + intros [Hlo Hhi]. unfold PowertrainModel.getWheelForce.
      rewrite Hvalid, Hpos, Hrpm. simpl. fold p.
      apply Rltb_false in Hlo. apply Rltb_false in Hhi. rewrite Hlo, Hhi. simpl.
      unfold PowertrainModel.getEngineTorque, PowertrainModel.getTotalGearRatio.
      rewrite Hvalid. simpl. fold p. lra.
Qed.

Lemma getWheelForce_spec_witness :
  PowertrainModel.getWheelForce example_powertrain_model 40 1
  = 250 * 3 * 3.5 * 0.95 / 0.3.
Proof.
  destruct (getWheelForce_spec example_powertrain_model 40 1) as [_ H].
  destruct H as (_ & _ & H); [simpl; lia | lra |].
  rewrite H.
  - unfold Params.getTorqueAt. simpl.
    destruct (Rle_dec _ 5000); [reflexivity|].
    destruct (Rle_dec 5000 _); [reflexivity|lra].
  - simpl. unfold PowertrainModel.PI. lra.
Defined.

(** ** QuasiSteadyStateSolver: construction *)

Lemma PowertrainModel_new_Ok params r m :
  PowertrainModel.new params r = Ok m ->
  0 < r /\ m = PowertrainModel.mk params r.
Proof.
  unfold PowertrainModel.new. destruct (Rle_dec r 0.0); [discriminate|].
  intros [= <-]. split; [lra|reflexivity].
Qed.

Lemma PowertrainModel_new_pos params r :
  0 < r -> PowertrainModel.new params r = Ok (PowertrainModel.mk params r).
Proof.
  intros Hr. unfold PowertrainModel.new. destruct (Rle_dec r 0.0); [lra|reflexivity].
Qed.

Lemma GGVGenerator_new_Ok vehicle g0 :
  GGVGenerator.new vehicle = Ok g0 ->
  GGVGenerator.vehicle_ g0 = vehicle
  /\ GGVGenerator.aero_model_ g0 = AerodynamicsModel.new (aero vehicle)
  /\ GGVGenerator.tire_model_ g0 = TireModel.new (tire vehicle)
  /\ GGVGenerator.powertrain_model_ g0 =
     PowertrainModel.mk (powertrain vehicle) (tire_radius (tire vehicle))
  /\ 0 < tire_radius (tire vehicle).
Proof.
  unfold GGVGenerator.new.
  destruct (PowertrainModel.new _ _) as [pm| |] eqn:Hpm; simpl; try discriminate.
  apply PowertrainModel_new_Ok in Hpm as [Hr ->].
  intros [= <-]. simpl. auto.
Qed.

(** What a solver that came out of its constructor looks like. *)
Lemma solver_new_Ok track vehicle q :
  QuasiSteadyStateSolver.new track vehicle = Ok q ->
  preprocessed_ track = true
  /\ Params.validate vehicle = true
  /\ QuasiSteadyStateSolver.track_ q = track
  /\ QuasiSteadyStateSolver.vehicle_ q = vehicle
  /\ QuasiSteadyStateSolver.n_points_ q = length (points_ track)
  /\ QuasiSteadyStateSolver.v_corner_ q = replicate (length (points_ track)) 0.0
  /\ QuasiSteadyStateSolver.v_accel_ q = replicate (length (points_ track)) 0.0
  /\ QuasiSteadyStateSolver.v_brake_ q = replicate (length (points_ track)) 0.0
  /\ QuasiSteadyStateSolver.v_optimal_ q = replicate (length (points_ track)) 0.0
  /\ QuasiSteadyStateSolver.iterations_used_ q = 0%Z
  /\ GGVGenerator.new vehicle = Ok (QuasiSteadyStateSolver.ggv_ q).
Proof.
  unfold QuasiSteadyStateSolver.new, Track.isPreprocessed, Track.getNumPoints.
  destruct (preprocessed_ track); simpl; [|discriminate].
  destruct (Params.validate vehicle); simpl; [|discriminate].
  destruct (GGVGenerator.new vehicle) as [g0| |]; simpl; try discriminate.
  destruct (PowertrainModel.new _ _) as [pm| |]; simpl; try discriminate.
  intros [= <-]. simpl. repeat split; reflexivity.
Qed.

(** ** Pass 1: the cornering limit *)

(** C1: for a solver built by its constructor (so the vehicle passed
    [validate]) and every curvature [kappa], [solveCorneringVelocity kappa] is
    110 when [|kappa| < 0.002]; otherwise 100 when the denominator
    [m*|kappa| - 0.5*mu_y*rho*(-Cl)*A] is [<= 0]; otherwise
    [sqrt (mu_y*m*g / denominator)]. *)
Theorem solveCorneringVelocity_spec track vehicle q (kappa : R) :
  QuasiSteadyStateSolver.new track vehicle = Ok q ->
  let m := mass (mass_params vehicle) in
  let mu := mu_y (tire vehicle) in
  let rho := air_density (aero vehicle) in
  let A := frontal_area (aero vehicle) in
  let denominator := m * Rabs kappa - 0.5 * mu * rho * (- Cl (aero vehicle)) * A in
  QuasiSteadyStateSolver.solveCorneringVelocity q kappa =
  if Rlt_dec (Rabs kappa) 0.002 then 110
  else if Rle_dec denominator 0 then 100
       else sqrt (mu * m * GRAVITY / denominator).
Proof.
  intros Hnew m mu rho A denominator.
  apply solver_new_Ok in Hnew as (_ & Hv & _ & Hveh & _).
  apply validate_true in Hv as (Hm & _ & _ & _ & _ & _ & _ & Hmu & _).
  unfold QuasiSteadyStateSolver.solveCorneringVelocity, Std.abs.
  rewrite Hveh. fold m mu rho A.
  destruct (Rlt_dec (Rabs kappa) 0.002) as [Hs|Hs]; [lra|].
  fold denominator.
  destruct (Rle_dec denominator 0.0) as [Hd|Hd];
    destruct (Rle_dec denominator 0) as [Hd'|Hd']; try lra.
  destruct (Rlt_dec (mu * m * GRAVITY / denominator) 0.0) as [Hneg|_]; [|reflexivity].
  exfalso.
  assert (Hm' : 0 < m) by exact Hm. assert (Hmu' : 0 < mu) by exact Hmu.
  assert (0 < mu * m * GRAVITY) by (unfold GRAVITY; apply Rmult_lt_0_compat; [nra|lra]).
  assert (0 < mu * m * GRAVITY / denominator) by (apply Rdiv_lt_0_compat; lra).
  lra.
Qed.

Lemma solver_new_solver_of track vehicle :
  preprocessed_ track = true -> Params.validate vehicle = true ->
  QuasiSteadyStateSolver.new track vehicle = Ok (solver_of track vehicle).
Proof.
  intros Hp Hv. unfold QuasiSteadyStateSolver.new, Track.isPreprocessed.
  rewrite Hp, Hv. simpl.
  apply validate_true in Hv. destruct Hv as (_ & _ & _ & _ & _ & _ & _ & _ & Hr & _).
  unfold GGVGenerator.new. rewrite (PowertrainModel_new_pos _ _ Hr). simpl.
  reflexivity.
Qed.

(** Decides the comparisons between numerals that guard a definition. *)
Ltac rdecide :=
  repeat match goal with
         | |- context [Rle_dec ?a ?b] => destruct (Rle_dec a b); try lra
         | |- context [Rlt_dec ?a ?b] => destruct (Rlt_dec a b); try lra
         end.

Lemma example_vehicle_valid : Params.validate example_vehicle = true.
Proof.
  unfold Params.validate, Rleb, Rltb. simpl. rdecide. simpl.
  repeat (destruct (decide _) as [Heq|_]; [discriminate Heq|]). reflexivity.
Qed.

Lemma example_track_preprocess : Track.preprocess example_raw_track = Ok example_track.
Proof. reflexivity. Qed.

Lemma solveCorneringVelocity_spec_witness :
  QuasiSteadyStateSolver.solveCorneringVelocity (solver_of example_track example_vehicle) 0.001
  = 110.
Proof.
  rewrite (solveCorneringVelocity_spec example_track example_vehicle _ 0.001
             (solver_new_solver_of example_track example_vehicle eq_refl
                example_vehicle_valid)).
  destruct (Rlt_dec (Rabs 0.001) 0.002) as [_|H]; [reflexivity|].
  exfalso. apply H. rewrite Rabs_pos_eq; lra.
Defined.

(** ** Combining the three profiles *)

Lemma solver_of_well_sized track vehicle : well_sized (solver_of track vehicle).
Proof. unfold well_sized, solver_of. simpl. rewrite length_replicate. auto. Qed.




(** ** Engine torque and wheel force *)

Lemma div_nonneg (a b : R) : 0 <= a -> 0 < b -> 0 <= a / b.
Proof. intros Ha Hb. apply Rle_mult_inv_pos; assumption. Qed.

Lemma div_le_1 (a b : R) : a <= b -> 0 < b -> a / b <= 1.
Proof.
  intros Hab Hb. unfold Rdiv.
  assert (0 < / b) by (apply Rinv_0_lt_compat; exact Hb).
  assert (b * / b = 1) by (apply Rinv_r; lra).
  nra.
Qed.

Lemma upper_bound_spec (curve : list (R * R)) (rpm : R) :
  (Params.upper_bound curve rpm <= length curve)%nat
  /\ (forall i, (i < Params.upper_bound curve rpm)%nat -> fst (curve !!! i) <= rpm)
  /\ ((Params.upper_bound curve rpm < length curve)%nat ->
      rpm < fst (curve !!! Params.upper_bound curve rpm)).
Proof.
  induction curve as [|e rest (IHle & IHbefore & IHat)]; simpl.
  - split; [lia|]. split; intros; lia.
  - destruct (Rlt_dec rpm (fst e)) as [Hlt|Hge].
    + split; [lia|]. split; [intros; lia|]. intros _. exact Hlt.
    + split; [lia|]. split.
      * intros [|i] Hi; simpl; [lra|]. apply IHbefore. lia.
      * intros Hi. simpl. apply IHat. lia.
Qed.

(** The interpolated torque is a convex combination of two table entries. *)
Lemma getTorqueAt_nonneg (p : PowertrainParams) (rpm : R) :
  Forall (fun e => 0 <= snd e) (engine_torque_curve p) ->
  0 <= Params.getTorqueAt p rpm.
Proof.
  intros Hpos. unfold Params.getTorqueAt.
  assert (Hat : forall i, (i < length (engine_torque_curve p))%nat ->
                          0 <= snd (engine_torque_curve p !!! i)).
  { intros i Hi. exact (proj1 (Forall_lookup_total _ _) Hpos i Hi). }
  destruct (engine_torque_curve p) as [|first rest] eqn:Hcurve; [lra|].
  set (curve := first :: rest) in *.
  set (rpm' := Std.max 0.0 rpm).
  destruct (Rle_dec rpm' (fst first)) as [_|Hfirst].
  { apply (Hat 0%nat). simpl. lia. }
  destruct (Rle_dec (fst (curve !!! (length curve - 1)%nat)) rpm') as [_|Hlast].
  { apply Hat. simpl. lia. }
  destruct (upper_bound_spec curve rpm') as (Hle & Hbefore & Hafter).
  set (u := Params.upper_bound curve rpm') in *.
  assert (Hu0 : (0 < u)%nat).
  { destruct u eqn:Hu; [|lia]. exfalso.
    assert (rpm' < fst (curve !!! 0%nat)) by (apply Hafter; simpl; lia).
    simpl in *. lra. }
  assert (Hun : (u < length curve)%nat).
  { destruct (decide (u < length curve)%nat) as [|Hge]; [assumption|]. exfalso.
    apply Hlast. apply Hbefore. simpl in *. lia. }
  assert (H1 := Hbefore (u - 1)%nat ltac:(lia)).
  assert (H2 := Hafter Hun).
  assert (Ht1 := Hat (u - 1)%nat ltac:(lia)).
  assert (Ht2 := Hat u Hun).
  set (rpm1 := fst (curve !!! (u - 1)%nat)) in *.
  set (rpm2 := fst (curve !!! u)) in *.
  set (torque1 := snd (curve !!! (u - 1)%nat)) in *.
  set (torque2 := snd (curve !!! u)) in *.
  assert (Htt : 0 <= (rpm' - rpm1) / (rpm2 - rpm1) <= 1).
  { split.
    - apply div_nonneg; lra.
    - apply div_le_1; lra. }
  set (tt := (rpm' - rpm1) / (rpm2 - rpm1)) in *.
  replace (torque1 + tt * (torque2 - torque1)) with ((1 - tt) * torque1 + tt * torque2) by ring.
  assert (0 <= (1 - tt) * torque1) by (apply Rmult_le_pos; lra).
  assert (0 <= tt * torque2) by (apply Rmult_le_pos; lra).
  lra.
Qed.

Lemma getWheelForce_nonneg (m : PowertrainModel.t) (v : R) (gear : Z) :
  forward_drive m -> 0 <= PowertrainModel.getWheelForce m v gear.
Proof.
  intros (Htorque & Hratio & Hfd & Heff & Hr).
  unfold PowertrainModel.getWheelForce.
  destruct (negb (PowertrainModel.isValidGear m gear) || (v <=? 0.0)) eqn:Hguard; [lra|].
  destruct ((_ <? _) || (_ <? _)); [lra|].
  apply orb_false_iff in Hguard as [Hvalid _].
  apply negb_false_iff in Hvalid.
  unfold PowertrainModel.getTotalGearRatio, PowertrainModel.getEngineTorque.
  rewrite Hvalid. simpl.
  apply isValidGear_true in Hvalid.
  assert (0 <= gear_ratios (PowertrainModel.params_ m) !!! Z.to_nat (gear - 1)).
  { apply (proj1 (Forall_lookup_total _ _) Hratio). lia. }
  pose proof (getTorqueAt_nonneg (PowertrainModel.params_ m)
                (PowertrainModel.getRPM m v gear) Htorque).
  apply div_nonneg; [|lra].
  repeat apply Rmult_le_pos; assumption.
Qed.

Lemma getMaxWheelForce_forward (m : PowertrainModel.t) (v : R) :
  0 < v ->
  0 <= PowertrainModel.getMaxWheelForce m v
  /\ (forall gear, PowertrainModel.isValidGear m gear = true ->
        PowertrainModel.getWheelForce m v gear <= PowertrainModel.getMaxWheelForce m v)
  /\ (PowertrainModel.getMaxWheelForce m v = 0
      \/ exists gear, PowertrainModel.isValidGear m gear = true
                      /\ PowertrainModel.getMaxWheelForce m v
                         = PowertrainModel.getWheelForce m v gear).
Proof.
  intros Hv. unfold PowertrainModel.getMaxWheelForce.
  destruct (Rle_dec v 0.0) as [Hle|_]; [lra|].
  set (n := length (gear_ratios (PowertrainModel.params_ m))).
  set (body := fun (i : nat) (max_force : R) =>
                 Std.max max_force (PowertrainModel.getWheelForce m v (Z.of_nat (i + 1)))).
  assert (H : 0 <= for_range 0 n body 0.0
              /\ (forall gear, (1 <= gear <= Z.of_nat n)%Z ->
                    PowertrainModel.getWheelForce m v gear <= for_range 0 n body 0.0)
              /\ (for_range 0 n body 0.0 = 0
                  \/ exists gear, (1 <= gear <= Z.of_nat n)%Z
                                  /\ for_range 0 n body 0.0
                                     = PowertrainModel.getWheelForce m v gear)).
  { apply (for_range_inv
             (fun k max_force =>
                0 <= max_force
                /\ (forall gear, (1 <= gear <= Z.of_nat k)%Z ->
                                 PowertrainModel.getWheelForce m v gear <= max_force)
                /\ (max_force = 0
                    \/ exists gear, (1 <= gear <= Z.of_nat k)%Z
                                    /\ max_force = PowertrainModel.getWheelForce m v gear))).
    - lia.
    - split; [lra|]. split; [intros gear Hg; lia|]. left. lra.
    - intros k max_force Hk (H0 & Hmax & Hatt). unfold body.
      pose proof (std_max_ge_l max_force
                    (PowertrainModel.getWheelForce m v (Z.of_nat (k + 1)))) as Hl.
      pose proof (std_max_ge_r max_force
                    (PowertrainModel.getWheelForce m v (Z.of_nat (k + 1)))) as Hr.
      split; [lra|]. split.
      + intros gear Hg. destruct (decide (gear = Z.of_nat (k + 1))) as [->|Hne].
        * exact Hr.
        * pose proof (Hmax gear ltac:(lia)). lra.
      + unfold Std.max.
        destruct (Rlt_dec max_force
                    (PowertrainModel.getWheelForce m v (Z.of_nat (k + 1)))) as [Hlt|Hge].
        * right. exists (Z.of_nat (k + 1)). split; [lia|reflexivity].
        * destruct Hatt as [Hz|(gear & Hg & Heq)]; [left; exact Hz|].
          right. exists gear. split; [lia|exact Heq]. }
  destruct H as (H0 & Hmax & Hatt). split; [exact H0|]. split.
  - intros gear Hg. apply Hmax. apply isValidGear_true in Hg. exact Hg.
  - destruct Hatt as [Hz|(gear & Hg & Heq)]; [left; exact Hz|].
    right. exists gear. split; [apply isValidGear_true; exact Hg|exact Heq].
Qed.

Lemma negative_torque_vehicle_valid : Params.validate negative_torque_vehicle = true.
Proof.
  unfold Params.validate, Rleb, Rltb. simpl. rdecide. simpl.
  repeat (destruct (decide _) as [Heq|_]; [discriminate Heq|]). reflexivity.
Qed.

Lemma negative_torque_force :
  PowertrainModel.getMaxWheelForce negative_torque_model 0 = - 50 * (3 * 3.5) * 0.95 / 0.3.
Proof.
  unfold PowertrainModel.getMaxWheelForce.
  destruct (Rle_dec 0 0.0) as [_|H]; [|lra].
  unfold PowertrainModel.getWheelForce, PowertrainModel.getRPM,
    PowertrainModel.getTotalGearRatio, PowertrainModel.getEngineTorque,
    Params.getTorqueAt, PowertrainModel.PI, Rleb, Rltb, Std.max.
  simpl. rdecide; simpl; rdecide; simpl; lra.
Qed.

(** C10, as first stated, fails: at [v = 0] a validated vehicle with a
    negative torque entry gets a negative maximum wheel force. *)
Lemma getMaxWheelForce_negative :
  Params.validate negative_torque_vehicle = true
  /\ PowertrainModel.new (powertrain negative_torque_vehicle)
                         (tire_radius (tire negative_torque_vehicle))
     = Ok negative_torque_model
  /\ ~ (0 <= PowertrainModel.getMaxWheelForce negative_torque_model 0).
Proof.
  split; [exact negative_torque_vehicle_valid|]. split.
  - apply PowertrainModel_new_pos. simpl. lra.
  - rewrite negative_torque_force. lra.
Qed.

(** C10 (amended): for [v > 0], [getMaxWheelForce v] is the maximum of 0 and
    the wheel forces of the gears, hence at least 0; for [v <= 0] it is
    [getWheelForce 0.01 1], which is non-negative whenever the torque table,
    the gear ratios, the final drive and the efficiency are non-negative and
    the tire radius is positive. *)
Theorem getMaxWheelForce_spec (m : PowertrainModel.t) (v : R) :
  (0 < v ->
   0 <= PowertrainModel.getMaxWheelForce m v
   /\ (forall gear, PowertrainModel.isValidGear m gear = true ->
         PowertrainModel.getWheelForce m v gear <= PowertrainModel.getMaxWheelForce m v)
   /\ (PowertrainModel.getMaxWheelForce m v = 0
       \/ exists gear, PowertrainModel.isValidGear m gear = true
                       /\ PowertrainModel.getMaxWheelForce m v
                          = PowertrainModel.getWheelForce m v gear))
  /\ (v <= 0 ->
      PowertrainModel.getMaxWheelForce m v = PowertrainModel.getWheelForce m 0.01 1)
  /\ (v <= 0 -> forward_drive m -> 0 <= PowertrainModel.getMaxWheelForce m v).
Proof.
  split; [apply getMaxWheelForce_forward|].
  assert (Hz : v <= 0 ->
               PowertrainModel.getMaxWheelForce m v = PowertrainModel.getWheelForce m 0.01 1).
  { intros Hv. unfold PowertrainModel.getMaxWheelForce.
    destruct (Rle_dec v 0.0); [reflexivity|lra]. }
  split; [exact Hz|].
  intros Hv Hf. rewrite (Hz Hv). apply getWheelForce_nonneg. exact Hf.
Qed.

Lemma example_forward_drive : forward_drive example_powertrain_model.
Proof.
  unfold forward_drive. simpl.
  repeat split; try lra; repeat constructor; simpl; lra.
Qed.

Lemma getMaxWheelForce_spec_witness :
  0 <= PowertrainModel.getMaxWheelForce example_powertrain_model 40
  /\ PowertrainModel.getMaxWheelForce example_powertrain_model (-1)
     = PowertrainModel.getWheelForce example_powertrain_model 0.01 1
  /\ 0 <= PowertrainModel.getMaxWheelForce example_powertrain_model (-1).
Proof.
  destruct (getMaxWheelForce_spec example_powertrain_model 40) as (Hpos & _ & _).
  destruct (getMaxWheelForce_spec example_powertrain_model (-1)) as (_ & Heq & Hnn).
  split; [apply (proj1 (Hpos ltac:(lra)))|]. split; [apply Heq; lra|].
  apply Hnn; [lra|exact example_forward_drive].
Defined.

(** ** TireModel: the friction circle *)

Lemma Rpower_base_1 (y : R) : Rpower 1 y = 1.
Proof. unfold Rpower. rewrite ln_1, Rmult_0_r. apply exp_0. Qed.

Lemma getAvailableLongitudinalForce_nonneg (m : TireModel.t) (Fz Fy : R) :
  0 <= TireModel.getAvailableLongitudinalForce m Fz Fy.
Proof.
  unfold TireModel.getAvailableLongitudinalForce.
  destruct (Rle_dec _ _); [lra|apply sqrt_pos].
Qed.

(** With a positive load the total capacity is the averaged coefficient,
    scaled by the load-sensitivity power law, times the load. *)
Lemma getMaxTotalForce_pos_load (m : TireModel.t) (Fz : R) :
  0 < Fz ->
  TireModel.getMaxTotalForce m Fz =
  (mu_x (TireModel.params_ m) + mu_y (TireModel.params_ m)) / 2
  * Rpower (Fz / 2000) (load_sensitivity (TireModel.params_ m) - 1) * Fz.
Proof.
  intros HFz. unfold TireModel.getMaxTotalForce, TireModel.getEffectiveMu,
    TireModel.applyLoadSensitivity, Std.pow.
  destruct (Rle_dec Fz 0.0); [lra|].
  replace 2.0 with 2 by lra. replace 2000.0 with 2000 by lra.
  replace 1.0 with 1 by lra. reflexivity.
Qed.

Lemma default_tire_capacity :
  TireModel.getMaxTotalForce (TireModel.new Params.TireParams_default) 2000 = 3400.
Proof.
  rewrite getMaxTotalForce_pos_load by lra. simpl.
  replace (2000 / 2000) with 1 by lra. rewrite Rpower_base_1. lra.
Qed.

Lemma default_tire_overload :
  TireModel.getAvailableLongitudinalForce (TireModel.new Params.TireParams_default) 2000 8000
  = 0.
Proof.
  unfold TireModel.getAvailableLongitudinalForce. rewrite default_tire_capacity.
  destruct (Rle_dec (3400 * 3400) (8000 * 8000)); lra.
Qed.

(** C5, as first stated, fails: with the default tire at the reference load
    the capacity is 3400 N; a lateral force of 8000 N leaves no longitudinal
    force, and the combined force is 8000 N, far outside the circle. *)
Lemma friction_circle_exceeded :
  let m := TireModel.new Params.TireParams_default in
  let Fz := 2000 in
  let Fy := 8000 in
  let Fx := TireModel.getAvailableLongitudinalForce m Fz Fy in
  0 < Fz
  /\ sqrt (Fx * Fx + Fy * Fy) = 8000
  /\ TireModel.getMaxTotalForce m Fz = 3400
  /\ ~ (sqrt (Fx * Fx + Fy * Fy) <= TireModel.getMaxTotalForce m Fz + 1).
Proof.
  cbv zeta. rewrite default_tire_overload, default_tire_capacity.
  assert (Hs : sqrt (0 * 0 + 8000 * 8000) = 8000).
  { replace (0 * 0 + 8000 * 8000) with (8000 * 8000) by lra. apply sqrt_square. lra. }
  rewrite Hs. repeat split; lra.
Qed.

(** C5 (amended): for [Fz > 0] and a lateral force inside the circle,
    [|Fy| <= getMaxTotalForce Fz], the force
    [Fx = getAvailableLongitudinalForce Fz Fy] satisfies
    [sqrt (Fx^2 + Fy^2) <= getMaxTotalForce Fz + epsilon] for every
    [epsilon >= 0]; [getMaxTotalForce] uses the averaged coefficient
    [(mu_x + mu_y) / 2] with load sensitivity. *)
Theorem friction_circle_spec (m : TireModel.t) (Fz Fy epsilon : R) :
  0 < Fz -> 0 <= epsilon ->
  Rabs Fy <= TireModel.getMaxTotalForce m Fz ->
  let Fx := TireModel.getAvailableLongitudinalForce m Fz Fy in
  sqrt (Fx * Fx + Fy * Fy) <= TireModel.getMaxTotalForce m Fz + epsilon
  /\ TireModel.getMaxTotalForce m Fz =
     (mu_x (TireModel.params_ m) + mu_y (TireModel.params_ m)) / 2
     * Rpower (Fz / 2000) (load_sensitivity (TireModel.params_ m) - 1) * Fz.
Proof.
  intros HFz Heps Hin Fx. split; [|apply getMaxTotalForce_pos_load; exact HFz].
  subst Fx. unfold TireModel.getAvailableLongitudinalForce.
  set (F_max := TireModel.getMaxTotalForce m Fz) in *.
  assert (HF : 0 <= F_max) by (pose proof (Rabs_pos Fy); lra).
  destruct (Rle_dec (F_max * F_max) (Fy * Fy)) as [Hout|Hinside].
  - replace (0.0 * 0.0 + Fy * Fy) with (Rsqr Fy) by (unfold Rsqr; lra).
    rewrite sqrt_Rsqr_abs. lra.
  - assert (Hd : 0 <= F_max * F_max - Fy * Fy) by lra.
    rewrite (sqrt_sqrt _ Hd).
    replace (F_max * F_max - Fy * Fy + Fy * Fy) with (F_max * F_max) by lra.
    rewrite (sqrt_square _ HF). lra.
Qed.

Lemma friction_circle_spec_witness :
  let m := TireModel.new Params.TireParams_default in
  let Fx := TireModel.getAvailableLongitudinalForce m 2000 3000 in
  sqrt (Fx * Fx + 3000 * 3000) <= TireModel.getMaxTotalForce m 2000 + 0.001.
Proof.
  refine (proj1 (friction_circle_spec (TireModel.new Params.TireParams_default)
                   2000 3000 0.001 _ _ _)); [lra|lra|].
  rewrite default_tire_capacity. rewrite Rabs_pos_eq; lra.
Defined.

(** ** GGVGenerator: the stored envelope *)

Lemma calculateMaxAcceleration_bounds (g0 : GGVGenerator.t) (v ay : R) :
  0 <= GGVGenerator.calculateMaxAcceleration g0 v ay <= 50.
Proof.
  unfold GGVGenerator.calculateMaxAcceleration. cbv zeta. split.
  - match goal with |- _ <= Std.max ?a ?b => pose proof (std_max_ge_l a b) end. lra.
  - apply std_max_lub; [lra|].
    match goal with |- Std.min ?a ?b <= _ => pose proof (std_min_le_r a b) end. lra.
Qed.

Lemma calculateMaxBraking_lower (g0 : GGVGenerator.t) (v ay : R) :
  -60 <= GGVGenerator.calculateMaxBraking g0 v ay.
Proof.
  unfold GGVGenerator.calculateMaxBraking. cbv zeta.
  match goal with |- _ <= Std.max ?a ?b => pose proof (std_max_ge_r a b) end. lra.
Qed.

Lemma getDragForce_nonneg (a : AerodynamicsModel.t) (v : R) :
  0 < air_density (AerodynamicsModel.params_ a) ->
  0 < frontal_area (AerodynamicsModel.params_ a) ->
  0 <= Cd (AerodynamicsModel.params_ a) ->
  0 <= AerodynamicsModel.getDragForce a v.
Proof.
  intros Hrho HA HCd.
  unfold AerodynamicsModel.getDragForce, AerodynamicsModel.getAeroCoefficient.
  cbv zeta.
  pose proof (Rle_0_sqr v) as Hv. unfold Rsqr in Hv.
  apply Rmult_le_pos; [|exact Hv].
  apply Rmult_le_pos; [|exact HCd].
  apply Rmult_le_pos; [|lra].
  apply Rmult_le_pos; lra.
Qed.

Lemma calculateMaxBraking_upper (g0 : GGVGenerator.t) (v ay : R) :
  0 < mass (mass_params (GGVGenerator.vehicle_ g0)) ->
  0 <= max_brake_force (brake (GGVGenerator.vehicle_ g0)) ->
  0 < air_density (AerodynamicsModel.params_ (GGVGenerator.aero_model_ g0)) ->
  0 < frontal_area (AerodynamicsModel.params_ (GGVGenerator.aero_model_ g0)) ->
  0 <= Cd (AerodynamicsModel.params_ (GGVGenerator.aero_model_ g0)) ->
  GGVGenerator.calculateMaxBraking g0 v ay <= 0.
Proof.
  intros Hm Hb Hrho HA HCd.
  unfold GGVGenerator.calculateMaxBraking. cbv zeta.
  apply std_max_lub; [|lra].
  set (v' := if Rlt_dec v 0.1 then 0.1 else v).
  pose proof (getDragForce_nonneg (GGVGenerator.aero_model_ g0) v' Hrho HA HCd) as Hdrag.
  set (F_drag := AerodynamicsModel.getDragForce (GGVGenerator.aero_model_ g0) v') in *.
  match goal with |- - (Std.min ?a ?b + _) / _ <= _ =>
    assert (Hbrake : 0 <= Std.min a b)
      by (apply std_min_glb; [apply getAvailableLongitudinalForce_nonneg|exact Hb]);
    set (Fx_brake := Std.min a b) in *
  end.
  assert (0 <= (Fx_brake + F_drag) / mass (mass_params (GGVGenerator.vehicle_ g0)))
    by (apply div_nonneg; lra).
  unfold Rdiv in *. rewrite Ropp_mult_distr_l_reverse. lra.
Qed.

(** Every stored point is [make_point] at some grid node. *)
Lemma generate_ay_points (P : GGVPoint -> Prop) (g0 : GGVGenerator.t) :
  (forall v ay, P (GGVGenerator.make_point g0 v ay)) ->
  forall fuel v ay ay_max ay_step pts pts',
    Forall P pts ->
    GGVGenerator.generate_ay fuel g0 v ay ay_max ay_step pts = Ok pts' ->
    Forall P pts'.
Proof.
  intros HP. induction fuel as [|fuel IH]; intros v ay ay_max ay_step pts pts' Hpts; simpl.
  - destruct (Rle_dec ay ay_max); [discriminate|]. intros [= <-]. exact Hpts.
  - destruct (Rle_dec ay ay_max).
    + apply IH. apply Forall_app. split; [exact Hpts|]. repeat constructor. apply HP.
    + intros [= <-]. exact Hpts.
Qed.

Lemma generate_v_points (P : GGVPoint -> Prop) (g0 : GGVGenerator.t) :
  (forall v ay, P (GGVGenerator.make_point g0 v ay)) ->
  forall fuel fuel_ay v v_max v_step ay_max ay_step pts pts',
    Forall P pts ->
    GGVGenerator.generate_v fuel fuel_ay g0 v v_max v_step ay_max ay_step pts = Ok pts' ->
    Forall P pts'.
Proof.
  intros HP. induction fuel as [|fuel IH];
    intros fuel_ay v v_max v_step ay_max ay_step pts pts' Hpts; simpl.
  - destruct (Rle_dec v v_max); [discriminate|]. intros [= <-]. exact Hpts.
  - destruct (Rle_dec v v_max).
    + destruct (GGVGenerator.generate_ay fuel_ay g0 v 0.0 ay_max ay_step pts)
        as [pts1| |] eqn:Hay; simpl; try discriminate.
      apply IH. eapply generate_ay_points; eauto.
    + intros [= <-]. exact Hpts.
Qed.

Lemma generate_Ok (fuel : nat) (g0 g1 : GGVGenerator.t) (v_min v_max v_step ay_max ay_step : R) :
  GGVGenerator.generate fuel g0 v_min v_max v_step ay_max ay_step = Ok g1 ->
  GGVGenerator.generated_ g1 = true
  /\ GGVGenerator.v_min_ g1 = v_min /\ GGVGenerator.v_max_ g1 = v_max
  /\ GGVGenerator.v_step_ g1 = v_step
  /\ GGVGenerator.ay_max_ g1 = ay_max /\ GGVGenerator.ay_step_ g1 = ay_step
  /\ forall P : GGVPoint -> Prop,
       (forall v ay, P (GGVGenerator.make_point g0 v ay)) ->
       Forall P (GGVGenerator.ggv_points_ g1).
Proof.
  unfold GGVGenerator.generate.
  destruct (GGVGenerator.generate_v _ _ _ _ _ _ _ _ _) as [pts| |] eqn:Hv; simpl;
    try discriminate.
  intros [= <-]. simpl. repeat split; try reflexivity.
  intros P HP. eapply generate_v_points; eauto.
Qed.

Lemma GGVGenerator_new_ggv_of (vehicle : VehicleParams) :
  0 < tire_radius (tire vehicle) -> GGVGenerator.new vehicle = Ok (ggv_of vehicle).
Proof.
  intros Hr. unfold GGVGenerator.new. rewrite (PowertrainModel_new_pos _ _ Hr). reflexivity.
Qed.

Lemma negative_drag_vehicle_valid : Params.validate negative_drag_vehicle = true.
Proof.
  unfold Params.validate, Rleb, Rltb. simpl. rdecide. simpl.
  repeat (destruct (decide _) as [Heq|_]; [discriminate Heq|]). reflexivity.
Qed.

Lemma negative_drag_braking :
  1000 <= GGVGenerator.calculateMaxBraking (ggv_of negative_drag_vehicle) 100 0.
Proof.
  unfold GGVGenerator.calculateMaxBraking. cbv zeta.
  destruct (Rlt_dec 100 0.1) as [H|_]; [lra|].
  match goal with |- _ <= Std.max ?a ?b => pose proof (std_max_ge_l a b) as Hmax end.
  match type of Hmax with
  | - (Std.min ?a ?b + ?d) / ?m <= _ =>
      pose proof (std_min_le_r a b) as Hmin;
      set (Fx_brake := Std.min a b) in *;
      assert (Hd : d = - 918750)
        by (unfold AerodynamicsModel.getDragForce, AerodynamicsModel.getAeroCoefficient;
            simpl; lra);
      rewrite Hd in Hmax |- *
  end.
  simpl in Hmin, Hmax |- *. lra.
Qed.

(** C4: the code at the failing input. [validate] never reads [Cd], so a
    vehicle with a drag coefficient of -100 passes it and its generator is
    built; at 100 m/s and no lateral acceleration the "drag" pushes forward
    harder than the brakes hold back, and [calculateMaxBraking], which only
    applies [max(ax, -60)], returns a positive value. GGVGenerator.h
    documents this value as negative, and [calculateMaxAcceleration] does
    clamp its own sign. *)
Lemma ggv_braking_positive :
  Params.validate negative_drag_vehicle = true
  /\ GGVGenerator.new negative_drag_vehicle = Ok (ggv_of negative_drag_vehicle)
  /\ ~ (-60 <= GGVGenerator.calculateMaxBraking (ggv_of negative_drag_vehicle) 100 0 <= 0).
Proof.
  split; [exact negative_drag_vehicle_valid|]. split.
  - apply GGVGenerator_new_ggv_of. simpl. lra.
  - pose proof negative_drag_braking. lra.
Qed.

(** Where the bounds do hold: for a generator built from a vehicle that
    passes [validate] and has a non-negative drag coefficient,
    [calculateMaxAcceleration] always lies in [0, 50] and
    [calculateMaxBraking] in [-60, 0], whatever [v] and [ay]; so does every
    point stored by [generate]. *)
Theorem ggv_envelope_bounds (vehicle : VehicleParams) (g0 : GGVGenerator.t) :
  Params.validate vehicle = true ->
  0 <= Cd (aero vehicle) ->
  GGVGenerator.new vehicle = Ok g0 ->
  (forall v ay,
      0 <= GGVGenerator.calculateMaxAcceleration g0 v ay <= 50
      /\ -60 <= GGVGenerator.calculateMaxBraking g0 v ay <= 0)
  /\ (forall fuel v_min v_max v_step ay_max ay_step g1,
         GGVGenerator.generate fuel g0 v_min v_max v_step ay_max ay_step = Ok g1 ->
         Forall (fun p => 0 <= ax_max_accel p <= 50 /\ -60 <= ax_max_brake p <= 0)
                (GGVGenerator.ggv_points_ g1)).
Proof.
  intros Hvalid HCd Hnew.
  apply validate_true in Hvalid
    as (Hm & _ & _ & _ & HA & Hrho & _ & _ & _ & _ & _ & _ & _ & _ & Hb & _).
  apply GGVGenerator_new_Ok in Hnew as (Hveh & Haero & _ & _ & _).
  assert (Hpoint : forall v ay,
             0 <= GGVGenerator.calculateMaxAcceleration g0 v ay <= 50
             /\ -60 <= GGVGenerator.calculateMaxBraking g0 v ay <= 0).
  { intros v ay. split; [apply calculateMaxAcceleration_bounds|].
    split; [apply calculateMaxBraking_lower|].
    apply calculateMaxBraking_upper; rewrite ?Hveh, ?Haero; simpl; lra. }
  split; [exact Hpoint|].
  intros fuel v_min v_max v_step ay_max ay_step g1 Hgen.
  apply generate_Ok in Hgen as (_ & _ & _ & _ & _ & _ & Hall).
  apply Hall. intros v ay. simpl. apply Hpoint.
Qed.

Lemma ggv_envelope_bounds_witness :
  exists g1,
    GGVGenerator.generate 2 (ggv_of example_vehicle) 10 10 1 0 1 = Ok g1
    /\ length (GGVGenerator.ggv_points_ g1) = 1%nat
    /\ Forall (fun p => 0 <= ax_max_accel p <= 50 /\ -60 <= ax_max_brake p <= 0)
              (GGVGenerator.ggv_points_ g1).
Proof.
  assert (Hnew : GGVGenerator.new example_vehicle = Ok (ggv_of example_vehicle))
    by (apply GGVGenerator_new_ggv_of; simpl; lra).
  assert (HCd : 0 <= Cd (aero example_vehicle)) by (simpl; lra).
  destruct (ggv_envelope_bounds example_vehicle (ggv_of example_vehicle)
              example_vehicle_valid HCd Hnew) as [_ Hgen].
  assert (Hrun : exists g1, GGVGenerator.generate 2 (ggv_of example_vehicle) 10 10 1 0 1 = Ok g1
                            /\ length (GGVGenerator.ggv_points_ g1) = 1%nat).
  { unfold GGVGenerator.generate. simpl.
    destruct (Rle_dec 10 10) as [_|H]; [|lra]. simpl.
    destruct (Rle_dec 0.0 0) as [_|H]; [|lra].
    destruct (Rle_dec (0.0 + 1) 0) as [H|_]; [lra|]. simpl.
    destruct (Rle_dec (10 + 1) 10) as [H|_]; [lra|]. simpl.
    eexists. split; reflexivity. }
  destruct Hrun as (g1 & Hg1 & Hlen).
  exists g1. split; [exact Hg1|]. split; [exact Hlen|].
  exact (Hgen _ _ _ _ _ _ _ Hg1).
Defined.

(** ** TrackData: arc length *)

Lemma same_raw_refl p : same_raw p p.
Proof. repeat split. Qed.

Lemma same_raw_trans p q r : same_raw p q -> same_raw q r -> same_raw p r.
Proof. unfold same_raw. intuition congruence. Qed.

Lemma same_arc_refl p : same_arc p p.
Proof. repeat split. Qed.

Lemma same_arc_trans p q r : same_arc p q -> same_arc q r -> same_arc p r.
Proof. unfold same_arc, same_raw. intuition congruence. Qed.

Lemma dist3_same_raw p p' q q' :
  same_raw p p' -> same_raw q q' -> Track.dist3 p q = Track.dist3 p' q'.
Proof.
  intros (Hx & Hy & Hz & _) (Hx' & Hy' & Hz' & _).
  unfold Track.dist3. rewrite Hx, Hy, Hz, Hx', Hy', Hz'. reflexivity.
Qed.

Lemma dist3_nonneg p q : 0 <= Track.dist3 p q.
Proof. unfold Track.dist3. apply sqrt_pos. Qed.

Lemma calculateArcLength_step_lookup (k : nat) (pts : list TrackPoint) (j : nat) :
  (1 <= k < length pts)%nat ->
  let segment_length := Track.dist3 (pts !!! k) (pts !!! (k - 1)%nat) in
  Track.calculateArcLength_step k pts !!! j =
  if decide (j = k) then set_s (s (pts !!! (k - 1)%nat) + segment_length) (pts !!! k)
  else if decide (j = k - 1)%nat then set_ds segment_length (pts !!! (k - 1)%nat)
       else pts !!! j.
Proof.
  intros Hk segment_length. unfold Track.calculateArcLength_step. cbv zeta.
  fold segment_length.
  rewrite !list_lookup_total_alter, !length_alter.
  repeat case_decide; subst; try lia; try reflexivity.
Qed.

Lemma arc_inv_step (pts0 : list TrackPoint) (k : nat) (pts : list TrackPoint) :
  (1 <= k < length pts0)%nat ->
  arc_inv pts0 k pts -> arc_inv pts0 (S k) (Track.calculateArcLength_step k pts).
Proof.
  intros Hk (Hlen & Hraw & Hs0 & Hseg).
  assert (Hk' : (1 <= k < length pts)%nat) by lia.
  assert (Hd : Track.dist3 (pts !!! k) (pts !!! (k - 1)%nat)
               = Track.dist3 (pts0 !!! k) (pts0 !!! (k - 1)%nat))
    by (apply dist3_same_raw; apply Hraw).
  split; [|split; [|split]].
  - unfold Track.calculateArcLength_step. cbv zeta. rewrite !length_alter. exact Hlen.
  - intros i. rewrite (calculateArcLength_step_lookup k pts i Hk'). cbv zeta.
    repeat case_decide; subst; try apply Hraw;
      (eapply same_raw_trans; [|apply Hraw]); repeat split.
  - rewrite (calculateArcLength_step_lookup k pts 0 Hk'). cbv zeta.
    repeat case_decide; try lia; simpl;
      try match goal with H : 0%nat = _ |- _ => rewrite <- H end; exact Hs0.
  - intros i Hi.
    rewrite (calculateArcLength_step_lookup k pts i Hk'),
            (calculateArcLength_step_lookup k pts (i + 1) Hk'). cbv zeta.
    destruct (decide (i + 1 = k)%nat) as [Hik|Hik].
    + assert (i = k - 1)%nat as -> by lia.
      replace (k - 1 + 1)%nat with k in * by lia.
      destruct (decide (k - 1 = k)%nat); [lia|].
      destruct (decide (k - 1 = k - 1)%nat); [|lia].
      simpl. split; [exact Hd|reflexivity].
    + destruct (Hseg i ltac:(lia)) as [Hds Hsi].
      destruct (decide (i = k)); [lia|].
      destruct (decide (i = k - 1)%nat); [lia|].
      destruct (decide (i + 1 = k - 1)%nat) as [Hl|_]; simpl; split;
        try assumption.
      rewrite <- Hl. exact Hsi.
Qed.

Lemma calculateArcLength_ok (t : TrackData) :
  (1 <= length (points_ t))%nat ->
  arc_length_ok (points_ t) (points_ (Track.calculateArcLength t))
                (total_length_ (Track.calculateArcLength t))
  /\ preprocessed_ (Track.calculateArcLength t) = preprocessed_ t.
Proof.
  intros Hn. split; [|reflexivity].
  set (pts0 := points_ t) in *.
  unfold Track.calculateArcLength. cbv zeta. fold pts0. simpl.
  set (pts_a := alter (set_s 0.0) 0%nat pts0).
  assert (Ha : arc_inv pts0 1 pts_a).
  { unfold pts_a. split; [apply length_alter|]. split; [|split].
    - intros i. rewrite list_lookup_total_alter. case_decide; [|apply same_raw_refl].
      destruct H as [<- _]. repeat split.
    - rewrite list_lookup_total_alter_eq by lia. simpl. lra.
    - intros i Hi. lia. }
  assert (Hb : arc_inv pts0 (length pts_a) (for_range 1 (length pts_a) Track.calculateArcLength_step pts_a)).
  { assert (Hla : length pts_a = length pts0) by apply length_alter.
    apply (for_range_inv (arc_inv pts0)); [lia|exact Ha|].
    intros k pts Hk Hinv. apply arc_inv_step; [lia|exact Hinv]. }
  set (pts_b := for_range 1 (length pts_a) Track.calculateArcLength_step pts_a) in *.
  replace (length pts_a) with (length pts0) in Hb by (symmetry; apply length_alter).
  destruct Hb as (Hlen & Hraw & Hs0 & Hseg).
  unfold Track.back. rewrite !length_alter, Hlen.
  set (last := (length pts0 - 1)%nat).
  split; [rewrite length_alter; exact Hlen|]. split; [|split; [|split; [|split]]].
  - intros i. rewrite list_lookup_total_alter. case_decide; [|apply Hraw].
    destruct H as [<- _]. eapply same_raw_trans; [|apply Hraw]. repeat split.
  - rewrite list_lookup_total_alter. case_decide; [|exact Hs0].
    destruct H as [Hl _]. simpl. rewrite Hl. exact Hs0.
  - intros i Hi. destruct (Hseg i Hi) as [Hds Hsi].
    rewrite !list_lookup_total_alter.
    destruct (decide (last = i /\ (last < length pts_b)%nat)) as [[Hl _]|_];
      [unfold last in Hl; lia|].
    destruct (decide (last = (i + 1)%nat /\ (last < length pts_b)%nat)) as [[Hl _]|_].
    + rewrite <- Hl in *. simpl. split; assumption.
    + split; assumption.
  - rewrite list_lookup_total_alter_eq by (unfold last; lia). simpl.
    apply dist3_same_raw; apply Hraw.
  - reflexivity.
Qed.

(** ** TrackData: heading and curvature leave the arc length alone *)

Lemma for_range_pointwise (Q : TrackPoint -> TrackPoint -> Prop)
      (body : nat -> list TrackPoint -> list TrackPoint) (n : nat) (pts : list TrackPoint) :
  (forall p, Q p p) -> (forall p q r, Q p q -> Q q r -> Q p r) ->
  (forall i l, length (body i l) = length l /\ forall j, Q (body i l !!! j) (l !!! j)) ->
  length (for_range 0 n body pts) = length pts
  /\ forall j, Q (for_range 0 n body pts !!! j) (pts !!! j).
Proof.
  intros Hrefl Htrans Hbody.
  apply (for_range_inv (fun _ l => length l = length pts /\ forall j, Q (l !!! j) (pts !!! j))).
  - lia.
  - split; [reflexivity|]. intros j. apply Hrefl.
  - intros i l _ [Hl HQ]. destruct (Hbody i l) as [Hl' HQ']. split; [congruence|].
    intros j. eapply Htrans; [apply HQ'|apply HQ].
Qed.

Lemma calculateHeading_same_arc (t : TrackData) :
  length (points_ (Track.calculateHeading t)) = length (points_ t)
  /\ (forall j, same_arc (points_ (Track.calculateHeading t) !!! j) (points_ t !!! j))
  /\ total_length_ (Track.calculateHeading t) = total_length_ t.
Proof.
  unfold Track.calculateHeading. simpl.
  destruct (for_range_pointwise same_arc
              (Track.calculateHeading_step (length (points_ t)))
              (length (points_ t)) (points_ t) same_arc_refl same_arc_trans) as [Hl HQ].
  - intros i l. unfold Track.calculateHeading_step. cbv zeta.
    split; [apply length_alter|]. intros j.
    rewrite list_lookup_total_alter. case_decide; [|apply same_arc_refl].
    destruct H as [<- _]. repeat split.
  - auto.
Qed.

Lemma calculateCurvature_same_arc (t : TrackData) :
  length (points_ (Track.calculateCurvature t)) = length (points_ t)
  /\ (forall j, same_arc (points_ (Track.calculateCurvature t) !!! j) (points_ t !!! j))
  /\ total_length_ (Track.calculateCurvature t) = total_length_ t.
Proof.
  unfold Track.calculateCurvature. simpl.
  destruct (for_range_pointwise same_arc
              (Track.calculateCurvature_step (total_length_ t) (length (points_ t)))
              (length (points_ t)) (points_ t) same_arc_refl same_arc_trans) as [Hl HQ].
  - intros i l. unfold Track.calculateCurvature_step. cbv zeta.
    split; [apply length_alter|]. intros j.
    rewrite list_lookup_total_alter. case_decide; [|apply same_arc_refl].
    destruct H as [<- _]. repeat split.
  - auto.
Qed.

Lemma arc_length_ok_same_arc (pts0 pts pts' : list TrackPoint) (L : R) :
  length pts' = length pts ->
  (forall j, same_arc (pts' !!! j) (pts !!! j)) ->
  arc_length_ok pts0 pts L -> arc_length_ok pts0 pts' L.
Proof.
  intros Hlen Hsame (Hl & Hraw & Hs0 & Hseg & Hlast & HL).
  assert (Hs : forall j, s (pts' !!! j) = s (pts !!! j)) by (intros j; apply Hsame).
  assert (Hds : forall j, ds (pts' !!! j) = ds (pts !!! j)) by (intros j; apply Hsame).
  split; [congruence|]. split; [|split; [|split; [|split]]].
  - intros i. eapply same_raw_trans; [apply Hsame|apply Hraw].
  - rewrite Hs. exact Hs0.
  - intros i Hi. rewrite !Hs, !Hds. apply Hseg. exact Hi.
  - rewrite Hds. exact Hlast.
  - rewrite Hs, Hds. exact HL.
Qed.

(** A successful [preprocess]: at least three points, the flag set, and the
    arc-length fields as [calculateArcLength] computed them. *)
Lemma preprocess_Ok (t t' : TrackData) :
  Track.preprocess t = Ok t' ->
  (3 <= length (points_ t))%nat
  /\ preprocessed_ t' = true
  /\ arc_length_ok (points_ t) (points_ t') (total_length_ t').
Proof.
  unfold Track.preprocess.
  destruct (decide (length (points_ t) < 3)%nat) as [|Hn]; [discriminate|].
  intros [= <-]. split; [lia|]. split; [reflexivity|].
  set (t1 := Track.calculateArcLength t).
  change (arc_length_ok (points_ t)
            (points_ (Track.calculateCurvature (Track.calculateHeading t1)))
            (total_length_ (Track.calculateCurvature (Track.calculateHeading t1)))).
  subst t1.
  destruct (calculateArcLength_ok t ltac:(lia)) as [Harc _].
  destruct (calculateHeading_same_arc (Track.calculateArcLength t)) as (Hl1 & Hs1 & HL1).
  destruct (calculateCurvature_same_arc (Track.calculateHeading (Track.calculateArcLength t)))
    as (Hl2 & Hs2 & HL2).
  rewrite HL2, HL1.
  eapply arc_length_ok_same_arc; [exact Hl2|exact Hs2|].
  eapply arc_length_ok_same_arc; [exact Hl1|exact Hs1|exact Harc].
Qed.

(** C8, as first stated, fails: when two consecutive input points coincide
    the preprocessed arc lengths are equal, not strictly increasing. *)
Lemma arc_length_not_strict :
  Track.preprocess duplicate_point_raw_track = Ok duplicate_point_track
  /\ (3 <= length (points_ duplicate_point_raw_track))%nat
  /\ ~ (s (points_ duplicate_point_track !!! 0%nat) < s (points_ duplicate_point_track !!! 1%nat)).
Proof.
  assert (Hpre : Track.preprocess duplicate_point_raw_track = Ok duplicate_point_track)
    by reflexivity.
  split; [exact Hpre|]. split; [simpl; lia|].
  destruct (preprocess_Ok _ _ Hpre) as (_ & _ & _ & _ & Hs0 & Hseg & _).
  destruct (Hseg 0%nat ltac:(simpl; lia)) as [Hds Hs1].
  change (0 + 1)%nat with 1%nat in *.
  rewrite Hs1, Hs0, Hds. unfold Track.dist3. simpl.
  replace ((0 - 0) * (0 - 0) + (0 - 0) * (0 - 0) + (0 - 0) * (0 - 0)) with 0 by lra.
  rewrite sqrt_0. lra.
Qed.

(** C8 (amended): after [preprocess] on a track with [N >= 3] points,
    [s[0] = 0]; for every [i < N-1], [ds[i]] is the 3-D distance between points
    [i] and [i+1] and [s[i+1] = s[i] + ds[i]]; [ds[N-1]] is the distance from
    the last point back to the first and [L = s[N-1] + ds[N-1]]; the arc
    lengths are non-decreasing, [s[i] <= s[i+1]], and strictly increasing
    exactly where the two points differ ([ds[i] > 0]). *)
Theorem preprocess_arc_length (t t' : TrackData) :
  Track.preprocess t = Ok t' ->
  let N := length (points_ t) in
  let p i := points_ t !!! i in
  let p' i := points_ t' !!! i in
  (3 <= N)%nat
  /\ length (points_ t') = N
  /\ s (p' 0%nat) = 0
  /\ (forall i, (i < N - 1)%nat ->
        ds (p' i) = sqrt ((x (p (i + 1)%nat) - x (p i)) * (x (p (i + 1)%nat) - x (p i))
                          + (y (p (i + 1)%nat) - y (p i)) * (y (p (i + 1)%nat) - y (p i))
                          + (z (p (i + 1)%nat) - z (p i)) * (z (p (i + 1)%nat) - z (p i)))
        /\ s (p' (i + 1)%nat) = s (p' i) + ds (p' i)
        /\ s (p' i) <= s (p' (i + 1)%nat)
        /\ (s (p' i) < s (p' (i + 1)%nat) <-> 0 < ds (p' i)))
  /\ ds (p' (N - 1)%nat)
     = sqrt ((x (p 0%nat) - x (p (N - 1)%nat)) * (x (p 0%nat) - x (p (N - 1)%nat))
             + (y (p 0%nat) - y (p (N - 1)%nat)) * (y (p 0%nat) - y (p (N - 1)%nat))
             + (z (p 0%nat) - z (p (N - 1)%nat)) * (z (p 0%nat) - z (p (N - 1)%nat)))
  /\ total_length_ t' = s (p' (N - 1)%nat) + ds (p' (N - 1)%nat).
Proof.
  intros Hpre N p p'.
  destruct (preprocess_Ok _ _ Hpre) as (HN & _ & Hlen & _ & Hs0 & Hseg & Hlast & HL).
  split; [exact HN|]. split; [exact Hlen|]. split; [exact Hs0|].
  split; [|split; [exact Hlast|exact HL]].
  intros i Hi. destruct (Hseg i ltac:(unfold N in Hi; lia)) as [Hds Hs1].
  subst p p'. cbv beta.
  split; [exact Hds|]. split; [exact Hs1|].
  pose proof (dist3_nonneg (points_ t !!! (i + 1)%nat) (points_ t !!! i)) as Hpos.
  rewrite <- Hds in Hpos. rewrite Hs1. split; [lra|]. split; intros; lra.
Qed.

Lemma preprocess_arc_length_witness :
  s (points_ example_track !!! 0%nat) = 0
  /\ s (points_ example_track !!! 1%nat) = 30
  /\ s (points_ example_track !!! 2%nat) = 70
  /\ total_length_ example_track = 120.
Proof.
  pose proof (preprocess_arc_length example_raw_track example_track
                example_track_preprocess) as H.
  cbv zeta in H.
  remember (points_ example_track) as pts eqn:Hpts.
  remember (total_length_ example_track) as L eqn:HL_def.
  clear Hpts HL_def.
  destruct H as (_ & _ & Hs0 & Hseg & Hlast & HL).
  destruct (Hseg 0%nat ltac:(simpl; lia)) as (Hd0 & Hs1 & _).
  destruct (Hseg 1%nat ltac:(simpl; lia)) as (Hd1 & Hs2 & _).
  simpl in Hd0, Hd1, Hs1, Hs2, Hlast, HL.
  assert (H30 : sqrt (30 * 30) = 30) by (apply sqrt_square; lra).
  assert (H40 : sqrt (40 * 40) = 40) by (apply sqrt_square; lra).
  assert (H50 : sqrt (50 * 50) = 50) by (apply sqrt_square; lra).
  replace ((30 - 0) * (30 - 0) + (0 - 0) * (0 - 0) + (0 - 0) * (0 - 0))
    with (30 * 30) in Hd0 by lra.
  replace ((30 - 30) * (30 - 30) + (40 - 0) * (40 - 0) + (0 - 0) * (0 - 0))
    with (40 * 40) in Hd1 by lra.
  replace ((0 - 30) * (0 - 30) + (0 - 40) * (0 - 40) + (0 - 0) * (0 - 0))
    with (50 * 50) in Hlast by lra.
  rewrite H30 in Hd0. rewrite H40 in Hd1. rewrite H50 in Hlast.
  repeat split; lra.
Defined.

(** ** TrackData: the angle normalisation always terminates *)

Lemma PI_lit_pos : 3 < Track.PI_lit < 4.
Proof. unfold Track.PI_lit. lra. Qed.

Lemma while_gt_enough (fuel : nat) (angle : R) :
  angle <= Track.PI_lit + INR fuel * (2 * Track.PI_lit) ->
  exists a, Track.while_gt fuel angle = Some a
            /\ a <= Track.PI_lit /\ a <= angle /\ (a = angle \/ - Track.PI_lit < a).
Proof.
  pose proof PI_lit_pos as HPI.
  revert angle. induction fuel as [|fuel IH]; intros angle Hfuel.
  - simpl in *. destruct (Rlt_dec Track.PI_lit angle); [lra|].
    exists angle. repeat split; try lra; left; reflexivity.
  - rewrite S_INR in Hfuel. simpl.
    destruct (Rlt_dec Track.PI_lit angle) as [Hgt|Hle].
    + destruct (IH (angle - 2.0 * Track.PI_lit)) as (a & Ha & Hub & Hle & Hcase); [lra|].
      exists a. split; [exact Ha|]. split; [exact Hub|]. split; [lra|].
      right. destruct Hcase; lra.
    + exists angle. repeat split; try lra; left; reflexivity.
Qed.

Lemma while_lt_enough (fuel : nat) (angle : R) :
  - Track.PI_lit - INR fuel * (2 * Track.PI_lit) <= angle ->
  exists a, Track.while_lt fuel angle = Some a
            /\ - Track.PI_lit <= a /\ (a = angle \/ a < Track.PI_lit).
Proof.
  pose proof PI_lit_pos as HPI.
  revert angle. induction fuel as [|fuel IH]; intros angle Hfuel.
  - simpl in *. destruct (Rlt_dec angle (- Track.PI_lit)); [lra|].
    exists angle. repeat split; try lra; left; reflexivity.
  - rewrite S_INR in Hfuel. simpl.
    destruct (Rlt_dec angle (- Track.PI_lit)) as [Hlt|Hge].
    + destruct (IH (angle + 2.0 * Track.PI_lit)) as (a & Ha & Hlb & Hcase); [lra|].
      exists a. split; [exact Ha|]. split; [exact Hlb|].
      right. destruct Hcase; lra.
    + exists angle. repeat split; try lra; left; reflexivity.
Qed.

Lemma INR_up_Rabs (r : R) : Rabs r <= INR (Z.to_nat (up (Rabs r))).
Proof.
  pose proof (archimed (Rabs r)) as [Hup _]. pose proof (Rabs_pos r) as Hpos.
  assert (Hz : (0 <= up (Rabs r))%Z).
  { apply le_IZR. simpl. lra. }
  rewrite INR_IZR_INZ, Z2Nat.id by exact Hz. lra.
Qed.

(** The rounds granted to [normalizeAngle] are never used up, and the result
    lies between [-PI] and [PI]. *)
Lemma normalizeAngle_fuel_enough (angle : R) :
  exists r, Track.normalizeAngle_fuel (Track.normalizeAngle_rounds angle) angle = Some r
            /\ Track.normalizeAngle angle = r
            /\ - Track.PI_lit <= r <= Track.PI_lit.
Proof.
  pose proof PI_lit_pos as HPI.
  pose proof (INR_up_Rabs angle) as Hfuel.
  pose proof (Rle_abs angle) as Hle. pose proof (Rle_abs (- angle)) as Hle'.
  rewrite Rabs_Ropp in Hle'.
  unfold Track.normalizeAngle, Track.normalizeAngle_fuel.
  fold (Track.normalizeAngle_rounds angle) in Hfuel.
  set (fuel := Track.normalizeAngle_rounds angle) in *.
  assert (Hn : 0 <= INR fuel * (2 * Track.PI_lit) - INR fuel) by nra.
  destruct (while_gt_enough fuel angle) as (a & Ha & Hub & Hdown & Hcase); [lra|].
  rewrite Ha.
  destruct (while_lt_enough fuel a) as (r & Hr & Hlb & Hcase').
  { destruct Hcase as [->|Hgt]; [lra|]. pose proof (pos_INR fuel). nra. }
  rewrite Hr. exists r. split; [reflexivity|]. split; [reflexivity|].
  split; [exact Hlb|]. destruct Hcase'; lra.
Qed.

(** ** TrackData: which calls fail *)

Lemma wrap_up_no_throw (fuel : nat) (L sv : R) : ~ throws (Track.wrap_up fuel L sv).
Proof.
  revert sv. induction fuel as [|fuel IH]; intros sv [e He]; simpl in He.
  - destruct (Rlt_dec sv 0); discriminate.
  - destruct (Rlt_dec sv 0); [|discriminate]. apply (IH (sv + L)). exists e. exact He.
Qed.

Lemma wrap_down_no_throw (fuel : nat) (L sv : R) : ~ throws (Track.wrap_down fuel L sv).
Proof.
  revert sv. induction fuel as [|fuel IH]; intros sv [e He]; simpl in He.
  - destruct (Rle_dec L sv); discriminate.
  - destruct (Rle_dec L sv); [|discriminate]. apply (IH (sv - L)). exists e. exact He.
Qed.

Lemma normalize_s_no_throw (fuel : nat) (t : TrackData) (sv : R) :
  ~ throws (Track.normalize_s fuel t sv).
Proof.
  unfold Track.normalize_s. intros [e He].
  destruct (Track.wrap_up fuel (total_length_ t) sv) as [s1| |] eqn:Hup; simpl in He.
  - apply (wrap_down_no_throw fuel (total_length_ t) s1). exists e. exact He.
  - apply (wrap_up_no_throw fuel (total_length_ t) sv). exists e0. exact Hup.
  - discriminate.
Qed.

Lemma interpolateAt_throws (fuel : nat) (t : TrackData) (sv : R) :
  throws (Track.interpolateAt fuel t sv) <-> preprocessed_ t = false.
Proof.
  unfold Track.interpolateAt. destruct (preprocessed_ t); simpl.
  - split; [|discriminate]. intros [e He]. exfalso.
    destruct (Track.normalize_s fuel t sv) as [s1| |] eqn:Hn; simpl in He; try discriminate.
    apply (normalize_s_no_throw fuel t sv). exists e0. exact Hn.
  - split; [reflexivity|]. intros _. eexists. reflexivity.
Qed.

Lemma getCurvatureAt_throws (fuel : nat) (t : TrackData) (sv : R) :
  throws (Track.getCurvatureAt fuel t sv) <-> preprocessed_ t = false.
Proof.
  unfold Track.getCurvatureAt. destruct (preprocessed_ t); simpl.
  - split; [|discriminate]. intros [e He]. exfalso.
    destruct (Track.normalize_s fuel t sv) as [s1| |] eqn:Hn; simpl in He; try discriminate.
    apply (normalize_s_no_throw fuel t sv). exists e0. exact Hn.
  - split; [reflexivity|]. intros _. eexists. reflexivity.
Qed.

Lemma isWithinBounds_throws (fuel : nat) (t : TrackData) (sv n : R) :
  throws (Track.isWithinBounds fuel t sv n) <-> preprocessed_ t = false.
Proof.
  unfold Track.isWithinBounds. destruct (preprocessed_ t) eqn:Hp; simpl.
  - split; [|discriminate]. intros [e He]. exfalso.
    destruct (Track.interpolateAt fuel t sv) as [pt| |] eqn:Hi; simpl in He; try discriminate.
    assert (Hth : throws (Track.interpolateAt fuel t sv)) by (exists e0; exact Hi).
    apply interpolateAt_throws in Hth. congruence.
  - split; [reflexivity|]. intros _. eexists. reflexivity.
Qed.

(** C7: [preprocess] fails exactly when the track has fewer than 3 points,
    and otherwise returns the track marked preprocessed; [interpolateAt],
    [getCurvatureAt] and [isWithinBounds] fail exactly when the track is not
    preprocessed; [getPoint i] fails exactly when [i] is at least the number
    of points. *)
Theorem track_failures (t : TrackData) :
  (throws (Track.preprocess t) <-> (length (points_ t) < 3)%nat)
  /\ ((3 <= length (points_ t))%nat ->
      exists t', Track.preprocess t = Ok t' /\ preprocessed_ t' = true)
  /\ (forall fuel sv, throws (Track.interpolateAt fuel t sv) <-> preprocessed_ t = false)
  /\ (forall fuel sv, throws (Track.getCurvatureAt fuel t sv) <-> preprocessed_ t = false)
  /\ (forall fuel sv n, throws (Track.isWithinBounds fuel t sv n) <-> preprocessed_ t = false)
  /\ (forall i, throws (Track.getPoint t i) <-> (length (points_ t) <= i)%nat).
Proof.
  split; [|split; [|split; [|split; [|split]]]].
  - unfold Track.preprocess. destruct (decide (length (points_ t) < 3)%nat) as [Hlt|Hge].
    + split; [intros _; exact Hlt|]. intros _. eexists. reflexivity.
    + split; [|intros; contradiction]. intros [e He]. discriminate.
  - intros Hn. unfold Track.preprocess.
    destruct (decide (length (points_ t) < 3)%nat); [lia|].
    eexists. split; reflexivity.
  - intros fuel sv. apply interpolateAt_throws.
  - intros fuel sv. apply getCurvatureAt_throws.
  - intros fuel sv n. apply isWithinBounds_throws.
  - intros i. unfold Track.getPoint.
    destruct (decide (length (points_ t) <= i)%nat) as [Hle|Hgt].
    + split; [intros _; exact Hle|]. intros _. eexists. reflexivity.
    + split; [|intros; contradiction]. intros [e He]. discriminate.
Qed.

Lemma track_failures_witness :
  (exists t', Track.preprocess example_raw_track = Ok t' /\ preprocessed_ t' = true)
  /\ throws (Track.interpolateAt 5 example_raw_track 1)
  /\ ~ throws (Track.interpolateAt 5 example_track 1)
  /\ throws (Track.getPoint example_track 3).
Proof.
  destruct (track_failures example_raw_track) as (_ & Hpre & Hint & _).
  destruct (track_failures example_track) as (_ & _ & Hint' & _ & _ & Hget).
  split; [apply Hpre; simpl; lia|]. split; [apply Hint; reflexivity|].
  split; [rewrite Hint'; discriminate|].
  apply Hget. destruct (preprocess_Ok _ _ example_track_preprocess) as (_ & _ & Hlen & _).
  rewrite Hlen. simpl. lia.
Defined.

(** ** TrackData: when the queries return *)

Lemma wrap_up_returns (fuel : nat) (L sv : R) :
  0 < L -> 0 <= sv + INR fuel * L ->
  exists s', Track.wrap_up fuel L sv = Ok s' /\ 0 <= s' /\ (s' = sv \/ s' < L).
Proof.
  intros HL. revert sv. induction fuel as [|fuel IH]; intros sv Hfuel.
  - simpl in *. destruct (Rlt_dec sv 0); [lra|].
    exists sv. repeat split; try lra; left; reflexivity.
  - rewrite S_INR in Hfuel. simpl. destruct (Rlt_dec sv 0) as [Hneg|Hpos].
    + destruct (IH (sv + L)) as (s' & Hs' & Hge & Hcase); [lra|].
      exists s'. split; [exact Hs'|]. split; [exact Hge|]. right. destruct Hcase; lra.
    + exists sv. repeat split; try lra; left; reflexivity.
Qed.

Lemma wrap_down_returns (fuel : nat) (L sv : R) :
  0 < L -> 0 <= sv -> sv - INR fuel * L < L ->
  exists s', Track.wrap_down fuel L sv = Ok s' /\ 0 <= s' < L.
Proof.
  intros HL. revert sv. induction fuel as [|fuel IH]; intros sv Hsv Hfuel.
  - simpl in *. destruct (Rle_dec L sv); [lra|]. exists sv. split; [reflexivity|lra].
  - rewrite S_INR in Hfuel. simpl. destruct (Rle_dec L sv) as [Hge|Hlt].
    + destruct (IH (sv - L)) as (s' & Hs' & Hrange); [lra|lra|].
      exists s'. split; assumption.
    + exists sv. split; [reflexivity|lra].
Qed.

(** On a track of positive length the two normalisation loops end, leaving
    [s] in [0, L). *)
Lemma normalize_s_returns (t : TrackData) (sv : R) :
  0 < total_length_ t ->
  exists fuel0, forall fuel, (fuel0 <= fuel)%nat ->
    exists s', Track.normalize_s fuel t sv = Ok s' /\ 0 <= s' < total_length_ t.
Proof.
  intros HL. set (L := total_length_ t) in *.
  exists (Z.to_nat (up (Rabs (sv / L)))). intros fuel Hfuel.
  pose proof (INR_up_Rabs (sv / L)) as Hup.
  apply le_INR in Hfuel.
  assert (Habs : Rabs sv <= INR fuel * L).
  { assert (Rabs (sv / L) = Rabs sv / L) as Heq.
    { unfold Rdiv. rewrite Rabs_mult, (Rabs_pos_eq (/ L)); [reflexivity|].
      left. apply Rinv_0_lt_compat. exact HL. }
    assert (Hle : Rabs (sv / L) <= INR fuel) by lra.
    rewrite Heq in Hle.
    assert (Rabs sv / L * L = Rabs sv) by (field; lra).
    nra. }
  pose proof (Rle_abs sv) as H1. pose proof (Rle_abs (- sv)) as H2.
  rewrite Rabs_Ropp in H2.
  unfold Track.normalize_s. fold L.
  destruct (wrap_up_returns fuel L sv HL) as (s1 & Hs1 & Hge & Hcase); [lra|].
  rewrite Hs1. simpl.
  apply wrap_down_returns; [exact HL|exact Hge|].
  pose proof (pos_INR fuel). destruct Hcase as [->|Hlt]; nra.
Qed.

Lemma interpolateAt_returns (t : TrackData) (sv : R) :
  preprocessed_ t = true -> 0 < total_length_ t ->
  exists fuel0, forall fuel, (fuel0 <= fuel)%nat -> returns (Track.interpolateAt fuel t sv).
Proof.
  intros Hp HL. destruct (normalize_s_returns t sv HL) as [fuel0 Hfuel0].
  exists fuel0. intros fuel Hfuel. destruct (Hfuel0 fuel Hfuel) as (s' & Hs' & _).
  unfold Track.interpolateAt. rewrite Hp, Hs'. simpl. eexists. reflexivity.
Qed.

(** On a track of length 0 (all points equal) the loops of the source never
    end: the query neither fails nor returns. *)
Lemma normalize_s_zero_length (fuel : nat) (t : TrackData) (sv : R) :
  total_length_ t = 0 -> Track.normalize_s fuel t sv = OutOfFuel.
Proof.
  intros HL. unfold Track.normalize_s. rewrite HL.
  assert (Hup : forall f s0, Track.wrap_up f 0 s0 = OutOfFuel \/ (0 <= s0 /\ Track.wrap_up f 0 s0 = Ok s0)).
  { induction f as [|f IH]; intros s0; simpl; destruct (Rlt_dec s0 0) as [Hneg|Hpos].
    - left. reflexivity.
    - right. split; [lra|reflexivity].
    - destruct (IH (s0 + 0)) as [Hd|[Hge _]]; [left; exact Hd|lra].
    - right. split; [lra|reflexivity]. }
  assert (Hdown : forall f s0, 0 <= s0 -> Track.wrap_down f 0 s0 = OutOfFuel).
  { induction f as [|f IH]; intros s0 Hs0; simpl; destruct (Rle_dec 0 s0); try lra.
    - reflexivity.
    - apply IH. lra. }
  destruct (Hup fuel sv) as [Hd|[Hge Hok]].
  - rewrite Hd. reflexivity.
  - rewrite Hok. simpl. apply Hdown. exact Hge.
Qed.

(** ** TrackData: reachable states *)

Lemma reachable_preprocessed (t : TrackData) :
  Track.reachable t -> preprocessed_ t = true ->
  (3 <= length (points_ t))%nat /\ forall i, 0 <= ds (points_ t !!! i).
Proof.
  induction 1 as [|t name Hr IH|t px py pz wl wr bk Hr IH|t t' Hr IH Hpre]; simpl;
    try discriminate.
  - exact IH.
  - intros _. destruct (preprocess_Ok _ _ Hpre) as (HN & _ & Hlen & _ & _ & Hseg & Hlast & _).
    split; [lia|]. intros i.
    destruct (decide (i + 1 < length (points_ t))%nat) as [Hi|Hi].
    + destruct (Hseg i Hi) as [-> _]. apply dist3_nonneg.
    + destruct (decide (i = length (points_ t) - 1)%nat) as [->|Hne].
      * rewrite Hlast. apply dist3_nonneg.
      * rewrite list_lookup_total_alt, lookup_ge_None_2 by lia. simpl. lra.
Qed.

Lemma example_track_reachable : Track.reachable example_track.
Proof.
  eapply Track.reach_preprocess; [|exact example_track_preprocess].
  unfold example_raw_track. repeat apply Track.reach_addPoint. apply Track.reach_new.
Qed.

(** ** GGVGenerator: the grid loops end *)

Lemma generate_ay_returns (fuel : nat) (g0 : GGVGenerator.t) (v ay ay_max ay_step : R)
      (pts : list GGVPoint) :
  0 < ay_step -> ay_max - ay < INR fuel * ay_step ->
  exists pts', GGVGenerator.generate_ay fuel g0 v ay ay_max ay_step pts = Ok pts'.
Proof.
  intros Hstep. revert ay pts. induction fuel as [|fuel IH]; intros ay pts Hfuel.
  - simpl in *. destruct (Rle_dec ay ay_max); [lra|]. eexists. reflexivity.
  - rewrite S_INR in Hfuel. simpl. destruct (Rle_dec ay ay_max).
    + apply IH. lra.
    + eexists. reflexivity.
Qed.

Lemma generate_v_returns (fuel fuel_ay : nat) (g0 : GGVGenerator.t)
      (v v_max v_step ay_max ay_step : R) (pts : list GGVPoint) :
  0 < v_step -> v_max - v < INR fuel * v_step ->
  0 < ay_step -> ay_max - 0.0 < INR fuel_ay * ay_step ->
  exists pts', GGVGenerator.generate_v fuel fuel_ay g0 v v_max v_step ay_max ay_step pts = Ok pts'.
Proof.
  intros Hstep Hfuel Hstep_ay Hfuel_ay. revert v pts Hfuel.
  induction fuel as [|fuel IH]; intros v pts Hfuel.
  - simpl in *. destruct (Rle_dec v v_max); [lra|]. eexists. reflexivity.
  - rewrite S_INR in Hfuel. simpl. destruct (Rle_dec v v_max).
    + destruct (generate_ay_returns fuel_ay g0 v 0.0 ay_max ay_step pts Hstep_ay Hfuel_ay)
        as [pts1 Hpts1].
      rewrite Hpts1. simpl. apply IH. lra.
    + eexists. reflexivity.
Qed.

(** 241 rounds cover the 0 .. 120 m/s grid in steps of 0.5 and the
    0 .. 50 m/s^2 grid in steps of 1. *)
Lemma initialize_returns (fuel : nat) (q : QuasiSteadyStateSolver.t) :
  (241 <= fuel)%nat ->
  exists g, QuasiSteadyStateSolver.initialize fuel q = Ok (QuasiSteadyStateSolver.set_ggv g q)
            /\ GGVGenerator.generated_ g = true.
Proof.
  intros Hfuel. unfold QuasiSteadyStateSolver.initialize. cbv zeta.
  apply le_INR in Hfuel.
  assert (H241 : INR 241 = 241) by (rewrite INR_IZR_INZ; reflexivity).
  rewrite H241 in Hfuel.
  unfold GGVGenerator.generate.
  destruct (generate_v_returns fuel fuel (QuasiSteadyStateSolver.ggv_ q)
              0.0 120.0 0.5 50.0 1.0 []) as [pts Hpts]; try lra.
  rewrite Hpts. simpl. eexists. split; reflexivity.
Qed.

(** ** QuasiSteadyStateSolver: the passes cannot fail *)

Lemma for_each_m_inv {S : Type} (I : S -> Prop) (body : nat -> S -> outcome S)
      (idxs : list nat) (st : S) :
  I st ->
  (forall i st0, i ∈ idxs -> I st0 -> exists st1, body i st0 = Ok st1 /\ I st1) ->
  exists st', for_each_m body idxs st = Ok st' /\ I st'.
Proof.
  revert st. induction idxs as [|i rest IH]; intros st Hst Hbody; simpl.
  - exists st. split; [reflexivity|exact Hst].
  - destruct (Hbody i st) as (st1 & Hst1 & HI1); [left|exact Hst|].
    rewrite Hst1. simpl. apply IH; [exact HI1|].
    intros j st0 Hj. apply Hbody. right. exact Hj.
Qed.

Lemma for_range_m_inv {S : Type} (I : S -> Prop) (lo hi : nat)
      (body : nat -> S -> outcome S) (st : S) :
  I st ->
  (forall i st0, (lo <= i < hi)%nat -> I st0 -> exists st1, body i st0 = Ok st1 /\ I st1) ->
  exists st', for_range_m lo hi body st = Ok st' /\ I st'.
Proof.
  intros Hst Hbody. unfold for_range_m. apply for_each_m_inv; [exact Hst|].
  intros i st0 Hi. apply Hbody. apply elem_of_seq in Hi. lia.
Qed.

Lemma getPoint_in_range (t : TrackData) (i : nat) :
  (i < length (points_ t))%nat -> Track.getPoint t i = Ok (points_ t !!! i).
Proof.
  intros Hi. unfold Track.getPoint.
  destruct (decide (length (points_ t) <= i)%nat); [lia|reflexivity].
Qed.

Lemma size_t_pred_pos (n : nat) : (1 <= n)%nat -> size_t_pred n = (n - 1)%nat.
Proof. intros Hn. unfold size_t_pred. destruct (decide (n = 0)%nat); [lia|reflexivity]. Qed.

Lemma getMaxAcceleration_generated (g : GGVGenerator.t) (v ay : R) :
  GGVGenerator.generated_ g = true ->
  GGVGenerator.getMaxAcceleration g v ay
  = Ok (GGVGenerator.interpolateAcceleration g v (Std.abs ay)).
Proof. intros Hg. unfold GGVGenerator.getMaxAcceleration. rewrite Hg. reflexivity. Qed.

Lemma getMaxBraking_generated (g : GGVGenerator.t) (v ay : R) :
  GGVGenerator.generated_ g = true ->
  GGVGenerator.getMaxBraking g v ay
  = Ok (GGVGenerator.interpolateBraking g v (Std.abs ay)).
Proof. intros Hg. unfold GGVGenerator.getMaxBraking. rewrite Hg. reflexivity. Qed.

(** Closes [ready] goals after a pass has overwritten vector entries. *)
Ltac ready_tac :=
  repeat split; simpl; rewrite ?length_insert; first [assumption | lia].

Section Passes.

Variable track : TrackData.
Hypothesis track_nonempty : (1 <= length (points_ track))%nat.
Hypothesis ds_nonneg : forall i, 0 <= ds (points_ track !!! i).

Lemma calculateCorneringLimit_returns (k : Z) (q : QuasiSteadyStateSolver.t) :
  ready track k q ->
  exists q', QuasiSteadyStateSolver.calculateCorneringLimit q = Ok q' /\ ready track k q'.
Proof using All.
  intros Hq. unfold QuasiSteadyStateSolver.calculateCorneringLimit.
  rewrite (proj1 (proj2 Hq)).
  apply for_range_m_inv; [exact Hq|].
  intros i q0 Hi (Ht0 & Hn0 & Hg0 & Hk0 & Hc & Ha & Hb & Ho).
  rewrite Ht0, getPoint_in_range by lia. simpl.
  eexists. split; [reflexivity|]. ready_tac.
Qed.

Lemma forwardIntegration_step_returns (k : Z) (i : nat) (q : QuasiSteadyStateSolver.t) :
  (i < length (points_ track))%nat -> ready track k q ->
  exists q', QuasiSteadyStateSolver.forwardIntegration_step i q = Ok q' /\ ready track k q'.
Proof using All.
  intros Hi (Ht & Hn & Hg & Hk & Hc & Ha & Hb & Ho).
  unfold QuasiSteadyStateSolver.forwardIntegration_step.
  cbv zeta. rewrite Ht, getPoint_in_range by exact Hi. simpl.
  rewrite getMaxAcceleration_generated by exact Hg. simpl.
  eexists. split; [reflexivity|]. ready_tac.
Qed.

Lemma forwardIntegration_returns (k : Z) (q : QuasiSteadyStateSolver.t) :
  ready track k q ->
  exists q', QuasiSteadyStateSolver.forwardIntegration q = Ok q' /\ ready track k q'.
Proof using All.
  intros Hq. unfold QuasiSteadyStateSolver.forwardIntegration.
  assert (Hn := proj1 (proj2 Hq)).
  rewrite Hn, size_t_pred_pos by exact track_nonempty.
  destruct (for_range_m_inv (ready track k) 0 (length (points_ track) - 1)
              QuasiSteadyStateSolver.forwardIntegration_step q Hq) as (q1 & Hq1 & Hr1).
  { intros i q0 Hi Hq0. apply forwardIntegration_step_returns; [lia|exact Hq0]. }
  rewrite Hq1. simpl. destruct Hr1 as (Ht & Hn1 & Hg & Hk & Hc & Ha & Hb & Ho).
  rewrite Hn1, size_t_pred_pos by exact track_nonempty.
  rewrite Ht, getPoint_in_range by lia. simpl.
  rewrite getMaxAcceleration_generated by exact Hg. simpl.
  eexists. split; [reflexivity|]. ready_tac.
Qed.

Lemma backwardIntegration_step_returns (k : Z) (i : nat) (q : QuasiSteadyStateSolver.t) :
  (1 <= i < length (points_ track))%nat -> ready track k q ->
  exists q', QuasiSteadyStateSolver.backwardIntegration_step i q = Ok q' /\ ready track k q'.
Proof using All.
  intros Hi (Ht & Hn & Hg & Hk & Hc & Ha & Hb & Ho).
  unfold QuasiSteadyStateSolver.backwardIntegration_step.
  cbv zeta. rewrite Ht, !getPoint_in_range by lia. simpl.
  rewrite getMaxBraking_generated by exact Hg. simpl.
  eexists. split; [reflexivity|]. ready_tac.
Qed.

Lemma backwardIntegration_returns (k : Z) (q : QuasiSteadyStateSolver.t) :
  ready track k q ->
  exists q', QuasiSteadyStateSolver.backwardIntegration q = Ok q' /\ ready track k q'.
Proof using All.
  intros Hq. unfold QuasiSteadyStateSolver.backwardIntegration.
  assert (Hn := proj1 (proj2 Hq)). rewrite Hn.
  destruct (for_each_m_inv (ready track k) QuasiSteadyStateSolver.backwardIntegration_step
              (reverse (seq 1 (length (points_ track) - 1))) q Hq) as (q1 & Hq1 & Hr1).
  { intros i q0 Hi Hq0. apply backwardIntegration_step_returns; [|exact Hq0].
    apply elem_of_reverse, elem_of_seq in Hi. lia. }
  rewrite Hq1. simpl. destruct Hr1 as (Ht & Hn1 & Hg & Hk & Hc & Ha & Hb & Ho).
  rewrite Hn1, size_t_pred_pos by exact track_nonempty.
  rewrite Ht, !getPoint_in_range by lia. simpl.
  rewrite getMaxBraking_generated by exact Hg. simpl.
  eexists. split; [reflexivity|]. ready_tac.
Qed.

Lemma combineProfiles_ready (k : Z) (q : QuasiSteadyStateSolver.t) :
  ready track k q -> ready track k (QuasiSteadyStateSolver.combineProfiles q).
Proof using All.
  intros Hq. unfold QuasiSteadyStateSolver.combineProfiles.
  apply (for_range_inv (fun _ q0 => ready track k q0)); [lia|exact Hq|].
  intros i q0 _ (Ht & Hn & Hg & Hk & Hc & Ha & Hb & Ho). ready_tac.
Qed.

Lemma calculateLapTime_returns (k : Z) (q : QuasiSteadyStateSolver.t) :
  ready track k q ->
  exists T, QuasiSteadyStateSolver.calculateLapTime q = Ok T /\ 0 <= T.
Proof using All.
  intros (Ht & Hn & _). unfold QuasiSteadyStateSolver.calculateLapTime.
  rewrite Hn, Ht.
  apply (for_range_m_inv (fun total_time => 0 <= total_time)); [lra|].
  intros i total_time Hi Htotal.
  rewrite getPoint_in_range by lia. cbn [obind].
  destruct (Rlt_dec 0.0 (QuasiSteadyStateSolver.v_optimal_ q !!! i)) as [Hv|_].
  - eexists. split; [reflexivity|].
    assert (Hv' : 0 < QuasiSteadyStateSolver.v_optimal_ q !!! i) by lra.
    pose proof (div_nonneg _ _ (ds_nonneg i) Hv'). lra.
  - eexists. split; [reflexivity|exact Htotal].
Qed.

(** The iteration loop: it returns, the counter ends between [iter + 1] and
    [iter + remaining], and the stored lap time is the one
    [calculateLapTime] gives for the final profile. *)
Lemma solve_loop_returns (remaining : nat) :
  forall (iter : Z) (prev_lap_time tolerance : R) (k : Z) (q : QuasiSteadyStateSolver.t),
    ready track k q ->
    exists q',
      QuasiSteadyStateSolver.solve_loop remaining iter prev_lap_time tolerance q = Ok q'
      /\ (remaining = 0%nat -> q' = q)
      /\ ((1 <= remaining)%nat ->
          (iter + 1 <= QuasiSteadyStateSolver.iterations_used_ q'
           <= iter + Z.of_nat remaining)%Z
          /\ QuasiSteadyStateSolver.calculateLapTime q'
             = Ok (QuasiSteadyStateSolver.lap_time_ q')
          /\ 0 <= QuasiSteadyStateSolver.lap_time_ q'
          /\ well_sized q').
Proof using All.
  induction remaining as [|remaining IH]; intros iter prev_lap_time tolerance k q Hq.
  - exists q. split; [reflexivity|]. split; [reflexivity|lia].
  - simpl.
    assert (Hq1 : ready track (iter + 1)
                    (QuasiSteadyStateSolver.set_iterations_used (iter + 1) q)).
    { destruct Hq as (Ht & Hn & Hg & _ & Hc & Ha & Hb & Ho). ready_tac. }
    destruct (forwardIntegration_returns _ _ Hq1) as (q2 & Hf & Hq2).
    rewrite Hf. simpl.
    destruct (backwardIntegration_returns _ _ Hq2) as (q3 & Hb & Hq3).
    rewrite Hb. simpl.
    pose proof (combineProfiles_ready _ _ Hq3) as Hq4.
    set (q4 := QuasiSteadyStateSolver.combineProfiles q3) in *.
    destruct (calculateLapTime_returns _ q4 Hq4) as (T & HT & HT0).
    rewrite HT. simpl.
    assert (Hq5 : ready track (iter + 1) (QuasiSteadyStateSolver.set_lap_time T q4)).
    { destruct Hq4 as (Ht & Hn & Hg & Hk & Hc & Ha & Hb' & Ho). ready_tac. }
    assert (Hw4 : well_sized q4) by apply Hq4.
    destruct (Rlt_dec _ tolerance) as [Hconv|Hnot].
    + eexists. split; [reflexivity|]. split; [discriminate|]. intros _.
      destruct Hq4 as (_ & _ & _ & Hk & _). simpl. rewrite Hk.
      split; [lia|]. split; [exact HT|]. split; [exact HT0|exact Hw4].
    + destruct (IH (iter + 1)%Z T tolerance _ _ Hq5) as (q' & Hloop & Hzero & Hpos).
      exists q'. split; [exact Hloop|]. split; [discriminate|]. intros _.
      destruct remaining as [|remaining'].
      * rewrite (Hzero eq_refl). destruct Hq4 as (_ & _ & _ & Hk & _). simpl. rewrite Hk.
        split; [lia|]. split; [exact HT|]. split; [exact HT0|exact Hw4].
      * destruct (Hpos ltac:(lia)) as (Hit & Hlap & Hnn & Hw).
        split; [lia|]. split; [exact Hlap|]. split; [exact Hnn|exact Hw].
Qed.

End Passes.

(** What the real-valued reading can say of [solve]: for a solver built
    (without error) on a preprocessed track with at least 3 points and a
    vehicle that passes [validate], [solve] with [max_iterations >= 1] raises
    no error: with 241 rounds of fuel for the GGV grid loops it returns. The
    lap time returned is the sum of [ds / v_optimal] over the points with
    positive velocity, a non-negative real number, and between 1 and
    [max_iterations] iterations were performed. Whether the [double] the
    engine returns is finite is a question of overflow, which this reading
    does not have: every real number is finite. *)
Theorem solve_returns (track : TrackData) (vehicle : VehicleParams)
        (q : QuasiSteadyStateSolver.t) (max_iterations : Z) (tolerance : R) :
  Track.reachable track ->
  (3 <= length (points_ track))%nat ->
  QuasiSteadyStateSolver.new track vehicle = Ok q ->
  (1 <= max_iterations)%Z ->
  forall fuel, (241 <= fuel)%nat ->
    exists lap_time q',
      QuasiSteadyStateSolver.solve fuel q max_iterations tolerance = Ok (lap_time, q')
      /\ lap_time = QuasiSteadyStateSolver.lap_time_ q'
      /\ QuasiSteadyStateSolver.calculateLapTime q' = Ok lap_time
      /\ 0 <= lap_time
      /\ (1 <= QuasiSteadyStateSolver.iterations_used_ q' <= max_iterations)%Z.
Proof.
  intros Hreach Hlen Hnew Hmax fuel Hfuel.
  apply solver_new_Ok in Hnew as (Hpre & _ & Ht & _ & Hn & Hc & Ha & Hb & Ho & Hit & _).
  destruct (reachable_preprocessed track Hreach Hpre) as [_ Hds].
  assert (Hne : (1 <= length (points_ track))%nat) by lia.
  unfold QuasiSteadyStateSolver.solve.
  destruct (initialize_returns fuel q Hfuel) as (g & Hinit & Hgen).
  rewrite Hinit. simpl.
  assert (Hq0 : ready track 0 (QuasiSteadyStateSolver.set_ggv g q)).
  { repeat split; simpl; try assumption;
      rewrite ?Hc, ?Ha, ?Hb, ?Ho, length_replicate; symmetry; exact Hn. }
  destruct (calculateCorneringLimit_returns track Hne Hds 0 _ Hq0) as (q1 & Hcl & Hq1).
  rewrite Hcl. simpl.
  match goal with
  | |- context [QuasiSteadyStateSolver.set_converged false ?body] =>
      assert (Hq2 : ready track 0 body)
  end.
  { apply (for_range_inv (fun _ q0 => ready track 0 q0)); [lia|exact Hq1|].
    intros i q0 _ (Ht0 & Hn0 & Hg0 & Hk0 & Hc0 & Ha0 & Hb0 & Ho0). ready_tac. }
  match type of Hq2 with
  | ready _ _ ?body =>
      assert (Hq3 : ready track 0 (QuasiSteadyStateSolver.set_converged false body))
        by (destruct Hq2 as (Ht2 & Hn2 & Hg2 & Hk2 & Hc2 & Ha2 & Hb2 & Ho2); ready_tac)
  end.
  destruct (solve_loop_returns track Hne Hds (Z.to_nat max_iterations)
              0%Z 1e9 tolerance 0%Z _ Hq3) as (q' & Hloop & _ & Hpos).
  rewrite Hloop. simpl.
  destruct (Hpos ltac:(lia)) as (Hiter & Hlap & Hnn & _).
  exists (QuasiSteadyStateSolver.lap_time_ q'), q'.
  split; [reflexivity|]. split; [reflexivity|]. split; [exact Hlap|].
  split; [exact Hnn|]. lia.
Qed.

Lemma solve_returns_witness :
  exists lap_time q',
    QuasiSteadyStateSolver.solve 241 (solver_of example_track example_vehicle) 10 0.001
    = Ok (lap_time, q')
    /\ 0 <= lap_time
    /\ (1 <= QuasiSteadyStateSolver.iterations_used_ q' <= 10)%Z.
Proof.
  assert (Hlen : (3 <= length (points_ example_track))%nat).
  { destruct (preprocess_Ok _ _ example_track_preprocess) as (_ & _ & Hl & _).
    rewrite Hl. simpl. lia. }
  destruct (solve_returns example_track example_vehicle
              (solver_of example_track example_vehicle) 10 0.001
              example_track_reachable Hlen
              (solver_new_solver_of example_track example_vehicle eq_refl
                 example_vehicle_valid)
              ltac:(lia) 241%nat ltac:(lia))
    as (lap_time & q' & Hsolve & _ & _ & Hnn & Hiter).
  exists lap_time, q'. split; [exact Hsolve|]. split; [exact Hnn|exact Hiter].
Defined.

(** * Further properties *)

(** ** The torque table *)

Lemma keys_increasing_le (curve : list (R * R)) (i j : nat) :
  keys_increasing curve -> (i <= j < length curve)%nat ->
  fst (curve !!! i) <= fst (curve !!! j).
Proof.
  intros Hs Hij. destruct (decide (i = j)) as [->|Hne]; [lra|].
  left. apply Hs. lia.
Qed.

Lemma upper_bound_sorted (curve : list (R * R)) (i : nat) (rpm : R) :
  keys_increasing curve -> (i + 1 < length curve)%nat ->
  fst (curve !!! i) <= rpm < fst (curve !!! (i + 1)%nat) ->
  Params.upper_bound curve rpm = (i + 1)%nat.
Proof.
  intros Hs Hi [Hlo Hhi].
  destruct (upper_bound_spec curve rpm) as (Hle & Hbefore & Hafter).
  set (u := Params.upper_bound curve rpm) in *.
  destruct (decide (u <= i)%nat) as [Hui|Hui].
  - exfalso. assert (Hu := Hafter ltac:(lia)).
    pose proof (keys_increasing_le curve u i Hs ltac:(lia)). lra.
  - destruct (decide (u = i + 1)%nat) as [|Hne]; [assumption|]. exfalso.
    pose proof (Hbefore (i + 1)%nat ltac:(lia)). lra.
Qed.

Lemma example_keys_increasing :
  keys_increasing (engine_torque_curve (powertrain example_vehicle)).
Proof.
  intros i j Hij. simpl in Hij.
  destruct i as [|[|[|i]]], j as [|[|[|j]]]; try lia; simpl; lra.
Qed.

(** X1: outside the table [getTorqueAt] clamps: an empty table gives 0; an
    engine speed at or below the first key (a negative speed counts as 0)
    gives the first torque; with increasing keys, a speed at or above the
    last key gives the last torque. *)
Theorem getTorqueAt_clamps (p : PowertrainParams) (rpm : R) :
  let curve := engine_torque_curve p in
  (curve = [] -> Params.getTorqueAt p rpm = 0)
  /\ (curve <> [] -> Rmax 0 rpm <= fst (curve !!! 0%nat) ->
      Params.getTorqueAt p rpm = snd (curve !!! 0%nat))
  /\ (curve <> [] -> keys_increasing curve ->
      fst (curve !!! (length curve - 1)%nat) <= Rmax 0 rpm ->
      Params.getTorqueAt p rpm = snd (curve !!! (length curve - 1)%nat)).
Proof.
  intros curve. unfold Params.getTorqueAt. fold curve.
  split; [intros ->; lra|].
  destruct curve as [|first rest] eqn:Hcurve.
  { split; intros Hne; congruence. }
  rewrite std_max_Rmax. replace 0.0 with 0 by lra.
  split.
  - intros _ Hle. simpl in Hle.
    destruct (Rle_dec (Rmax 0 rpm) (fst first)); [reflexivity|lra].
  - intros _ Hs Hge.
    destruct (Rle_dec (Rmax 0 rpm) (fst first)) as [Hle|_].
    + destruct rest as [|second rest']; [reflexivity|]. exfalso.
      assert (Hlt := Hs 0%nat (length (first :: second :: rest') - 1)%nat
                        ltac:(simpl; lia)).
      change ((first :: second :: rest') !!! 0%nat) with first in Hlt. lra.
    + destruct (Rle_dec (fst ((first :: rest) !!! (length (first :: rest) - 1)%nat))
                        (Rmax 0 rpm)); [reflexivity|lra].
Qed.

Lemma getTorqueAt_clamps_witness :
  Params.getTorqueAt (powertrain example_vehicle) (-100) = 250
  /\ Params.getTorqueAt (powertrain example_vehicle) 20000 = 300.
Proof.
  split.
  - refine (proj1 (proj2 (getTorqueAt_clamps (powertrain example_vehicle) (-100))) _ _).
    + simpl. discriminate.
    + simpl. rewrite Rmax_left; lra.
  - refine (proj2 (proj2 (getTorqueAt_clamps (powertrain example_vehicle) 20000))
                  _ example_keys_increasing _).
    + simpl. discriminate.
    + simpl. rewrite Rmax_right; lra.
Defined.

(** X2: between two neighbouring keys of a table with increasing keys,
    [getTorqueAt] is the straight line through the two entries; at a
    non-negative key it returns the stored torque. *)
Theorem getTorqueAt_interpolates (p : PowertrainParams) (i : nat) (rpm : R) :
  let curve := engine_torque_curve p in
  let rpm1 := fst (curve !!! i) in
  let torque1 := snd (curve !!! i) in
  let rpm2 := fst (curve !!! (i + 1)%nat) in
  let torque2 := snd (curve !!! (i + 1)%nat) in
  keys_increasing curve ->
  (i + 1 < length curve)%nat ->
  0 <= rpm -> rpm1 <= rpm < rpm2 ->
  Params.getTorqueAt p rpm
  = torque1 + (rpm - rpm1) / (rpm2 - rpm1) * (torque2 - torque1)
  /\ (0 <= rpm1 -> Params.getTorqueAt p rpm1 = torque1).
Proof.
  intros curve. cbv zeta. unfold Params.getTorqueAt. fold curve. clearbody curve.
  intros Hs Hi Hrpm Hin.
  destruct curve as [|first rest] eqn:Hcurve; [simpl in Hi; lia|].
  rewrite <- Hcurve in *.
  assert (Hfirst : first = curve !!! 0%nat) by (rewrite Hcurve; reflexivity).
  rewrite Hfirst. clear Hfirst Hcurve first rest.
  rewrite !std_max_Rmax. replace 0.0 with 0 by lra.
  pose proof (keys_increasing_le curve 0 i Hs ltac:(lia)) as H0i.
  assert (Hgen : forall r, fst (curve !!! i) <= r < fst (curve !!! (i + 1)%nat) ->
            (if Rle_dec r (fst (curve !!! 0%nat)) then snd (curve !!! 0%nat)
             else if Rle_dec (fst (curve !!! (length curve - 1)%nat)) r
                  then snd (curve !!! (length curve - 1)%nat)
                  else snd (curve !!! (Params.upper_bound curve r - 1)%nat)
                       + (r - fst (curve !!! (Params.upper_bound curve r - 1)%nat))
                         / (fst (curve !!! Params.upper_bound curve r)
                            - fst (curve !!! (Params.upper_bound curve r - 1)%nat))
                         * (snd (curve !!! Params.upper_bound curve r)
                            - snd (curve !!! (Params.upper_bound curve r - 1)%nat)))
            = snd (curve !!! i)
              + (r - fst (curve !!! i)) / (fst (curve !!! (i + 1)%nat) - fst (curve !!! i))
                * (snd (curve !!! (i + 1)%nat) - snd (curve !!! i))).
  { intros r Hr.
    destruct (Rle_dec r (fst (curve !!! 0%nat))) as [Hle|Hgt].
    - assert (Hi0 : i = 0%nat).
      { destruct (decide (i = 0%nat)) as [|Hne]; [assumption|]. exfalso.
        pose proof (Hs 0%nat i ltac:(lia)). lra. }
      subst i.
      replace (r - fst (curve !!! 0%nat)) with 0 by lra.
      unfold Rdiv. ring.
    - destruct (Rle_dec (fst (curve !!! (length curve - 1)%nat)) r) as [Hlast|_].
      + exfalso.
        pose proof (keys_increasing_le curve (i + 1) (length curve - 1) Hs ltac:(lia)).
        lra.
      + rewrite (upper_bound_sorted curve i r Hs Hi Hr).
        replace (i + 1 - 1)%nat with i by lia. reflexivity. }
  split.
  - rewrite Rmax_right by lra. apply Hgen. exact Hin.
  - intros Hkey. rewrite Rmax_right by lra. rewrite Hgen by lra.
    replace (fst (curve !!! i) - fst (curve !!! i)) with 0 by lra. unfold Rdiv. ring.
Qed.

Lemma getTorqueAt_interpolates_witness :
  Params.getTorqueAt (powertrain example_vehicle) 7500
  = 250 + (7500 - 5000) / (10000 - 5000) * (350 - 250).
Proof.
  refine (proj1 (getTorqueAt_interpolates (powertrain example_vehicle) 0 7500
                   example_keys_increasing _ _ _)).
  - simpl. lia.
  - lra.
  - simpl. lra.
Defined.

(** X3: with a non-empty table, [getTorqueAt] never leaves the range of the
    stored torques, whatever the engine speed and whatever the order of the
    keys. *)
Theorem getTorqueAt_within_table (p : PowertrainParams) (rpm lo hi : R) :
  engine_torque_curve p <> [] ->
  Forall (fun e => lo <= snd e <= hi) (engine_torque_curve p) ->
  lo <= Params.getTorqueAt p rpm <= hi.
Proof.
  intros Hne Hall. unfold Params.getTorqueAt.
  assert (Hat : forall i, (i < length (engine_torque_curve p))%nat ->
                          lo <= snd (engine_torque_curve p !!! i) <= hi).
  { intros i Hi. exact (proj1 (Forall_lookup_total _ _) Hall i Hi). }
  destruct (engine_torque_curve p) as [|first rest] eqn:Hcurve; [congruence|].
  set (curve := first :: rest) in *.
  set (rpm' := Std.max 0.0 rpm).
  destruct (Rle_dec rpm' (fst first)) as [_|Hfirst].
  { apply (Hat 0%nat). simpl. lia. }
  destruct (Rle_dec (fst (curve !!! (length curve - 1)%nat)) rpm') as [_|Hlast].
  { apply Hat. simpl. lia. }
  destruct (upper_bound_spec curve rpm') as (Hle & Hbefore & Hafter).
  set (u := Params.upper_bound curve rpm') in *.
  assert (Hu0 : (0 < u)%nat).
  { destruct u eqn:Hu; [|lia]. exfalso.
    assert (rpm' < fst (curve !!! 0%nat)) by (apply Hafter; simpl; lia).
    simpl in *. lra. }
  assert (Hun : (u < length curve)%nat).
  { destruct (decide (u < length curve)%nat) as [|Hge]; [assumption|]. exfalso.
    apply Hlast. apply Hbefore. simpl in *. lia. }
  assert (H1 := Hbefore (u - 1)%nat ltac:(lia)).
  assert (H2 := Hafter Hun).
  assert (Ht1 := Hat (u - 1)%nat ltac:(lia)).
  assert (Ht2 := Hat u Hun).
  set (rpm1 := fst (curve !!! (u - 1)%nat)) in *.
  set (rpm2 := fst (curve !!! u)) in *.
  set (torque1 := snd (curve !!! (u - 1)%nat)) in *.
  set (torque2 := snd (curve !!! u)) in *.
  assert (Htt : 0 <= (rpm' - rpm1) / (rpm2 - rpm1) <= 1).
  { split.
    - apply div_nonneg; lra.
    - apply div_le_1; lra. }
  set (tt := (rpm' - rpm1) / (rpm2 - rpm1)) in *.
  cbv zeta. nra.
Qed.

Lemma getTorqueAt_within_table_witness :
  250 <= Params.getTorqueAt (powertrain example_vehicle) 12345 <= 350.
Proof.
  apply getTorqueAt_within_table.
  - simpl. discriminate.
  - simpl. repeat constructor; simpl; lra.
Defined.

(** ** Gear selection *)

Lemma find_index_last (test : nat -> bool) (n : nat) :
  match Params.find_index test (reverse (seq 0 n)) with
  | Some i => (i < n)%nat /\ test i = true /\ forall j, (i < j < n)%nat -> test j = false
  | None => forall j, (j < n)%nat -> test j = false
  end.
Proof.
  induction n as [|n IH].
  - simpl. intros; lia.
  - rewrite seq_S, reverse_snoc. simpl.
    destruct (test n) eqn:Hn.
    + split; [lia|]. split; [exact Hn|]. intros; lia.
    + destruct (Params.find_index test (reverse (seq 0 n))) as [i|].
      * destruct IH as (Hi & Hti & Hafter). split; [lia|]. split; [exact Hti|].
        intros j Hj. destruct (decide (j = n)) as [->|Hne]; [exact Hn|]. apply Hafter. lia.
      * intros j Hj. destruct (decide (j = n)) as [->|Hne]; [exact Hn|]. apply IH. lia.
Qed.

Lemma find_index_first (test : nat -> bool) (n : nat) :
  forall lo,
    match Params.find_index test (seq lo n) with
    | Some i => (lo <= i < lo + n)%nat /\ test i = true
                /\ forall j, (lo <= j < i)%nat -> test j = false
    | None => forall j, (lo <= j < lo + n)%nat -> test j = false
    end.
Proof.
  induction n as [|n IH]; intros lo.
  - simpl. intros; lia.
  - simpl. destruct (test lo) eqn:Hlo.
    + split; [lia|]. split; [exact Hlo|]. intros; lia.
    + specialize (IH (S lo)).
      destruct (Params.find_index test (seq (S lo) n)) as [i|].
      * destruct IH as (Hi & Hti & Hbefore). split; [lia|]. split; [exact Hti|].
        intros j Hj. destruct (decide (j = lo)) as [->|Hne]; [exact Hlo|]. apply Hbefore. lia.
      * intros j Hj. destruct (decide (j = lo)) as [->|Hne]; [exact Hlo|]. apply IH. lia.
Qed.

(** Both functions compute the engine speed of a gear in the same way. *)
Lemma getRPM_gear_rpm (m : PowertrainModel.t) (v : R) (i : nat) :
  (i < length (gear_ratios (PowertrainModel.params_ m)))%nat ->
  PowertrainModel.getRPM m v (Z.of_nat i + 1)
  = Params.gear_rpm (PowertrainModel.params_ m) v (PowertrainModel.tire_radius_ m) i.
Proof.
  intros Hi. rewrite getRPM_valid by lia.
  unfold Params.gear_rpm, Params.PI, PowertrainModel.PI.
  replace (Z.to_nat (Z.of_nat i + 1 - 1)) with i by lia.
  replace 60.0 with 60 by lra. replace 2.0 with 2 by lra.
  unfold Rdiv. ring.
Qed.

(** X4: with at least one gear, [getOptimalGear] always answers with a gear
    that exists, at every speed. *)
Theorem getOptimalGear_valid (m : PowertrainModel.t) (v : R) :
  gear_ratios (PowertrainModel.params_ m) <> [] ->
  PowertrainModel.isValidGear m (PowertrainModel.getOptimalGear m v) = true.
Proof.
  intros Hne. apply isValidGear_true.
  assert (Hn : (1 <= length (gear_ratios (PowertrainModel.params_ m)))%nat).
  { destruct (gear_ratios (PowertrainModel.params_ m)); [congruence|simpl; lia]. }
  unfold PowertrainModel.getOptimalGear.
  destruct (Rle_dec v 0.0); [lia|].
  unfold Params.getOptimalGear.
  destruct (_ || _ || _); [lia|]. cbv zeta.
  match goal with
  | |- context [Params.find_index ?test (reverse _)] =>
      pose proof (find_index_last test
                    (length (gear_ratios (PowertrainModel.params_ m)))) as Hlast;
      destruct (Params.find_index test (reverse _)) as [i|]
  end.
  - lia.
  - match goal with
    | |- context [Params.find_index ?test (seq 0 _)] =>
        pose proof (find_index_first test
                      (length (gear_ratios (PowertrainModel.params_ m))) 0) as Hfirst;
        destruct (Params.find_index test (seq 0 _)) as [i|]
    end; lia.
Qed.

Lemma getOptimalGear_valid_witness :
  PowertrainModel.isValidGear example_powertrain_model
    (PowertrainModel.getOptimalGear example_powertrain_model 40) = true.
Proof.
  apply getOptimalGear_valid. simpl. discriminate.
Defined.

(** X5: what [getOptimalGear] selects above 0.1 m/s. Call a gear usable when
    its engine speed lies in [[min_rpm, max_rpm]], and in the power band when
    it is usable with an engine speed of at least 70 percent of [max_rpm].
    If some gear is in the power band, the highest such gear is returned;
    otherwise, if some gear is usable, the lowest usable gear; otherwise
    gear 1. *)
Theorem getOptimalGear_spec (m : PowertrainModel.t) (v : R) :
  0.1 < v -> 0 < PowertrainModel.tire_radius_ m ->
  let p := PowertrainModel.params_ m in
  let g := PowertrainModel.getOptimalGear m v in
  let usable gear :=
    PowertrainModel.isValidGear m gear = true
    /\ min_rpm p <= PowertrainModel.getRPM m v gear <= max_rpm p in
  let in_power_band gear :=
    usable gear /\ max_rpm p * 0.70 <= PowertrainModel.getRPM m v gear in
  ((exists gear, in_power_band gear) ->
   in_power_band g /\ forall gear, in_power_band gear -> (gear <= g)%Z)
  /\ ((forall gear, ~ in_power_band gear) -> (exists gear, usable gear) ->
      usable g /\ forall gear, usable gear -> (g <= gear)%Z)
  /\ ((forall gear, ~ usable gear) -> g = 1%Z).
Proof.
  intros Hv Hr p g usable in_power_band.
  set (n := length (gear_ratios p)).
  set (test1 := fun i : nat =>
                  let rpm := Params.gear_rpm p v (PowertrainModel.tire_radius_ m) i in
                  (min_rpm p <=? rpm) && (rpm <=? max_rpm p) && (max_rpm p * 0.70 <=? rpm)).
  set (test2 := fun i : nat =>
                  let rpm := Params.gear_rpm p v (PowertrainModel.tire_radius_ m) i in
                  (min_rpm p <=? rpm) && (rpm <=? max_rpm p)).
  assert (Ht1 : forall i, (i < n)%nat ->
                  (test1 i = true <-> in_power_band (Z.of_nat i + 1)%Z)).
  { intros i Hi. unfold test1, in_power_band, usable. cbv zeta.
    rewrite (getRPM_gear_rpm m v i Hi). fold p.
    rewrite !andb_true_iff, !Rleb_true, isValidGear_true. fold p. fold n.
    split; [intros [[H1 H2] H3]; repeat split; try assumption; lia|].
    intros [[_ [H1 H2]] H3]. repeat split; assumption. }
  assert (Ht2 : forall i, (i < n)%nat -> (test2 i = true <-> usable (Z.of_nat i + 1)%Z)).
  { intros i Hi. unfold test2, usable. cbv zeta.
    rewrite (getRPM_gear_rpm m v i Hi). fold p.
    rewrite !andb_true_iff, !Rleb_true, isValidGear_true. fold p. fold n.
    split; [intros [H1 H2]; repeat split; try assumption; lia|].
    intros [_ [H1 H2]]. split; assumption. }
  assert (Hgear : forall gear, PowertrainModel.isValidGear m gear = true ->
                    (Z.to_nat (gear - 1) < n)%nat
                    /\ gear = (Z.of_nat (Z.to_nat (gear - 1)) + 1)%Z).
  { intros gear Hg. apply isValidGear_true in Hg. fold p in Hg. fold n in Hg. lia. }
  assert (Hg : g = if bool_decide (gear_ratios p = [])
                   then 1%Z
                   else match Params.find_index test1 (reverse (seq 0 n)) with
                        | Some i => (Z.of_nat i + 1)%Z
                        | None => match Params.find_index test2 (seq 0 n) with
                                  | Some i => Z.of_nat (i + 1)
                                  | None => 1%Z
                                  end
                        end).
  { unfold g, PowertrainModel.getOptimalGear, Params.getOptimalGear.
    destruct (Rle_dec v 0.0) as [Hle|_]; [lra|]. fold p.
    assert (Hr' : (PowertrainModel.tire_radius_ m <=? 0.0) = false)
      by (apply Rleb_false; lra).
    assert (Hv' : (v <=? 0.1) = false) by (apply Rleb_false; lra).
    rewrite Hr', Hv', !orb_false_r. reflexivity. }
  assert (Hempty : gear_ratios p = [] -> forall gear, ~ usable gear).
  { intros He gear [Hvalid _]. apply isValidGear_true in Hvalid. fold p in Hvalid.
    rewrite He in Hvalid. simpl in Hvalid. lia. }
  pose proof (find_index_last test1 n) as Hlast.
  pose proof (find_index_first test2 n 0) as Hfirst.
  destruct (bool_decide (gear_ratios p = [])) eqn:Hbd.
  { apply bool_decide_eq_true in Hbd. specialize (Hempty Hbd).
    split; [intros (gear & Hu & _); exfalso; exact (Hempty gear Hu)|].
    split; [intros _ (gear & Hu); exfalso; exact (Hempty gear Hu)|].
    intros _. exact Hg. }
  clear Hempty.
  destruct (Params.find_index test1 (reverse (seq 0 n))) as [i|].
  - destruct Hlast as (Hi & Hti & Hafter).
    assert (Hgp : in_power_band g) by (rewrite Hg; apply Ht1; assumption).
    split; [|split].
    + intros _. split; [exact Hgp|].
      intros gear Hp. destruct (Hgear gear (proj1 (proj1 Hp))) as [Hj Heq].
      destruct (decide (gear <= g)%Z) as [|Hgt]; [assumption|]. exfalso.
      assert (Hf := Hafter (Z.to_nat (gear - 1)) ltac:(lia)).
      rewrite Heq in Hp. apply Ht1 in Hp; [congruence|exact Hj].
    + intros Hnone. exfalso. exact (Hnone g Hgp).
    + intros Hnone. exfalso. exact (Hnone g (proj1 Hgp)).
  - assert (Hnp : forall gear, ~ in_power_band gear).
    { intros gear Hp. destruct (Hgear gear (proj1 (proj1 Hp))) as [Hj Heq].
      rewrite Heq in Hp. apply Ht1 in Hp; [|exact Hj].
      rewrite (Hlast _ Hj) in Hp. discriminate. }
    split; [intros (gear & Hp); exfalso; exact (Hnp gear Hp)|].
    destruct (Params.find_index test2 (seq 0 n)) as [i|].
    + destruct Hfirst as (Hi & Hti & Hbefore).
      assert (Hgu : usable g).
      { rewrite Hg. replace (Z.of_nat (i + 1)) with (Z.of_nat i + 1)%Z by lia.
        apply Ht2; [lia|assumption]. }
      split.
      * intros _ _. split; [exact Hgu|].
        intros gear Hu. destruct (Hgear gear (proj1 Hu)) as [Hj Heq].
        destruct (decide (g <= gear)%Z) as [|Hgt]; [assumption|]. exfalso.
        assert (Hf := Hbefore (Z.to_nat (gear - 1)) ltac:(lia)).
        rewrite Heq in Hu. apply Ht2 in Hu; [congruence|exact Hj].
      * intros Hnone. exfalso. exact (Hnone g Hgu).
    + split; [|intros _; exact Hg].
      intros _ (gear & Hu). exfalso. destruct (Hgear gear (proj1 Hu)) as [Hj Heq].
      rewrite Heq in Hu. apply Ht2 in Hu; [|exact Hj].
      rewrite (Hfirst (Z.to_nat (gear - 1)) ltac:(lia)) in Hu. discriminate.
Qed.

Lemma getOptimalGear_spec_witness :
  let m := PowertrainModel.mk (powertrain example_vehicle) 0.3 in
  let g := PowertrainModel.getOptimalGear m 40 in
  (PowertrainModel.isValidGear m g = true
   /\ 4000 <= PowertrainModel.getRPM m 40 g <= 15000)
  /\ 15000 * 0.70 <= PowertrainModel.getRPM m 40 g.
Proof.
  intros m g.
  refine (proj1 (proj1 (getOptimalGear_spec m 40 _ _) _)).
  - lra.
  - simpl. lra.
  - exists 1%Z.
    assert (Hrpm : PowertrainModel.getRPM m 40 1
                   = 40 / 0.3 * (3 * 3.5) * 60 / (2 * PowertrainModel.PI)).
    { rewrite getRPM_valid by (simpl; lia). reflexivity. }
    rewrite Hrpm. unfold PowertrainModel.PI.
    split; [split; [reflexivity|]|];
      change (min_rpm (PowertrainModel.params_ m)) with 4000;
      change (max_rpm (PowertrainModel.params_ m)) with 15000; lra.
Defined.

(** ** Peak power *)

Lemma peak_power_fold (curve : list (R * R)) :
  let st := foldl PowertrainModel.peak_power_step (0.0, 0.0) curve in
  let mx := foldl (fun a e => Std.max a (entry_power e)) 0.0 curve in
  fst st = mx /\ 0 <= mx
  /\ (forall e, e ∈ curve -> entry_power e <= mx)
  /\ ((mx = 0 /\ snd st = 0)
      \/ exists e, e ∈ curve /\ mx = entry_power e /\ snd st = fst e /\ 0 < mx).
Proof.
  induction curve as [|e curve IH] using rev_ind.
  - simpl. split; [reflexivity|]. split; [lra|]. split.
    + intros e He. inversion He.
    + left. split; lra.
  - cbv zeta in *. rewrite !foldl_app. simpl.
    destruct IH as (Hfst & H0 & Hmax & Hatt).
    set (st := foldl PowertrainModel.peak_power_step (0.0, 0.0) curve) in *.
    set (mx := foldl (fun a e0 => Std.max a (entry_power e0)) 0.0 curve) in *.
    unfold PowertrainModel.peak_power_step. cbv zeta.
    change (snd e * (fst e * 2.0 * PowertrainModel.PI / 60.0)) with (entry_power e).
    rewrite Hfst. unfold Std.max.
    destruct (Rlt_dec mx (entry_power e)) as [Hlt|Hge].
    + simpl. split; [reflexivity|]. split; [lra|]. split.
      * intros e' He'. apply elem_of_app in He' as [He'|He'].
        -- pose proof (Hmax e' He'). lra.
        -- apply list_elem_of_singleton in He'. subst e'. lra.
      * right. exists e. split; [apply elem_of_app; right; apply list_elem_of_singleton; reflexivity|].
        split; [reflexivity|]. split; [reflexivity|lra].
    + split; [exact Hfst|]. split; [exact H0|]. split.
      * intros e' He'. apply elem_of_app in He' as [He'|He'].
        -- exact (Hmax e' He').
        -- apply list_elem_of_singleton in He'. subst e'. lra.
      * destruct Hatt as [Hz|(e0 & He0 & Hmx & Hsnd & Hpos)]; [left; exact Hz|].
        right. exists e0. split; [apply elem_of_app; left; exact He0|].
        split; [exact Hmx|]. split; [exact Hsnd|exact Hpos].
Qed.

(** X6: [getPeakPowerRPM] and [getMaxPower] agree. If no table entry has
    positive power both return 0; otherwise [getPeakPowerRPM] returns the key
    of an entry whose power [torque * rpm * 2 PI / 60] is the largest of the
    table, and [getMaxPower] is that power times the drivetrain efficiency. *)
Theorem peak_power_spec (m : PowertrainModel.t) :
  let curve := engine_torque_curve (PowertrainModel.params_ m) in
  let eff := drivetrain_efficiency (PowertrainModel.params_ m) in
  ((forall e, e ∈ curve -> entry_power e <= 0) ->
   PowertrainModel.getPeakPowerRPM m = 0 /\ PowertrainModel.getMaxPower m = 0)
  /\ ((exists e, e ∈ curve /\ 0 < entry_power e) ->
      exists e, e ∈ curve
                /\ PowertrainModel.getPeakPowerRPM m = fst e
                /\ (forall e', e' ∈ curve -> entry_power e' <= entry_power e)
                /\ PowertrainModel.getMaxPower m = entry_power e * eff).
Proof.
  intros curve eff.
  destruct (peak_power_fold curve) as (Hfst & H0 & Hmax & Hatt).
  unfold PowertrainModel.getPeakPowerRPM, PowertrainModel.getMaxPower.
  fold curve. fold eff.
  change (foldl _ 0.0 curve) with (foldl (fun a e => Std.max a (entry_power e)) 0.0 curve).
  cbv zeta in Hfst, H0, Hmax, Hatt.
  set (st := foldl PowertrainModel.peak_power_step (0.0, 0.0) curve) in *.
  set (mx := foldl (fun a e => Std.max a (entry_power e)) 0.0 curve) in *.
  split.
  - intros Hall.
    destruct Hatt as [[Hz Hs]|(e & He & Hmx & _ & Hpos)].
    + split; [exact Hs|]. rewrite Hz. ring.
    + exfalso. pose proof (Hall e He). lra.
  - intros (e & He & Hpos).
    destruct Hatt as [[Hz _]|(e0 & He0 & Hmx & Hsnd & _)].
    + exfalso. pose proof (Hmax e He). lra.
    + exists e0. split; [exact He0|]. split; [exact Hsnd|]. split.
      * intros e' He'. rewrite <- Hmx. exact (Hmax e' He').
      * rewrite Hmx. reflexivity.
Qed.

Lemma peak_power_spec_witness :
  exists e, e ∈ engine_torque_curve (powertrain example_vehicle)
            /\ PowertrainModel.getPeakPowerRPM
                 (PowertrainModel.mk (powertrain example_vehicle) 0.3) = fst e
            /\ forall e', e' ∈ engine_torque_curve (powertrain example_vehicle) ->
                          entry_power e' <= entry_power e.
Proof.
  destruct (proj2 (peak_power_spec (PowertrainModel.mk (powertrain example_vehicle) 0.3)))
    as (e & He & Hpeak & Hmax & _).
  - exists (5000, 250). split; [simpl; left|].
    unfold entry_power, PowertrainModel.PI. simpl fst. simpl snd. lra.
  - exists e. split; [exact He|]. split; [exact Hpeak|exact Hmax].
Defined.

(** ** TireModel: load sensitivity *)

Lemma Rpower_antitone (a b c : R) : c <= 0 -> 0 < a <= b -> Rpower b c <= Rpower a c.
Proof.
  intros Hc [Ha Hab].
  replace c with (- - c) by ring. rewrite !(Rpower_Ropp _ (- c)).
  assert (Hpa : 0 < Rpower a (- c)) by (unfold Rpower; apply exp_pos).
  assert (Hle : Rpower a (- c) <= Rpower b (- c)) by (apply Rle_Rpower_l; lra).
  apply Rinv_le_contravar; assumption.
Qed.

Lemma Rpower_pos (a c : R) : 0 < Rpower a c.
Proof. unfold Rpower. apply exp_pos. Qed.

(** The force a tire can carry, in closed form. *)
Lemma effective_force (m : TireModel.t) (Fz base_mu : R) :
  0 < Fz ->
  TireModel.getEffectiveMu m Fz base_mu * Fz
  = base_mu * 2000 * Rpower (Fz / 2000) (load_sensitivity (TireModel.params_ m)).
Proof.
  intros HFz. unfold TireModel.getEffectiveMu, TireModel.applyLoadSensitivity, Std.pow.
  destruct (Rle_dec Fz 0.0) as [Hle|_]; [lra|]. cbv zeta.
  replace 2000.0 with 2000 by lra. replace 1.0 with 1 by lra.
  set (ls := load_sensitivity (TireModel.params_ m)).
  assert (Hr : 0 < Fz / 2000) by (apply Rdiv_lt_0_compat; lra).
  replace ls with ((ls - 1) + 1) at 2 by ring.
  rewrite Rpower_plus, (Rpower_1 _ Hr). field.
Qed.

Lemma effective_force_nonpos (m : TireModel.t) (Fz base_mu : R) :
  Fz <= 0 -> TireModel.getEffectiveMu m Fz base_mu * Fz = 0.
Proof.
  intros HFz. unfold TireModel.getEffectiveMu, TireModel.applyLoadSensitivity.
  cbv zeta. destruct (Rle_dec Fz 0.0) as [_|Hgt]; lra.
Qed.

Lemma effective_force_monotone (m : TireModel.t) (Fz1 Fz2 base_mu : R) :
  0 <= load_sensitivity (TireModel.params_ m) -> 0 <= base_mu -> Fz1 <= Fz2 ->
  0 <= TireModel.getEffectiveMu m Fz1 base_mu * Fz1
    <= TireModel.getEffectiveMu m Fz2 base_mu * Fz2.
Proof.
  intros Hls Hmu H12.
  assert (Hnn : forall Fz, 0 < Fz -> 0 <= TireModel.getEffectiveMu m Fz base_mu * Fz).
  { intros Fz HFz. rewrite effective_force by exact HFz.
    pose proof (Rpower_pos (Fz / 2000) (load_sensitivity (TireModel.params_ m))).
    apply Rmult_le_pos; [lra|lra]. }
  destruct (Rle_dec Fz1 0) as [H1|H1].
  - rewrite (effective_force_nonpos m Fz1) by exact H1. split; [lra|].
    destruct (Rle_dec Fz2 0) as [H2|H2].
    + rewrite effective_force_nonpos by exact H2. lra.
    + apply Hnn. lra.
  - split; [apply Hnn; lra|].
    rewrite !effective_force by lra.
    apply Rmult_le_compat_l; [lra|].
    apply Rle_Rpower_l; [exact Hls|].
    split; [apply Rdiv_lt_0_compat; lra|].
    unfold Rdiv. apply Rmult_le_compat_r; lra.
Qed.

(** X7: the effective friction coefficient is the base coefficient at the
    reference load of 2000 N, is 0 for a load that is not positive, and, for
    a load sensitivity of at most 1 and a non-negative base coefficient,
    does not grow when the load grows. *)
Theorem getEffectiveMu_spec (m : TireModel.t) (base_mu : R) :
  TireModel.getEffectiveMu m 2000 base_mu = base_mu
  /\ (forall Fz, Fz <= 0 -> TireModel.getEffectiveMu m Fz base_mu = 0)
  /\ (load_sensitivity (TireModel.params_ m) <= 1 -> 0 <= base_mu ->
      forall Fz1 Fz2, 0 < Fz1 <= Fz2 ->
        TireModel.getEffectiveMu m Fz2 base_mu <= TireModel.getEffectiveMu m Fz1 base_mu).
Proof.
  unfold TireModel.getEffectiveMu, TireModel.applyLoadSensitivity, Std.pow.
  split; [|split].
  - destruct (Rle_dec 2000 0.0) as [Hle|_]; [lra|]. cbv zeta.
    replace (2000 / 2000.0) with 1 by lra. rewrite Rpower_base_1. ring.
  - intros Fz HFz. destruct (Rle_dec Fz 0.0) as [_|Hgt]; [lra|lra].
  - intros Hls Hmu Fz1 Fz2 [H1 H12].
    destruct (Rle_dec Fz1 0.0) as [Hle|_]; [lra|].
    destruct (Rle_dec Fz2 0.0) as [Hle|_]; [lra|]. cbv zeta.
    apply Rmult_le_compat_l; [exact Hmu|].
    apply Rpower_antitone; [lra|].
    split; [apply Rdiv_lt_0_compat; lra|].
    unfold Rdiv. apply Rmult_le_compat_r; lra.
Qed.

Lemma getEffectiveMu_spec_witness :
  TireModel.getEffectiveMu (TireModel.new Params.TireParams_default) 4000 1.6
  <= TireModel.getEffectiveMu (TireModel.new Params.TireParams_default) 3000 1.6.
Proof.
  refine (proj2 (proj2 (getEffectiveMu_spec (TireModel.new Params.TireParams_default) 1.6))
                _ _ 3000 4000 _).
  - simpl. lra.
  - lra.
  - lra.
Defined.

(** X8: for a non-negative load sensitivity and non-negative friction
    coefficients, the longitudinal, lateral and combined force limits of the
    tire are non-negative and do not shrink when the vertical load grows. *)
Theorem tire_limits_monotone (m : TireModel.t) (Fz1 Fz2 : R) :
  0 <= load_sensitivity (TireModel.params_ m) ->
  0 <= mu_x (TireModel.params_ m) -> 0 <= mu_y (TireModel.params_ m) ->
  Fz1 <= Fz2 ->
  0 <= TireModel.getMaxLongitudinalForce m Fz1 <= TireModel.getMaxLongitudinalForce m Fz2
  /\ 0 <= TireModel.getMaxLateralForce m Fz1 <= TireModel.getMaxLateralForce m Fz2
  /\ 0 <= TireModel.getMaxTotalForce m Fz1 <= TireModel.getMaxTotalForce m Fz2.
Proof.
  intros Hls Hx Hy H12.
  unfold TireModel.getMaxLongitudinalForce, TireModel.getMaxLateralForce,
    TireModel.getMaxTotalForce. cbv zeta.
  split; [|split]; apply effective_force_monotone; try assumption.
  apply div_nonneg; lra.
Qed.

Lemma tire_limits_monotone_witness :
  TireModel.getMaxTotalForce (TireModel.new Params.TireParams_default) 3000
  <= TireModel.getMaxTotalForce (TireModel.new Params.TireParams_default) 4000.
Proof.
  refine (proj2 (proj2 (proj2 (tire_limits_monotone
                                 (TireModel.new Params.TireParams_default) 3000 4000
                                 _ _ _ _)))); simpl; lra.
Defined.

(** ** TireModel: the force left for the other direction *)

Lemma available_force_antitone (F_max a b : R) :
  Rabs a <= Rabs b ->
  (if Rle_dec (F_max * F_max) (b * b) then 0.0 else sqrt (F_max * F_max - b * b))
  <= (if Rle_dec (F_max * F_max) (a * a) then 0.0 else sqrt (F_max * F_max - a * a)).
Proof.
  intros Hab. apply Rsqr_le_abs_1 in Hab. unfold Rsqr in Hab.
  destruct (Rle_dec (F_max * F_max) (b * b)) as [Hb|Hb];
    destruct (Rle_dec (F_max * F_max) (a * a)) as [Ha|Ha]; try lra.
  - replace 0.0 with 0 by lra. apply sqrt_pos.
  - apply sqrt_le_1_alt. lra.
Qed.

(** X9: the more force a tire already transmits in one direction, the less
    [getAvailableLongitudinalForce] and [getAvailableLateralForce] leave for
    the other; only the magnitude of the force in use matters. *)
Theorem available_force_monotone (m : TireModel.t) (Fz F1 F2 : R) :
  Rabs F1 <= Rabs F2 ->
  TireModel.getAvailableLongitudinalForce m Fz F2
  <= TireModel.getAvailableLongitudinalForce m Fz F1
  /\ TireModel.getAvailableLateralForce m Fz F2
     <= TireModel.getAvailableLateralForce m Fz F1.
Proof.
  intros H12.
  unfold TireModel.getAvailableLongitudinalForce, TireModel.getAvailableLateralForce.
  cbv zeta. split; apply available_force_antitone; exact H12.
Qed.

Lemma available_force_monotone_witness :
  TireModel.getAvailableLongitudinalForce (TireModel.new Params.TireParams_default) 2000 (-3000)
  <= TireModel.getAvailableLongitudinalForce (TireModel.new Params.TireParams_default) 2000 1000.
Proof.
  refine (proj1 (available_force_monotone (TireModel.new Params.TireParams_default)
                   2000 1000 (-3000) _)).
  rewrite (Rabs_right 1000) by lra. rewrite (Rabs_left (-3000)) by lra. lra.
Defined.

(** ** GGVGenerator: the envelope shrinks with lateral acceleration *)

Lemma std_min_mono_r (a b c : R) : b <= c -> Std.min a b <= Std.min a c.
Proof. intros H. rewrite !std_min_Rmin. apply Rle_min_compat_l. exact H. Qed.

Lemma std_min_mono_l (a b c : R) : a <= b -> Std.min a c <= Std.min b c.
Proof. intros H. rewrite !std_min_Rmin. apply Rle_min_compat_r. exact H. Qed.

Lemma std_max_mono_r (a b c : R) : b <= c -> Std.max a b <= Std.max a c.
Proof. intros H. rewrite !std_max_Rmax. apply Rle_max_compat_l. exact H. Qed.

Lemma std_max_mono_l (a b c : R) : a <= b -> Std.max a c <= Std.max b c.
Proof. intros H. rewrite !std_max_Rmax. apply Rle_max_compat_r. exact H. Qed.

Lemma div_mono (a b m : R) : 0 < m -> a <= b -> a / m <= b / m.
Proof.
  intros Hm Hab. unfold Rdiv. apply Rmult_le_compat_r; [|exact Hab].
  left. apply Rinv_0_lt_compat. exact Hm.
Qed.

(** X10: for a positive vehicle mass, asking for more lateral acceleration
    never enlarges the longitudinal envelope: [calculateMaxAcceleration] does
    not grow and [calculateMaxBraking] does not become more negative. *)
Theorem ggv_shrinks_with_lateral (g0 : GGVGenerator.t) (v ay1 ay2 : R) :
  0 < mass (mass_params (GGVGenerator.vehicle_ g0)) ->
  Rabs ay1 <= Rabs ay2 ->
  GGVGenerator.calculateMaxAcceleration g0 v ay2
  <= GGVGenerator.calculateMaxAcceleration g0 v ay1
  /\ GGVGenerator.calculateMaxBraking g0 v ay1
     <= GGVGenerator.calculateMaxBraking g0 v ay2.
Proof.
  intros Hm H12.
  set (m := mass (mass_params (GGVGenerator.vehicle_ g0))) in *.
  assert (HF : Rabs (m * ay1) <= Rabs (m * ay2)).
  { rewrite !Rabs_mult. apply Rmult_le_compat_l; [apply Rabs_pos|exact H12]. }
  unfold GGVGenerator.calculateMaxAcceleration, GGVGenerator.calculateMaxBraking.
  cbv zeta. fold m.
  set (v' := if Rlt_dec v 0.1 then 0.1 else v).
  set (Fz := AerodynamicsModel.getTotalVerticalLoad (GGVGenerator.aero_model_ g0) v' m GRAVITY).
  assert (Hx : TireModel.getAvailableLongitudinalForce (GGVGenerator.tire_model_ g0) Fz
                 (m * ay2)
               <= TireModel.getAvailableLongitudinalForce (GGVGenerator.tire_model_ g0) Fz
                    (m * ay1)).
  { unfold TireModel.getAvailableLongitudinalForce. cbv zeta.
    apply available_force_antitone. exact HF. }
  split.
  - apply std_max_mono_r, std_min_mono_l, div_mono; [exact Hm|].
    apply Rplus_le_compat_r. apply std_min_mono_r. exact Hx.
  - apply std_max_mono_l, div_mono; [exact Hm|].
    apply Ropp_le_contravar. apply Rplus_le_compat_r. apply std_min_mono_l. exact Hx.
Qed.

Lemma ggv_shrinks_with_lateral_witness :
  GGVGenerator.calculateMaxAcceleration (ggv_of example_vehicle) 40 20
  <= GGVGenerator.calculateMaxAcceleration (ggv_of example_vehicle) 40 (-5).
Proof.
  refine (proj1 (ggv_shrinks_with_lateral (ggv_of example_vehicle) 40 (-5) 20 _ _)).
  - simpl. lra.
  - rewrite (Rabs_left (-5)) by lra. rewrite (Rabs_right 20) by lra. lra.
Defined.

(** ** GGVGenerator: queries *)

(** X11: the constructor fails exactly for a tire radius that is not
    positive. On a generator it returned, both queries throw until
    [generate] has run, and return ever after. *)
Theorem ggv_query_lifecycle (vehicle : VehicleParams) :
  (throws (GGVGenerator.new vehicle) <-> tire_radius (tire vehicle) <= 0)
  /\ forall g0, GGVGenerator.new vehicle = Ok g0 ->
       (forall v ay, throws (GGVGenerator.getMaxAcceleration g0 v ay)
                     /\ throws (GGVGenerator.getMaxBraking g0 v ay))
       /\ (forall fuel v_min v_max v_step ay_max ay_step g1,
             GGVGenerator.generate fuel g0 v_min v_max v_step ay_max ay_step = Ok g1 ->
             forall v ay, returns (GGVGenerator.getMaxAcceleration g1 v ay)
                          /\ returns (GGVGenerator.getMaxBraking g1 v ay)).
Proof.
  split.
  - unfold GGVGenerator.new, PowertrainModel.new.
    destruct (Rle_dec (tire_radius (tire vehicle)) 0.0) as [Hle|Hgt]; simpl.
    + split; [intros _; lra|]. intros _. eexists. reflexivity.
    + split; [intros [e He]; discriminate|]. intros Hle. lra.
  - intros g0 Hnew. split.
    + intros v ay.
      assert (Hgen : GGVGenerator.generated_ g0 = false).
      { unfold GGVGenerator.new in Hnew.
        destruct (PowertrainModel.new _ _); simpl in Hnew; try discriminate.
        injection Hnew as <-. reflexivity. }
      unfold GGVGenerator.getMaxAcceleration, GGVGenerator.getMaxBraking.
      rewrite Hgen. simpl. split; eexists; reflexivity.
    + intros fuel v_min v_max v_step ay_max ay_step g1 Hg v ay.
      destruct (generate_Ok _ _ _ _ _ _ _ _ Hg) as (Hgen & _).
      rewrite getMaxAcceleration_generated, getMaxBraking_generated by exact Hgen.
      split; eexists; reflexivity.
Qed.

Lemma ggv_query_lifecycle_witness :
  throws (GGVGenerator.getMaxAcceleration (ggv_of example_vehicle) 40 5).
Proof.
  refine (proj1 (proj1 (proj2 (ggv_query_lifecycle example_vehicle)
                          (ggv_of example_vehicle) _) 40 5)).
  apply GGVGenerator_new_ggv_of. simpl. lra.
Defined.

Lemma to_int_floor (x : R) :
  0 <= x -> (0 <= Std.to_int x)%Z /\ 0 <= x - IZR (Std.to_int x) < 1.
Proof.
  intros Hx. unfold Std.to_int. destruct (Rle_dec 0 x) as [_|Hn]; [|lra].
  destruct (base_Int_part x) as [Hle Hgt]. split; [|lra].
  assert (H : (-1 < Int_part x)%Z) by (apply lt_IZR; lra). lia.
Qed.

Lemma to_int_INR (n : nat) : Std.to_int (INR n) = Z.of_nat n.
Proof.
  unfold Std.to_int. destruct (Rle_dec 0 (INR n)) as [_|Hn].
  - apply Int_part_INR.
  - exfalso. apply Hn. apply pos_INR.
Qed.

(** The bilinear interpolation is a convex combination of four stored values,
    with 0 standing in for nodes outside the table. *)
Lemma interpolate_convex (P : R -> Prop) (field : GGVPoint -> R) (g : GGVGenerator.t)
      (v ay : R) :
  (forall a b t, P a -> P b -> 0 <= t <= 1 -> P (a * (1 - t) + b * t)) ->
  P 0.0 ->
  0 < GGVGenerator.v_step_ g -> 0 < GGVGenerator.ay_step_ g ->
  Forall (fun p => P (field p)) (GGVGenerator.ggv_points_ g) ->
  P (GGVGenerator.interpolate field g v ay).
Proof.
  intros Hconv H0 Hvs Has Hall. unfold GGVGenerator.interpolate. cbv zeta.
  set (v' := Std.max (GGVGenerator.v_min_ g) (Std.min (GGVGenerator.v_max_ g) v)).
  set (ay' := Std.max 0.0 (Std.min (GGVGenerator.ay_max_ g) ay)).
  assert (Hv' : 0 <= (v' - GGVGenerator.v_min_ g) / GGVGenerator.v_step_ g).
  { apply div_nonneg; [|exact Hvs]. pose proof (std_max_ge_l (GGVGenerator.v_min_ g)
      (Std.min (GGVGenerator.v_max_ g) v)). fold v' in H. lra. }
  assert (Hay' : 0 <= ay' / GGVGenerator.ay_step_ g).
  { apply div_nonneg; [|exact Has].
    pose proof (std_max_ge_l 0.0 (Std.min (GGVGenerator.ay_max_ g) ay)). fold ay' in H. lra. }
  destruct (to_int_floor _ Hv') as [_ Hvt].
  destruct (to_int_floor _ Hay') as [_ Hat].
  assert (Hval : forall index : Z,
            P (if (0 <=? index)%Z
                  && (index <? Z.of_nat (length (GGVGenerator.ggv_points_ g)))%Z
               then field (GGVGenerator.ggv_points_ g !!! Z.to_nat index)
               else 0.0)).
  { intros index.
    destruct ((0 <=? index)%Z && (index <? Z.of_nat (length (GGVGenerator.ggv_points_ g)))%Z)
      eqn:Hin; [|exact H0].
    apply andb_true_iff in Hin as [H1 H2].
    apply Z.leb_le in H1. apply Z.ltb_lt in H2.
    apply (proj1 (Forall_lookup_total _ _) Hall). lia. }
  apply Hconv; [apply Hconv; [apply Hval|apply Hval|lra]
               |apply Hconv; [apply Hval|apply Hval|lra]|lra].
Qed.

(** X12: once the table is generated with positive steps, every query of the
    envelope is within the clamps of the generator: the acceleration lies in
    [[0, 50]] and the braking value is at least -60, for every speed and
    lateral acceleration, on or off the grid; the braking value is at most 0
    when drag cannot push (positive mass, air density and frontal area,
    non-negative brake force and drag coefficient). *)
Theorem ggv_query_bounds (fuel : nat) (g0 g1 : GGVGenerator.t)
        (v_min v_max v_step ay_max ay_step : R) :
  GGVGenerator.generate fuel g0 v_min v_max v_step ay_max ay_step = Ok g1 ->
  0 < v_step -> 0 < ay_step ->
  forall v ay,
    exists a b,
      GGVGenerator.getMaxAcceleration g1 v ay = Ok a
      /\ GGVGenerator.getMaxBraking g1 v ay = Ok b
      /\ 0 <= a <= 50 /\ -60 <= b
      /\ (0 < mass (mass_params (GGVGenerator.vehicle_ g0)) ->
          0 <= max_brake_force (brake (GGVGenerator.vehicle_ g0)) ->
          0 < air_density (AerodynamicsModel.params_ (GGVGenerator.aero_model_ g0)) ->
          0 < frontal_area (AerodynamicsModel.params_ (GGVGenerator.aero_model_ g0)) ->
          0 <= Cd (AerodynamicsModel.params_ (GGVGenerator.aero_model_ g0)) ->
          b <= 0).
Proof.
  intros Hg Hvs Has v ay.
  destruct (generate_Ok _ _ _ _ _ _ _ _ Hg) as (Hgen & _ & _ & Hvstep & _ & Hastep & Hpts).
  rewrite getMaxAcceleration_generated, getMaxBraking_generated by exact Hgen.
  eexists. eexists. split; [reflexivity|]. split; [reflexivity|].
  assert (Hvs1 : 0 < GGVGenerator.v_step_ g1) by (rewrite Hvstep; exact Hvs).
  assert (Has1 : 0 < GGVGenerator.ay_step_ g1) by (rewrite Hastep; exact Has).
  split; [|split].
  - apply (interpolate_convex (fun x => 0 <= x <= 50)); try assumption.
    + intros a b t Ha Hb Ht. nra.
    + lra.
    + apply Hpts. intros v0 ay0. simpl. apply calculateMaxAcceleration_bounds.
  - apply (interpolate_convex (fun x => -60 <= x)); try assumption.
    + intros a b t Ha Hb Ht. nra.
    + lra.
    + apply Hpts. intros v0 ay0. simpl. apply calculateMaxBraking_lower.
  - intros Hm Hb Hrho HA HCd.
    apply (interpolate_convex (fun x => x <= 0)); try assumption.
    + intros a b t Ha Hb' Ht. nra.
    + lra.
    + apply Hpts. intros v0 ay0. simpl. apply calculateMaxBraking_upper; assumption.
Qed.

Lemma ggv_query_bounds_witness :
  exists g1 a b,
    GGVGenerator.generate 2 (ggv_of example_vehicle) 10 10 1 0 1 = Ok g1
    /\ GGVGenerator.getMaxAcceleration g1 33 7 = Ok a
    /\ GGVGenerator.getMaxBraking g1 33 7 = Ok b
    /\ 0 <= a <= 50 /\ -60 <= b <= 0.
Proof.
  destruct (generate_v_returns 2 2 (ggv_of example_vehicle) 10 10 1 0 1 []
              ltac:(lra) ltac:(simpl; lra) ltac:(lra) ltac:(simpl; lra)) as (pts & Hpts).
  assert (Hg : GGVGenerator.generate 2 (ggv_of example_vehicle) 10 10 1 0 1
               = Ok (GGVGenerator.mk example_vehicle
                       (AerodynamicsModel.new (aero example_vehicle))
                       (TireModel.new (tire example_vehicle))
                       (PowertrainModel.mk (powertrain example_vehicle)
                          (tire_radius (tire example_vehicle)))
                       pts true 10 10 1 0.0 0 1)).
  { unfold GGVGenerator.generate. rewrite Hpts. reflexivity. }
  destruct (ggv_query_bounds 2 _ _ 10 10 1 0 1 Hg ltac:(lra) ltac:(lra) 33 7)
    as (a & b & Ha & Hb & Hab & Hlo & Hup).
  eexists. exists a, b. split; [exact Hg|]. split; [exact Ha|]. split; [exact Hb|].
  split; [exact Hab|]. split; [exact Hlo|].
  apply Hup; simpl; lra.
Defined.

(** ** GGVGenerator: the layout of the table *)

Lemma mul_le_div (a b c : R) : 0 < c -> (a * c <= b <-> a <= b / c).
Proof.
  intros Hc. assert (Hbc : b / c * c = b) by (field; lra).
  split; intros H.
  - apply (Rmult_le_reg_r c); [exact Hc|]. rewrite Hbc. exact H.
  - rewrite <- Hbc. apply Rmult_le_compat_r; lra.
Qed.

(** How many multiples of the step fit below [x]: the count that
    [interpolate] uses for the row length. *)
Lemma grid_count (x : R) (k : nat) :
  0 <= x -> (INR k <= x <-> (k < Z.to_nat (Std.to_int x + 1))%nat).
Proof.
  intros Hx. destruct (to_int_floor x Hx) as [H0 Hfl].
  rewrite INR_IZR_INZ. split; intros H.
  - assert (Hlt : (Z.of_nat k < Std.to_int x + 1)%Z).
    { apply lt_IZR. rewrite plus_IZR. lra. }
    lia.
  - assert (Hle : (Z.of_nat k <= Std.to_int x)%Z) by lia.
    apply IZR_le in Hle. lra.
Qed.

Lemma lookup_total_map_seq {A : Type} `{Inhabited A} (f : nat -> A) (n : nat) :
  forall lo j, (j < n)%nat -> map f (seq lo n) !!! j = f (lo + j)%nat.
Proof.
  induction n as [|n IH]; intros lo j Hj; [lia|].
  destruct j as [|j]; simpl.
  - rewrite Nat.add_0_r. reflexivity.
  - change (map f (seq (S lo) n) !!! j = f (lo + S j)%nat).
    rewrite IH by lia. f_equal. lia.
Qed.

(** The inner loop appends one row: the points at [0, ay_step, 2 ay_step, ...]
    up to [ay_max]. *)
Lemma generate_ay_row (g0 : GGVGenerator.t) (v ay_max ay_step : R) :
  0 < ay_step -> 0 <= ay_max ->
  let J := Z.to_nat (Std.to_int ((ay_max - 0.0) / ay_step) + 1) in
  forall fuel k pts res,
    GGVGenerator.generate_ay fuel g0 v (INR k * ay_step) ay_max ay_step pts = Ok res ->
    res = pts ++ map (fun j => GGVGenerator.make_point g0 v (INR j * ay_step))
                     (seq k (J - k)).
Proof.
  intros Hstep Hmax J.
  assert (Hx : 0 <= (ay_max - 0.0) / ay_step) by (apply div_nonneg; lra).
  assert (Hcount : forall k, INR k * ay_step <= ay_max <-> (k < J)%nat).
  { intros k. unfold J. rewrite <- (grid_count _ k Hx). rewrite <- mul_le_div by exact Hstep.
    split; intros; lra. }
  induction fuel as [|fuel IH]; intros k pts res Hres; simpl in Hres.
  - destruct (Rle_dec (INR k * ay_step) ay_max) as [Hle|Hgt]; [discriminate|].
    injection Hres as <-.
    assert (Hk : ~ (k < J)%nat) by (intros Hk; apply Hgt, Hcount, Hk).
    replace (J - k)%nat with 0%nat by lia. simpl. rewrite app_nil_r. reflexivity.
  - destruct (Rle_dec (INR k * ay_step) ay_max) as [Hle|Hgt].
    + replace (INR k * ay_step + ay_step) with (INR (S k) * ay_step) in Hres
        by (rewrite S_INR; ring).
      apply IH in Hres. rewrite Hres.
      apply Hcount in Hle.
      replace (J - k)%nat with (S (J - S k)) by lia.
      simpl. rewrite <- app_assoc. reflexivity.
    + injection Hres as <-.
      assert (Hk : ~ (k < J)%nat) by (intros Hk; apply Hgt, Hcount, Hk).
      replace (J - k)%nat with 0%nat by lia. simpl. rewrite app_nil_r. reflexivity.
Qed.

(** The outer loop appends the rows for [v_min, v_min + v_step, ...]: the
    point for the [i]-th speed and the [j]-th lateral acceleration sits at
    position [i * J + j]. *)
Lemma generate_v_rows (g0 : GGVGenerator.t) (v_min v_max v_step ay_max ay_step : R) :
  0 < v_step -> 0 < ay_step -> 0 <= ay_max ->
  let J := Z.to_nat (Std.to_int ((ay_max - 0.0) / ay_step) + 1) in
  forall fuel fuel_ay k pts res,
    GGVGenerator.generate_v fuel fuel_ay g0 (v_min + INR k * v_step) v_max v_step
                            ay_max ay_step pts = Ok res ->
    (exists rest, res = pts ++ rest)
    /\ forall i j, (k <= i)%nat -> v_min + INR i * v_step <= v_max -> (j < J)%nat ->
         (length pts + (i - k) * J + j < length res)%nat
         /\ res !!! (length pts + (i - k) * J + j)%nat
            = GGVGenerator.make_point g0 (v_min + INR i * v_step) (INR j * ay_step).
Proof.
  intros Hvs Has Hmax J.
  assert (Hmono : forall k i, (k <= i)%nat -> INR k * v_step <= INR i * v_step).
  { intros k i Hki. apply Rmult_le_compat_r; [lra|]. apply le_INR. exact Hki. }
  induction fuel as [|fuel IH]; intros fuel_ay k pts res Hres; simpl in Hres.
  - destruct (Rle_dec (v_min + INR k * v_step) v_max) as [Hle|Hgt]; [discriminate|].
    injection Hres as <-. split; [exists []; rewrite app_nil_r; reflexivity|].
    intros i j Hki Hi Hj. exfalso. pose proof (Hmono k i Hki). lra.
  - destruct (Rle_dec (v_min + INR k * v_step) v_max) as [Hle|Hgt].
    + destruct (GGVGenerator.generate_ay fuel_ay g0 (v_min + INR k * v_step) 0.0
                  ay_max ay_step pts) as [pts1| |] eqn:Hrow; simpl in Hres;
        try discriminate.
      replace 0.0 with (INR 0 * ay_step) in Hrow at 1 by (simpl; lra).
      apply (generate_ay_row g0 _ ay_max ay_step Has Hmax) in Hrow.
      fold J in Hrow. rewrite Nat.sub_0_r in Hrow.
      replace (v_min + INR k * v_step + v_step) with (v_min + INR (S k) * v_step) in Hres
        by (rewrite S_INR; ring).
      apply IH in Hres as [[rest Hrest] Hat].
      assert (Hlen1 : length pts1 = (length pts + J)%nat).
      { rewrite Hrow, length_app, length_map, length_seq. reflexivity. }
      split.
      * exists (map (fun j => GGVGenerator.make_point g0 (v_min + INR k * v_step)
                                (INR j * ay_step)) (seq 0 J) ++ rest).
        rewrite Hrest, Hrow, <- app_assoc. reflexivity.
      * intros i j Hki Hi Hj.
        destruct (decide (i = k)) as [->|Hne].
        -- replace (k - k)%nat with 0%nat by lia. simpl. rewrite Nat.add_0_r.
           split.
           ++ rewrite Hrest, length_app. lia.
           ++ rewrite Hrest, lookup_total_app_l by lia.
              rewrite Hrow, lookup_total_app_r by lia.
              replace (length pts + j - length pts)%nat with j by lia.
              rewrite lookup_total_map_seq by exact Hj. reflexivity.
        -- destruct (Hat i j ltac:(lia) Hi Hj) as [Hlt Hval].
           replace (length pts + (i - k) * J + j)%nat
             with (length pts1 + (i - S k) * J + j)%nat.
           ++ split; assumption.
           ++ rewrite Hlen1. replace (i - k)%nat with (S (i - S k)) by lia. simpl. lia.
    + injection Hres as <-. split; [exists []; rewrite app_nil_r; reflexivity|].
      intros i j Hki Hi Hj. exfalso. pose proof (Hmono k i Hki). lra.
Qed.

(** At a node of the grid the interpolation reads one stored point. *)
Lemma interpolate_at_node (field : GGVPoint -> R) (g : GGVGenerator.t) (v ay : R) (i j : nat) :
  let num_ay_points :=
    (Std.to_int ((GGVGenerator.ay_max_ g - GGVGenerator.ay_min_ g) / GGVGenerator.ay_step_ g)
     + 1)%Z in
  (Std.max (GGVGenerator.v_min_ g) (Std.min (GGVGenerator.v_max_ g) v)
   - GGVGenerator.v_min_ g) / GGVGenerator.v_step_ g = INR i ->
  Std.max 0.0 (Std.min (GGVGenerator.ay_max_ g) ay) / GGVGenerator.ay_step_ g = INR j ->
  (0 <= num_ay_points)%Z ->
  (Z.of_nat i * num_ay_points + Z.of_nat j < Z.of_nat (length (GGVGenerator.ggv_points_ g)))%Z ->
  GGVGenerator.interpolate field g v ay
  = field (GGVGenerator.ggv_points_ g !!! Z.to_nat (Z.of_nat i * num_ay_points + Z.of_nat j)).
Proof.
  intros num Hv Hay Hnum Hidx. unfold GGVGenerator.interpolate. cbv zeta.
  rewrite Hv, Hay, !to_int_INR. fold num.
  assert (Hin : ((0 <=? Z.of_nat i * num + Z.of_nat j)%Z
                 && (Z.of_nat i * num + Z.of_nat j
                     <? Z.of_nat (length (GGVGenerator.ggv_points_ g)))%Z) = true).
  { apply andb_true_iff. split; [apply Z.leb_le; nia|apply Z.ltb_lt; exact Hidx]. }
  rewrite Hin. rewrite <- !INR_IZR_INZ. ring.
Qed.

(** X13: at every node of the grid the query returns exactly what
    [calculateMaxAcceleration] and [calculateMaxBraking] computed for that
    node when the table was generated. *)
Theorem ggv_query_at_node (fuel : nat) (g0 g1 : GGVGenerator.t)
        (v_min v_max v_step ay_max ay_step : R) (i j : nat) :
  GGVGenerator.generate fuel g0 v_min v_max v_step ay_max ay_step = Ok g1 ->
  0 < v_step -> 0 < ay_step ->
  let v := v_min + INR i * v_step in
  let ay := INR j * ay_step in
  v <= v_max -> ay <= ay_max ->
  GGVGenerator.getMaxAcceleration g1 v ay
  = Ok (GGVGenerator.calculateMaxAcceleration g0 v ay)
  /\ GGVGenerator.getMaxBraking g1 v ay
     = Ok (GGVGenerator.calculateMaxBraking g0 v ay).
Proof.
  intros Hg Hvs Has v ay Hv Hay.
  assert (Hj0 : 0 <= INR j) by apply pos_INR.
  assert (Hi0 : 0 <= INR i) by apply pos_INR.
  assert (Hay0 : 0 <= ay) by (apply Rmult_le_pos; lra).
  assert (Hvmin : v_min <= v).
  { unfold v. assert (0 <= INR i * v_step) by (apply Rmult_le_pos; lra). lra. }
  assert (Hmax : 0 <= ay_max) by lra.
  unfold GGVGenerator.generate in Hg.
  destruct (GGVGenerator.generate_v fuel fuel g0 v_min v_max v_step ay_max ay_step [])
    as [pts| |] eqn:Hpts; simpl in Hg; try discriminate.
  injection Hg as <-.
  replace v_min with (v_min + INR 0 * v_step) in Hpts at 1 by (simpl; lra).
  apply (generate_v_rows g0 v_min v_max v_step ay_max ay_step Hvs Has Hmax) in Hpts
    as [_ Hat].
  set (J := Z.to_nat (Std.to_int ((ay_max - 0.0) / ay_step) + 1)) in *.
  assert (Hx : 0 <= (ay_max - 0.0) / ay_step) by (apply div_nonneg; lra).
  destruct (to_int_floor _ Hx) as [Hfl _].
  assert (HjJ : (j < J)%nat).
  { apply (grid_count _ j Hx). apply mul_le_div; [exact Has|]. fold ay. lra. }
  destruct (Hat i j ltac:(lia) Hv HjJ) as [Hlt Hval].
  simpl in Hlt, Hval. rewrite Nat.sub_0_r in Hlt, Hval.
  unfold GGVGenerator.getMaxAcceleration, GGVGenerator.getMaxBraking,
    GGVGenerator.interpolateAcceleration, GGVGenerator.interpolateBraking.
  cbn [GGVGenerator.generated_ negb].
  assert (Habs : Std.abs ay = ay) by (apply Rabs_right; lra).
  rewrite Habs.
  assert (Hnode : forall field,
            GGVGenerator.interpolate field
              (GGVGenerator.mk (GGVGenerator.vehicle_ g0) (GGVGenerator.aero_model_ g0)
                 (GGVGenerator.tire_model_ g0) (GGVGenerator.powertrain_model_ g0)
                 pts true v_min v_max v_step 0.0 ay_max ay_step) v ay
            = field (GGVGenerator.make_point g0 v ay)).
  { intros field. rewrite (interpolate_at_node field _ v ay i j);
      cbn [GGVGenerator.v_min_ GGVGenerator.v_max_ GGVGenerator.v_step_
           GGVGenerator.ay_min_ GGVGenerator.ay_max_ GGVGenerator.ay_step_
           GGVGenerator.ggv_points_].
    - replace (Z.to_nat (Z.of_nat i * (Std.to_int ((ay_max - 0.0) / ay_step) + 1)
                         + Z.of_nat j)) with (i * J + j)%nat by (unfold J; nia).
      rewrite Hval. reflexivity.
    - rewrite std_max_Rmax, std_min_Rmin, Rmin_right, Rmax_right by lra.
      unfold v. field. lra.
    - rewrite std_max_Rmax, std_min_Rmin, Rmin_right, Rmax_right by lra.
      unfold ay. field. lra.
    - lia.
    - assert (Hnat : (Z.of_nat i * (Std.to_int ((ay_max - 0.0) / ay_step) + 1)
                     + Z.of_nat j = Z.of_nat (i * J + j))%Z) by (unfold J; nia).
      rewrite Hnat. lia. }
  rewrite !Hnode. split; reflexivity.
Qed.

Lemma ggv_query_at_node_witness :
  exists g1,
    GGVGenerator.generate 2 (ggv_of example_vehicle) 10 10 1 0 1 = Ok g1
    /\ GGVGenerator.getMaxAcceleration g1 (10 + INR 0 * 1) (INR 0 * 1)
       = Ok (GGVGenerator.calculateMaxAcceleration (ggv_of example_vehicle)
               (10 + INR 0 * 1) (INR 0 * 1)).
Proof.
  destruct (generate_v_returns 2 2 (ggv_of example_vehicle) 10 10 1 0 1 []
              ltac:(lra) ltac:(simpl; lra) ltac:(lra) ltac:(simpl; lra)) as (pts & Hpts).
  assert (Hg : GGVGenerator.generate 2 (ggv_of example_vehicle) 10 10 1 0 1
               = Ok (GGVGenerator.mk example_vehicle
                       (AerodynamicsModel.new (aero example_vehicle))
                       (TireModel.new (tire example_vehicle))
                       (PowertrainModel.mk (powertrain example_vehicle)
                          (tire_radius (tire example_vehicle)))
                       pts true 10 10 1 0.0 0 1)).
  { unfold GGVGenerator.generate. rewrite Hpts. reflexivity. }
  eexists. split; [exact Hg|].
  refine (proj1 (ggv_query_at_node 2 _ _ 10 10 1 0 1 0 0 Hg _ _ _ _)).
  - lra.
  - lra.
  - simpl. lra.
  - simpl. lra.
Defined.

(** ** Loops that may throw: what a finished loop has established *)

Lemma for_each_m_preserves {S : Type} (I : S -> Prop) (body : nat -> S -> outcome S)
      (idxs : list nat) :
  forall st st',
    for_each_m body idxs st = Ok st' -> I st ->
    (forall i st0 st1, i ∈ idxs -> I st0 -> body i st0 = Ok st1 -> I st1) ->
    I st'.
Proof.
  induction idxs as [|i rest IH]; intros st st' Hrun Hst Hstep; simpl in Hrun.
  - injection Hrun as <-. exact Hst.
  - destruct (body i st) as [st1| |] eqn:Hb; simpl in Hrun; try discriminate.
    apply (IH st1 st' Hrun).
    + apply (Hstep i st st1); [left|assumption|assumption].
    + intros j st0 st2 Hj. apply Hstep. right. exact Hj.
Qed.

Lemma for_each_m_up {S : Type} (P : nat -> S -> Prop) (body : nat -> S -> outcome S)
      (n : nat) :
  forall lo st st',
    for_each_m body (seq lo n) st = Ok st' -> P lo st ->
    (forall i st0 st1, (lo <= i < lo + n)%nat -> P i st0 -> body i st0 = Ok st1 ->
                       P (Datatypes.S i) st1) ->
    P (lo + n)%nat st'.
Proof.
  induction n as [|n IH]; intros lo st st' Hrun Hst Hstep; simpl in Hrun.
  - injection Hrun as <-. rewrite Nat.add_0_r. exact Hst.
  - destruct (body lo st) as [st1| |] eqn:Hb; simpl in Hrun; try discriminate.
    replace (lo + Datatypes.S n)%nat with (Datatypes.S lo + n)%nat by lia.
    apply (IH (Datatypes.S lo) st1 st' Hrun).
    + apply (Hstep lo st st1); [lia|assumption|assumption].
    + intros i st0 st2 Hi. apply Hstep. lia.
Qed.

Lemma for_range_m_up {S : Type} (P : nat -> S -> Prop) (body : nat -> S -> outcome S)
      (lo hi : nat) (st st' : S) :
  (lo <= hi)%nat ->
  for_range_m lo hi body st = Ok st' -> P lo st ->
  (forall i st0 st1, (lo <= i < hi)%nat -> P i st0 -> body i st0 = Ok st1 ->
                     P (Datatypes.S i) st1) ->
  P hi st'.
Proof.
  intros Hle Hrun Hst Hstep. unfold for_range_m in Hrun.
  replace hi with (lo + (hi - lo))%nat by lia.
  apply (for_each_m_up P body (hi - lo) lo st st' Hrun Hst).
  intros i st0 st1 Hi. apply Hstep. lia.
Qed.

Lemma for_each_m_down {S : Type} (P : nat -> S -> Prop) (body : nat -> S -> outcome S)
      (n : nat) :
  forall lo st st',
    for_each_m body (reverse (seq lo n)) st = Ok st' -> P (lo + n)%nat st ->
    (forall i st0 st1, (lo <= i < lo + n)%nat -> P (Datatypes.S i) st0 ->
                       body i st0 = Ok st1 -> P i st1) ->
    P lo st'.
Proof.
  induction n as [|n IH]; intros lo st st' Hrun Hst Hstep.
  - simpl in Hrun. injection Hrun as <-. rewrite Nat.add_0_r in Hst. exact Hst.
  - rewrite seq_S, reverse_snoc in Hrun. simpl in Hrun.
    destruct (body (lo + n)%nat st) as [st1| |] eqn:Hb; simpl in Hrun; try discriminate.
    apply (IH lo st1 st' Hrun).
    + apply (Hstep (lo + n)%nat st st1); [lia| |assumption].
      replace (Datatypes.S (lo + n)) with (lo + Datatypes.S n)%nat by lia. exact Hst.
    + intros i st0 st2 Hi. apply Hstep. lia.
Qed.

(** ** QuasiSteadyStateSolver: what each pass writes *)

Lemma calculateCorneringLimit_shape (track : TrackData) (k : Z)
      (q q' : QuasiSteadyStateSolver.t) :
  ready track k q ->
  QuasiSteadyStateSolver.calculateCorneringLimit q = Ok q' ->
  exists l,
    q' = QuasiSteadyStateSolver.set_v_corner l q
    /\ length l = length (points_ track)
    /\ forall i, (i < length (points_ track))%nat ->
         l !!! i = QuasiSteadyStateSolver.solveCorneringVelocity q (kappa (points_ track !!! i)).
Proof.
  intros (Ht & Hn & Hg & Hk & Hc & Ha & Hb & Ho) Hrun.
  unfold QuasiSteadyStateSolver.calculateCorneringLimit in Hrun. rewrite Hn in Hrun.
  assert (H : exists l,
            q' = QuasiSteadyStateSolver.set_v_corner l q
            /\ length l = length (points_ track)
            /\ forall i, (i < length (points_ track))%nat ->
                 l !!! i = QuasiSteadyStateSolver.solveCorneringVelocity q
                             (kappa (points_ track !!! i))).
  { apply (for_range_m_up
             (fun n q0 => exists l,
                  q0 = QuasiSteadyStateSolver.set_v_corner l q
                  /\ length l = length (points_ track)
                  /\ forall i, (i < n)%nat ->
                       l !!! i = QuasiSteadyStateSolver.solveCorneringVelocity q
                                   (kappa (points_ track !!! i)))
             _ 0 (length (points_ track)) q q' ltac:(lia) Hrun);
      [ exists (QuasiSteadyStateSolver.v_corner_ q); split;
        [destruct q; reflexivity|split; [lia|intros; lia]] |].
    intros i q0 q1 Hi (l & -> & Hl & Hval) Hbody.
    cbn [QuasiSteadyStateSolver.track_ QuasiSteadyStateSolver.set_v_corner] in Hbody.
    rewrite Ht, getPoint_in_range in Hbody by lia. cbn [obind] in Hbody.
    injection Hbody as <-.
    exists (<[i := QuasiSteadyStateSolver.solveCorneringVelocity q
                     (kappa (points_ track !!! i))]> l).
    split; [reflexivity|]. split; [rewrite length_insert; exact Hl|].
    intros j Hj. destruct (decide (j = i)) as [->|Hne].
    - rewrite list_lookup_total_insert_eq by lia. reflexivity.
    - rewrite list_lookup_total_insert_ne by congruence. apply Hval. lia. }
  exact H.
Qed.

Lemma clamp_floor_bounds (v c : R) :
  1 <= Std.max (Std.min v c) 1.0 <= Rmax 1 c.
Proof.
  split.
  - pose proof (std_max_ge_r (Std.min v c) 1.0). lra.
  - apply std_max_lub.
    + pose proof (std_min_le_r v c). pose proof (Rmax_r 1 c). lra.
    + pose proof (Rmax_l 1 c). lra.
Qed.

Lemma forwardIntegration_step_shape (track : TrackData) (k : Z) (i : nat)
      (q : QuasiSteadyStateSolver.t) :
  ready track k q -> (i + 1 < length (points_ track))%nat ->
  exists v_end,
    QuasiSteadyStateSolver.forwardIntegration_step i q
    = Ok (QuasiSteadyStateSolver.set_v_accel
            (<[(i + 1)%nat := Std.max (Std.min v_end
                                         (QuasiSteadyStateSolver.v_corner_ q !!! (i + 1)%nat))
                                      1.0]> (QuasiSteadyStateSolver.v_accel_ q)) q).
Proof.
  intros (Ht & Hn & Hg & Hk & Hc & Ha & Hb & Ho) Hi.
  unfold QuasiSteadyStateSolver.forwardIntegration_step. cbv zeta.
  rewrite Ht, getPoint_in_range by lia. cbn [obind].
  rewrite getMaxAcceleration_generated by exact Hg. cbn [obind].
  cbn [QuasiSteadyStateSolver.v_accel_ QuasiSteadyStateSolver.v_corner_
       QuasiSteadyStateSolver.set_v_accel].
  rewrite list_lookup_total_insert_eq by lia. rewrite list_insert_insert_eq.
  eexists. reflexivity.
Qed.

Lemma backwardIntegration_step_shape (track : TrackData) (k : Z) (i : nat)
      (q : QuasiSteadyStateSolver.t) :
  ready track k q -> (1 <= i < length (points_ track))%nat ->
  exists v_prev,
    QuasiSteadyStateSolver.backwardIntegration_step i q
    = Ok (QuasiSteadyStateSolver.set_v_brake
            (<[(i - 1)%nat := Std.max (Std.min v_prev
                                         (QuasiSteadyStateSolver.v_corner_ q !!! (i - 1)%nat))
                                      1.0]> (QuasiSteadyStateSolver.v_brake_ q)) q).
Proof.
  intros (Ht & Hn & Hg & Hk & Hc & Ha & Hb & Ho) Hi.
  unfold QuasiSteadyStateSolver.backwardIntegration_step. cbv zeta.
  rewrite Ht, !getPoint_in_range by lia. cbn [obind].
  rewrite getMaxBraking_generated by exact Hg. cbn [obind].
  cbn [QuasiSteadyStateSolver.v_brake_ QuasiSteadyStateSolver.v_corner_
       QuasiSteadyStateSolver.set_v_brake].
  rewrite list_lookup_total_insert_eq by lia. rewrite list_insert_insert_eq.
  eexists. reflexivity.
Qed.

Lemma ready_set_v_accel (track : TrackData) (k : Z) (q : QuasiSteadyStateSolver.t)
      (l : list R) :
  ready track k q -> length l = length (points_ track) ->
  ready track k (QuasiSteadyStateSolver.set_v_accel l q).
Proof. intros (Ht & Hn & Hg & Hk & Hc & Ha & Hb & Ho) Hl. ready_tac. Qed.

Lemma ready_set_v_brake (track : TrackData) (k : Z) (q : QuasiSteadyStateSolver.t)
      (l : list R) :
  ready track k q -> length l = length (points_ track) ->
  ready track k (QuasiSteadyStateSolver.set_v_brake l q).
Proof. intros (Ht & Hn & Hg & Hk & Hc & Ha & Hb & Ho) Hl. ready_tac. Qed.

(** The forward pass: the loop leaves [l], the closing step then lowers
    entry 0. *)
Lemma forwardIntegration_shape (track : TrackData) (k : Z)
      (q q' : QuasiSteadyStateSolver.t) :
  let N := length (points_ track) in
  ready track k q -> (1 <= N)%nat ->
  QuasiSteadyStateSolver.forwardIntegration q = Ok q' ->
  exists l v_end,
    q' = QuasiSteadyStateSolver.set_v_accel
           (<[0%nat := Std.min (l !!! 0%nat)
                               (Std.min v_end (QuasiSteadyStateSolver.v_corner_ q !!! 0%nat))]> l)
           q
    /\ length l = N
    /\ l !!! 0%nat = QuasiSteadyStateSolver.v_accel_ q !!! 0%nat
    /\ (forall j, (1 <= j < N)%nat ->
          1 <= l !!! j <= Rmax 1 (QuasiSteadyStateSolver.v_corner_ q !!! j))
    /\ (envelope_signs (QuasiSteadyStateSolver.ggv_ q) ->
        0 <= ds (points_ track !!! (N - 1)%nat) ->
        0 < l !!! (N - 1)%nat -> 0 < v_end).
Proof.
  intros N Hq HN Hrun.
  assert (Hq' := Hq). destruct Hq' as (Ht & Hn & Hg & Hk & Hc & Ha & Hb & Ho).
  unfold QuasiSteadyStateSolver.forwardIntegration in Hrun.
  rewrite Hn, size_t_pred_pos in Hrun by exact HN. fold N in Hrun.
  destruct (for_range_m 0 (N - 1) QuasiSteadyStateSolver.forwardIntegration_step q)
    as [q1| |] eqn:Hloop; cbn [obind] in Hrun; try discriminate.
  assert (Hinv : exists l,
             q1 = QuasiSteadyStateSolver.set_v_accel l q
             /\ length l = N
             /\ l !!! 0%nat = QuasiSteadyStateSolver.v_accel_ q !!! 0%nat
             /\ forall j, (1 <= j <= N - 1)%nat ->
                  1 <= l !!! j <= Rmax 1 (QuasiSteadyStateSolver.v_corner_ q !!! j)).
  { apply (for_range_m_up
             (fun n q0 => exists l,
                  q0 = QuasiSteadyStateSolver.set_v_accel l q
                  /\ length l = N
                  /\ l !!! 0%nat = QuasiSteadyStateSolver.v_accel_ q !!! 0%nat
                  /\ forall j, (1 <= j <= n)%nat ->
                       1 <= l !!! j <= Rmax 1 (QuasiSteadyStateSolver.v_corner_ q !!! j))
             _ 0 (N - 1) q q1 ltac:(lia) Hloop).
    - exists (QuasiSteadyStateSolver.v_accel_ q).
      split; [destruct q; reflexivity|]. split; [rewrite Ha; exact Hn|].
      split; [reflexivity|]. intros; lia.
    - intros i q0 q2 Hi (l & -> & Hl & Hl0 & Hval) Hbody.
      destruct (forwardIntegration_step_shape track k i
                  (QuasiSteadyStateSolver.set_v_accel l q)
                  (ready_set_v_accel track k q l Hq Hl) ltac:(fold N; lia))
        as (v_end & Hstep).
      rewrite Hstep in Hbody. injection Hbody as <-.
      cbn [QuasiSteadyStateSolver.v_accel_ QuasiSteadyStateSolver.v_corner_
           QuasiSteadyStateSolver.set_v_accel].
      eexists. split; [reflexivity|]. split; [rewrite length_insert; exact Hl|].
      split; [rewrite list_lookup_total_insert_ne by lia; exact Hl0|].
      intros j Hj. destruct (decide (j = i + 1)%nat) as [->|Hne].
      + rewrite list_lookup_total_insert_eq by lia. apply clamp_floor_bounds.
      + rewrite list_lookup_total_insert_ne by lia. apply Hval. lia. }
  destruct Hinv as (l & -> & Hl & Hl0 & Hval).
  cbn [QuasiSteadyStateSolver.v_accel_ QuasiSteadyStateSolver.v_corner_
       QuasiSteadyStateSolver.track_ QuasiSteadyStateSolver.n_points_
       QuasiSteadyStateSolver.ggv_ QuasiSteadyStateSolver.set_v_accel] in Hrun.
  rewrite Hn, size_t_pred_pos in Hrun by exact HN. fold N in Hrun.
  rewrite Ht, getPoint_in_range in Hrun by (fold N; lia). cbn [obind] in Hrun.
  rewrite getMaxAcceleration_generated in Hrun by exact Hg. cbn [obind] in Hrun.
  injection Hrun as <-.
  exists l. eexists. split; [reflexivity|]. split; [exact Hl|]. split; [exact Hl0|].
  split; [intros j Hj; apply Hval; lia|].
  intros Hsigns Hds Hpos.
  destruct (Hsigns (l !!! (N - 1)%nat)
              (Std.abs (l !!! (N - 1)%nat * l !!! (N - 1)%nat
                        * Std.abs (kappa (points_ track !!! (N - 1)%nat))))) as [Hax _].
  set (ax := GGVGenerator.interpolateAcceleration _ _ _) in *.
  set (vs := l !!! (N - 1)%nat) in *.
  set (d := ds (points_ track !!! (N - 1)%nat)) in *.
  assert (Hsq : 0 < vs * vs + 2.0 * ax * d).
  { assert (0 < vs * vs) by (apply Rmult_lt_0_compat; exact Hpos).
    assert (0 <= ax * d) by (apply Rmult_le_pos; assumption). lra. }
  destruct (Rlt_dec 0.0 (vs * vs + 2.0 * ax * d)) as [_|Hn0]; [|lra].
  apply sqrt_lt_R0. exact Hsq.
Qed.

(** The backward pass: the loop leaves [l], the closing step then lowers
    the last entry. *)
Lemma backwardIntegration_shape (track : TrackData) (k : Z)
      (q q' : QuasiSteadyStateSolver.t) :
  let N := length (points_ track) in
  ready track k q -> (1 <= N)%nat ->
  QuasiSteadyStateSolver.backwardIntegration q = Ok q' ->
  exists l v_prev,
    q' = QuasiSteadyStateSolver.set_v_brake
           (<[(N - 1)%nat :=
                Std.min (l !!! (N - 1)%nat)
                        (Std.min v_prev (QuasiSteadyStateSolver.v_corner_ q !!! (N - 1)%nat))]> l)
           q
    /\ length l = N
    /\ l !!! (N - 1)%nat = QuasiSteadyStateSolver.v_brake_ q !!! (N - 1)%nat
    /\ (forall j, (j < N - 1)%nat ->
          1 <= l !!! j <= Rmax 1 (QuasiSteadyStateSolver.v_corner_ q !!! j))
    /\ (envelope_signs (QuasiSteadyStateSolver.ggv_ q) ->
        0 <= ds (points_ track !!! (N - 1)%nat) ->
        0 < l !!! 0%nat -> 0 < v_prev).
Proof.
  intros N Hq HN Hrun.
  assert (Hq' := Hq). destruct Hq' as (Ht & Hn & Hg & Hk & Hc & Ha & Hb & Ho).
  unfold QuasiSteadyStateSolver.backwardIntegration in Hrun.
  rewrite Hn in Hrun. fold N in Hrun.
  destruct (for_each_m QuasiSteadyStateSolver.backwardIntegration_step
              (reverse (seq 1 (N - 1))) q) as [q1| |] eqn:Hloop;
    cbn [obind] in Hrun; try discriminate.
  assert (Hinv : exists l,
             q1 = QuasiSteadyStateSolver.set_v_brake l q
             /\ length l = N
             /\ l !!! (N - 1)%nat = QuasiSteadyStateSolver.v_brake_ q !!! (N - 1)%nat
             /\ forall j, (1 - 1 <= j < N - 1)%nat ->
                  1 <= l !!! j <= Rmax 1 (QuasiSteadyStateSolver.v_corner_ q !!! j)).
  { apply (for_each_m_down
             (fun n q0 => exists l,
                  q0 = QuasiSteadyStateSolver.set_v_brake l q
                  /\ length l = N
                  /\ l !!! (N - 1)%nat = QuasiSteadyStateSolver.v_brake_ q !!! (N - 1)%nat
                  /\ forall j, (n - 1 <= j < N - 1)%nat ->
                       1 <= l !!! j <= Rmax 1 (QuasiSteadyStateSolver.v_corner_ q !!! j))
             _ (N - 1) 1 q q1 Hloop).
    - exists (QuasiSteadyStateSolver.v_brake_ q).
      split; [destruct q; reflexivity|]. split; [rewrite Hb; exact Hn|].
      split; [reflexivity|]. intros; lia.
    - intros i q0 q2 Hi (l & -> & Hl & Hl0 & Hval) Hbody.
      destruct (backwardIntegration_step_shape track k i
                  (QuasiSteadyStateSolver.set_v_brake l q)
                  (ready_set_v_brake track k q l Hq Hl) ltac:(fold N; lia))
        as (v_prev & Hstep).
      rewrite Hstep in Hbody. injection Hbody as <-.
      cbn [QuasiSteadyStateSolver.v_brake_ QuasiSteadyStateSolver.v_corner_
           QuasiSteadyStateSolver.set_v_brake].
      eexists. split; [reflexivity|]. split; [rewrite length_insert; exact Hl|].
      split; [rewrite list_lookup_total_insert_ne by lia; exact Hl0|].
      intros j Hj. destruct (decide (j = i - 1)%nat) as [->|Hne].
      + rewrite list_lookup_total_insert_eq by lia. apply clamp_floor_bounds.
      + rewrite list_lookup_total_insert_ne by lia. apply Hval. lia. }
  destruct Hinv as (l & -> & Hl & Hl0 & Hval).
  cbn [QuasiSteadyStateSolver.v_brake_ QuasiSteadyStateSolver.v_corner_
       QuasiSteadyStateSolver.track_ QuasiSteadyStateSolver.n_points_
       QuasiSteadyStateSolver.ggv_ QuasiSteadyStateSolver.set_v_brake] in Hrun.
  rewrite Hn, size_t_pred_pos in Hrun by exact HN. fold N in Hrun.
  rewrite Ht, !getPoint_in_range in Hrun by (fold N; lia). cbn [obind] in Hrun.
  rewrite getMaxBraking_generated in Hrun by exact Hg. cbn [obind] in Hrun.
  injection Hrun as <-.
  exists l. eexists. split; [reflexivity|]. split; [exact Hl|]. split; [exact Hl0|].
  split; [intros j Hj; apply Hval; lia|].
  intros Hsigns Hds Hpos.
  destruct (Hsigns (l !!! 0%nat)
              (Std.abs (l !!! 0%nat * l !!! 0%nat
                        * Std.abs (kappa (points_ track !!! 0%nat))))) as [_ Hax].
  set (ax := GGVGenerator.interpolateBraking _ _ _) in *.
  set (vs := l !!! 0%nat) in *.
  set (d := ds (points_ track !!! (N - 1)%nat)) in *.
  assert (Hsq : 0 < vs * vs - 2.0 * ax * d).
  { assert (0 < vs * vs) by (apply Rmult_lt_0_compat; exact Hpos).
    assert (0 <= (- ax) * d) by (apply Rmult_le_pos; lra). lra. }
  destruct (Rlt_dec 0.0 (vs * vs - 2.0 * ax * d)) as [_|Hn0]; [|lra].
  apply sqrt_lt_R0. exact Hsq.
Qed.

(** ** QuasiSteadyStateSolver: the two integration passes *)

Lemma forwardIntegration_total (track : TrackData) (k : Z) (q : QuasiSteadyStateSolver.t) :
  ready track k q -> (1 <= length (points_ track))%nat ->
  exists q', QuasiSteadyStateSolver.forwardIntegration q = Ok q'.
Proof.
  intros Hq HN. unfold QuasiSteadyStateSolver.forwardIntegration.
  assert (Hn := proj1 (proj2 Hq)).
  rewrite Hn, size_t_pred_pos by exact HN.
  destruct (for_range_m_inv (ready track k) 0 (length (points_ track) - 1)
              QuasiSteadyStateSolver.forwardIntegration_step q Hq) as (q1 & Hq1 & Hr1).
  { intros i q0 Hi Hq0.
    destruct (forwardIntegration_step_shape track k i q0 Hq0 ltac:(lia)) as (v_end & Hs).
    rewrite Hs. eexists. split; [reflexivity|].
    apply ready_set_v_accel; [exact Hq0|].
    rewrite length_insert. destruct Hq0 as (_ & Hn0 & _ & _ & _ & Ha0 & _). lia. }
  rewrite Hq1. cbn [obind]. destruct Hr1 as (Ht & Hn1 & Hg & Hk & Hc & Ha & Hb & Ho).
  rewrite Hn1, size_t_pred_pos by exact HN.
  rewrite Ht, getPoint_in_range by lia. cbn [obind].
  rewrite getMaxAcceleration_generated by exact Hg. cbn [obind].
  eexists. reflexivity.
Qed.

Lemma backwardIntegration_total (track : TrackData) (k : Z) (q : QuasiSteadyStateSolver.t) :
  ready track k q -> (1 <= length (points_ track))%nat ->
  exists q', QuasiSteadyStateSolver.backwardIntegration q = Ok q'.
Proof.
  intros Hq HN. unfold QuasiSteadyStateSolver.backwardIntegration.
  assert (Hn := proj1 (proj2 Hq)). rewrite Hn.
  destruct (for_each_m_inv (ready track k) QuasiSteadyStateSolver.backwardIntegration_step
              (reverse (seq 1 (length (points_ track) - 1))) q Hq) as (q1 & Hq1 & Hr1).
  { intros i q0 Hi Hq0. apply elem_of_reverse, elem_of_seq in Hi.
    destruct (backwardIntegration_step_shape track k i q0 Hq0 ltac:(lia)) as (v_prev & Hs).
    rewrite Hs. eexists. split; [reflexivity|].
    apply ready_set_v_brake; [exact Hq0|].
    rewrite length_insert. destruct Hq0 as (_ & Hn0 & _ & _ & _ & _ & Hb0 & _). lia. }
  rewrite Hq1. cbn [obind]. destruct Hr1 as (Ht & Hn1 & Hg & Hk & Hc & Ha & Hb & Ho).
  rewrite Hn1, size_t_pred_pos by exact HN.
  rewrite Ht, !getPoint_in_range by lia. cbn [obind].
  rewrite getMaxBraking_generated by exact Hg. cbn [obind].
  eexists. reflexivity.
Qed.

(** X14: on a sized solver state with a generated table and a non-empty
    track, [forwardIntegration] returns and changes nothing but the forward
    profile. Afterwards every entry but the first lies between 1 m/s and the
    larger of 1 m/s and the cornering limit of its point, and the first entry
    has not grown and is at most its cornering limit. *)
Theorem forwardIntegration_spec (track : TrackData) (k : Z) (q : QuasiSteadyStateSolver.t) :
  let N := length (points_ track) in
  let v_corner := QuasiSteadyStateSolver.v_corner_ q in
  ready track k q -> (1 <= N)%nat ->
  exists q',
    QuasiSteadyStateSolver.forwardIntegration q = Ok q'
    /\ q' = QuasiSteadyStateSolver.set_v_accel (QuasiSteadyStateSolver.v_accel_ q') q
    /\ length (QuasiSteadyStateSolver.v_accel_ q') = N
    /\ (forall i, (1 <= i < N)%nat ->
          1 <= QuasiSteadyStateSolver.v_accel_ q' !!! i <= Rmax 1 (v_corner !!! i))
    /\ QuasiSteadyStateSolver.v_accel_ q' !!! 0%nat
       <= Rmin (QuasiSteadyStateSolver.v_accel_ q !!! 0%nat) (v_corner !!! 0%nat).
Proof.
  intros N v_corner Hq HN.
  destruct (forwardIntegration_total track k q Hq HN) as (q' & Hrun).
  exists q'. split; [exact Hrun|].
  destruct (forwardIntegration_shape track k q q' Hq HN Hrun)
    as (l & v_end & -> & Hl & Hl0 & Hval & _).
  fold N in Hl, Hval.
  cbn [QuasiSteadyStateSolver.v_accel_ QuasiSteadyStateSolver.set_v_accel].
  split; [reflexivity|]. split; [rewrite length_insert; exact Hl|]. split.
  - intros i Hi. rewrite list_lookup_total_insert_ne by lia. apply Hval. exact Hi.
  - rewrite list_lookup_total_insert_eq by lia. rewrite Hl0.
    fold v_corner.
    pose proof (std_min_le_l (QuasiSteadyStateSolver.v_accel_ q !!! 0%nat)
                  (Std.min v_end (v_corner !!! 0%nat))).
    pose proof (std_min_le_r (QuasiSteadyStateSolver.v_accel_ q !!! 0%nat)
                  (Std.min v_end (v_corner !!! 0%nat))).
    pose proof (std_min_le_r v_end (v_corner !!! 0%nat)).
    apply Rmin_glb; lra.
Qed.

(** X15: likewise [backwardIntegration] returns and changes nothing but the
    backward profile. Afterwards every entry but the last lies between 1 m/s
    and the larger of 1 m/s and the cornering limit of its point, and the
    last entry has not grown and is at most its cornering limit. *)
Theorem backwardIntegration_spec (track : TrackData) (k : Z) (q : QuasiSteadyStateSolver.t) :
  let N := length (points_ track) in
  let v_corner := QuasiSteadyStateSolver.v_corner_ q in
  ready track k q -> (1 <= N)%nat ->
  exists q',
    QuasiSteadyStateSolver.backwardIntegration q = Ok q'
    /\ q' = QuasiSteadyStateSolver.set_v_brake (QuasiSteadyStateSolver.v_brake_ q') q
    /\ length (QuasiSteadyStateSolver.v_brake_ q') = N
    /\ (forall i, (i < N - 1)%nat ->
          1 <= QuasiSteadyStateSolver.v_brake_ q' !!! i <= Rmax 1 (v_corner !!! i))
    /\ QuasiSteadyStateSolver.v_brake_ q' !!! (N - 1)%nat
       <= Rmin (QuasiSteadyStateSolver.v_brake_ q !!! (N - 1)%nat) (v_corner !!! (N - 1)%nat).
Proof.
  intros N v_corner Hq HN.
  destruct (backwardIntegration_total track k q Hq HN) as (q' & Hrun).
  exists q'. split; [exact Hrun|].
  destruct (backwardIntegration_shape track k q q' Hq HN Hrun)
    as (l & v_prev & -> & Hl & Hl0 & Hval & _).
  fold N in Hl, Hl0, Hval |- *.
  cbn [QuasiSteadyStateSolver.v_brake_ QuasiSteadyStateSolver.set_v_brake].
  split; [reflexivity|]. split; [rewrite length_insert; exact Hl|]. split.
  - intros i Hi. rewrite list_lookup_total_insert_ne by lia. apply Hval. exact Hi.
  - rewrite list_lookup_total_insert_eq by lia. rewrite Hl0.
    fold v_corner.
    pose proof (std_min_le_l (QuasiSteadyStateSolver.v_brake_ q !!! (N - 1)%nat)
                  (Std.min v_prev (v_corner !!! (N - 1)%nat))).
    pose proof (std_min_le_r (QuasiSteadyStateSolver.v_brake_ q !!! (N - 1)%nat)
                  (Std.min v_prev (v_corner !!! (N - 1)%nat))).
    pose proof (std_min_le_r v_prev (v_corner !!! (N - 1)%nat)).
    apply Rmin_glb; lra.
Qed.

Lemma example_ready_state :
  exists q, ready example_track 0 q /\ (1 <= length (points_ example_track))%nat.
Proof.
  destruct (initialize_returns 241 (solver_of example_track example_vehicle) ltac:(lia))
    as (g & _ & Hgen).
  exists (QuasiSteadyStateSolver.set_ggv g (solver_of example_track example_vehicle)).
  assert (Hlen : length (points_ example_track) = 3%nat).
  { destruct (preprocess_Ok _ _ example_track_preprocess) as (_ & _ & Hl & _).
    rewrite Hl. reflexivity. }
  split; [|lia].
  repeat split; try assumption; cbn; rewrite ?length_replicate; reflexivity.
Qed.

Lemma forwardIntegration_spec_witness :
  exists q q',
    QuasiSteadyStateSolver.forwardIntegration q = Ok q'
    /\ forall i, (1 <= i < length (points_ example_track))%nat ->
         1 <= QuasiSteadyStateSolver.v_accel_ q' !!! i.
Proof.
  destruct example_ready_state as (q & Hq & HN).
  destruct (forwardIntegration_spec example_track 0 q Hq HN)
    as (q' & Hrun & _ & _ & Hval & _).
  exists q, q'. split; [exact Hrun|]. intros i Hi. apply Hval. exact Hi.
Defined.

Lemma backwardIntegration_spec_witness :
  exists q q',
    QuasiSteadyStateSolver.backwardIntegration q = Ok q'
    /\ forall i, (i < length (points_ example_track) - 1)%nat ->
         1 <= QuasiSteadyStateSolver.v_brake_ q' !!! i.
Proof.
  destruct example_ready_state as (q & Hq & HN).
  destruct (backwardIntegration_spec example_track 0 q Hq HN)
    as (q' & Hrun & _ & _ & Hval & _).
  exists q, q'. split; [exact Hrun|]. intros i Hi. apply Hval. exact Hi.
Defined.

(** ** QuasiSteadyStateSolver: the cornering limit *)

Lemma solveCorneringVelocity_pos (q : QuasiSteadyStateSolver.t) (kappa : R) :
  0 < mass (mass_params (QuasiSteadyStateSolver.vehicle_ q)) ->
  0 < mu_y (tire (QuasiSteadyStateSolver.vehicle_ q)) ->
  0 < QuasiSteadyStateSolver.solveCorneringVelocity q kappa.
Proof.
  intros Hm Hmu. unfold QuasiSteadyStateSolver.solveCorneringVelocity. cbv zeta.
  destruct (Rlt_dec (Std.abs kappa) 0.002); [lra|].
  set (m := mass (mass_params (QuasiSteadyStateSolver.vehicle_ q))) in *.
  set (mu := mu_y (tire (QuasiSteadyStateSolver.vehicle_ q))) in *.
  match goal with
  | |- context [Rle_dec ?d 0.0] => set (den := d); destruct (Rle_dec den 0.0) as [|Hden]
  end; [lra|].
  assert (Hnum : 0 < mu * m * GRAVITY).
  { unfold GRAVITY. apply Rmult_lt_0_compat; [apply Rmult_lt_0_compat; assumption|lra]. }
  assert (Hq : 0 < mu * m * GRAVITY / den) by (apply Rdiv_lt_0_compat; lra).
  destruct (Rlt_dec (mu * m * GRAVITY / den) 0.0); [lra|].
  apply sqrt_lt_R0. exact Hq.
Qed.

(** X16: the cornering limit depends on the magnitude of the curvature only,
    and for a positive mass and lateral friction coefficient it is a
    positive speed. *)
Theorem solveCorneringVelocity_even_positive (q : QuasiSteadyStateSolver.t) (kappa : R) :
  QuasiSteadyStateSolver.solveCorneringVelocity q (- kappa)
  = QuasiSteadyStateSolver.solveCorneringVelocity q kappa
  /\ (0 < mass (mass_params (QuasiSteadyStateSolver.vehicle_ q)) ->
      0 < mu_y (tire (QuasiSteadyStateSolver.vehicle_ q)) ->
      0 < QuasiSteadyStateSolver.solveCorneringVelocity q kappa).
Proof.
  split.
  - unfold QuasiSteadyStateSolver.solveCorneringVelocity, Std.abs.
    rewrite Rabs_Ropp. reflexivity.
  - apply solveCorneringVelocity_pos.
Qed.

Lemma solveCorneringVelocity_even_positive_witness :
  0 < QuasiSteadyStateSolver.solveCorneringVelocity
        (solver_of example_track example_vehicle) (-0.05).
Proof.
  apply (proj2 (solveCorneringVelocity_even_positive
                  (solver_of example_track example_vehicle) (-0.05))); simpl; lra.
Defined.

(** ** QuasiSteadyStateSolver: the iteration *)

Lemma combineProfiles_shape (q : QuasiSteadyStateSolver.t) :
  length (QuasiSteadyStateSolver.v_optimal_ q) = QuasiSteadyStateSolver.n_points_ q ->
  exists l,
    QuasiSteadyStateSolver.combineProfiles q = QuasiSteadyStateSolver.set_v_optimal l q
    /\ length l = QuasiSteadyStateSolver.n_points_ q
    /\ forall i, (i < QuasiSteadyStateSolver.n_points_ q)%nat ->
         l !!! i = Rmin (QuasiSteadyStateSolver.v_corner_ q !!! i)
                        (Rmin (QuasiSteadyStateSolver.v_accel_ q !!! i)
                              (QuasiSteadyStateSolver.v_brake_ q !!! i)).
Proof.
  intros Ho. unfold QuasiSteadyStateSolver.combineProfiles.
  set (n := QuasiSteadyStateSolver.n_points_ q).
  assert (H : exists l,
            for_range 0 n
              (fun i q0 =>
                 QuasiSteadyStateSolver.set_v_optimal
                   (<[i := Std.min_il (QuasiSteadyStateSolver.v_corner_ q0 !!! i)
                             [QuasiSteadyStateSolver.v_accel_ q0 !!! i;
                              QuasiSteadyStateSolver.v_brake_ q0 !!! i]]>
                      (QuasiSteadyStateSolver.v_optimal_ q0)) q0) q
            = QuasiSteadyStateSolver.set_v_optimal l q
            /\ length l = n
            /\ forall i, (i < n)%nat ->
                 l !!! i = Rmin (QuasiSteadyStateSolver.v_corner_ q !!! i)
                                (Rmin (QuasiSteadyStateSolver.v_accel_ q !!! i)
                                      (QuasiSteadyStateSolver.v_brake_ q !!! i))).
  { apply (for_range_inv
             (fun k q0 => exists l,
                  q0 = QuasiSteadyStateSolver.set_v_optimal l q
                  /\ length l = n
                  /\ forall i, (i < k)%nat ->
                       l !!! i = Rmin (QuasiSteadyStateSolver.v_corner_ q !!! i)
                                      (Rmin (QuasiSteadyStateSolver.v_accel_ q !!! i)
                                            (QuasiSteadyStateSolver.v_brake_ q !!! i)))).
    - lia.
    - exists (QuasiSteadyStateSolver.v_optimal_ q).
      split; [destruct q; reflexivity|]. split; [exact Ho|intros; lia].
    - intros i q0 Hi (l & -> & Hl & Hval).
      cbn [QuasiSteadyStateSolver.v_optimal_ QuasiSteadyStateSolver.v_corner_
           QuasiSteadyStateSolver.v_accel_ QuasiSteadyStateSolver.v_brake_
           QuasiSteadyStateSolver.set_v_optimal].
      eexists. split; [reflexivity|]. split; [rewrite length_insert; exact Hl|].
      intros j Hj. destruct (decide (j = i)) as [->|Hne].
      + rewrite list_lookup_total_insert_eq by lia. apply std_min_il3.
      + rewrite list_lookup_total_insert_ne by congruence. apply Hval. lia. }
  exact H.
Qed.

(** With a positive optimal profile no point is skipped by
    [calculateLapTime]. *)
Lemma calculateLapTime_positive (track : TrackData) (k : Z) (q : QuasiSteadyStateSolver.t) :
  ready track k q ->
  positive_profile (length (points_ track)) (QuasiSteadyStateSolver.v_optimal_ q) ->
  QuasiSteadyStateSolver.calculateLapTime q
  = Ok (foldl (fun total_time i =>
                 total_time + ds (points_ track !!! i)
                              / (QuasiSteadyStateSolver.v_optimal_ q !!! i))
              0.0 (seq 0 (length (points_ track)))).
Proof.
  intros (Ht & Hn & _) Hpos. unfold QuasiSteadyStateSolver.calculateLapTime, for_range_m.
  rewrite Hn, Ht, Nat.sub_0_r.
  assert (Hgen : forall idxs total_time,
            (forall i, i ∈ idxs -> (i < length (points_ track))%nat) ->
            for_each_m
              (fun i total_time0 =>
                 do point <- Track.getPoint track i;
                 if Rlt_dec 0.0 (QuasiSteadyStateSolver.v_optimal_ q !!! i)
                 then Ok (total_time0 + ds point / QuasiSteadyStateSolver.v_optimal_ q !!! i)
                 else Ok total_time0) idxs total_time
            = Ok (foldl (fun total_time0 i =>
                           total_time0 + ds (points_ track !!! i)
                                         / (QuasiSteadyStateSolver.v_optimal_ q !!! i))
                        total_time idxs)).
  { induction idxs as [|i rest IH]; intros total_time Hin; [reflexivity|].
    cbn [for_each_m foldl].
    assert (Hi : (i < length (points_ track))%nat) by (apply Hin; left).
    rewrite getPoint_in_range by exact Hi. cbn [obind].
    pose proof (Hpos i Hi) as Hv.
    destruct (Rlt_dec 0.0 (QuasiSteadyStateSolver.v_optimal_ q !!! i)) as [_|Hn0]; [|lra].
    cbn [obind]. apply IH. intros j Hj. apply Hin. right. exact Hj. }
  apply Hgen. intros i Hi. apply elem_of_seq in Hi. lia.
Qed.

Lemma std_min_pos (a b : R) : 0 < a -> 0 < b -> 0 < Std.min a b.
Proof. intros Ha Hb. unfold Std.min. destruct (Rlt_dec b a); assumption. Qed.

Section Iteration.

Variable track : TrackData.
Variable vehicle : VehicleParams.
Variable g : GGVGenerator.t.
Variable vc : list R.
Hypothesis track_nonempty : (1 <= length (points_ track))%nat.
Hypothesis ds_nonneg : forall i, 0 <= ds (points_ track !!! i).
Hypothesis vc_positive : positive_profile (length (points_ track)) vc.

Lemma paced_forward (q q' : QuasiSteadyStateSolver.t) :
  paced track vehicle g vc q ->
  QuasiSteadyStateSolver.forwardIntegration q = Ok q' ->
  paced track vehicle g vc q'.
Proof using All.
  intros (Hq & Hveh & Hg & Hvc & Hpos) Hrun.
  destruct (forwardIntegration_shape track _ q q' Hq track_nonempty Hrun)
    as (l & v_end & -> & Hl & Hl0 & Hval & Hend).
  split; [|split; [exact Hveh|split; [exact Hg|split; [exact Hvc|]]]].
  - apply (ready_set_v_accel track _ q _ Hq). rewrite length_insert. exact Hl.
  - intros Hsigns. destruct (Hpos Hsigns) as [Ha Hb].
    cbn [QuasiSteadyStateSolver.v_accel_ QuasiSteadyStateSolver.v_brake_
         QuasiSteadyStateSolver.set_v_accel].
    split; [|exact Hb].
    assert (Hl0' : 0 < l !!! 0%nat) by (rewrite Hl0; apply Ha; lia).
    intros i Hi. destruct (decide (i = 0%nat)) as [->|Hne].
    + rewrite list_lookup_total_insert_eq by lia.
      apply std_min_pos; [exact Hl0'|]. apply std_min_pos.
      * apply Hend; [rewrite Hg; exact Hsigns|apply ds_nonneg|].
        destruct (decide (length (points_ track) = 1%nat)) as [H1|H1].
        -- rewrite H1. exact Hl0'.
        -- pose proof (Hval (length (points_ track) - 1)%nat ltac:(lia)). lra.
      * rewrite Hvc. apply vc_positive. lia.
    + rewrite list_lookup_total_insert_ne by lia.
      pose proof (Hval i ltac:(lia)). lra.
Qed.

Lemma paced_backward (q q' : QuasiSteadyStateSolver.t) :
  paced track vehicle g vc q ->
  QuasiSteadyStateSolver.backwardIntegration q = Ok q' ->
  paced track vehicle g vc q'.
Proof using All.
  intros (Hq & Hveh & Hg & Hvc & Hpos) Hrun.
  destruct (backwardIntegration_shape track _ q q' Hq track_nonempty Hrun)
    as (l & v_prev & -> & Hl & Hl0 & Hval & Hend).
  split; [|split; [exact Hveh|split; [exact Hg|split; [exact Hvc|]]]].
  - apply (ready_set_v_brake track _ q _ Hq). rewrite length_insert. exact Hl.
  - intros Hsigns. destruct (Hpos Hsigns) as [Ha Hb].
    cbn [QuasiSteadyStateSolver.v_accel_ QuasiSteadyStateSolver.v_brake_
         QuasiSteadyStateSolver.set_v_brake].
    split; [exact Ha|].
    set (N := length (points_ track)) in *.
    assert (Hl0' : 0 < l !!! (N - 1)%nat) by (rewrite Hl0; apply Hb; lia).
    intros i Hi. destruct (decide (i = N - 1)%nat) as [->|Hne].
    + rewrite list_lookup_total_insert_eq by lia.
      apply std_min_pos; [exact Hl0'|]. apply std_min_pos.
      * apply Hend; [rewrite Hg; exact Hsigns|apply ds_nonneg|].
        destruct (decide (N = 1%nat)) as [H1|H1].
        -- replace 0%nat with (N - 1)%nat by lia. exact Hl0'.
        -- pose proof (Hval 0%nat ltac:(lia)). lra.
      * rewrite Hvc. apply vc_positive. lia.
    + rewrite list_lookup_total_insert_ne by lia.
      pose proof (Hval i ltac:(lia)). lra.
Qed.

Lemma solve_loop_post (remaining : nat) :
  forall (iter : Z) (prev_lap_time tolerance : R) (q q' : QuasiSteadyStateSolver.t),
    paced track vehicle g vc q ->
    QuasiSteadyStateSolver.solve_loop remaining iter prev_lap_time tolerance q = Ok q' ->
    paced track vehicle g vc q'
    /\ (remaining = 0%nat -> q' = q)
    /\ ((1 <= remaining)%nat ->
        (forall i, (i < length (points_ track))%nat ->
           QuasiSteadyStateSolver.v_optimal_ q' !!! i
           = Rmin (vc !!! i) (Rmin (QuasiSteadyStateSolver.v_accel_ q' !!! i)
                                   (QuasiSteadyStateSolver.v_brake_ q' !!! i)))
        /\ (QuasiSteadyStateSolver.converged_ q' = true
            \/ QuasiSteadyStateSolver.iterations_used_ q' = (iter + Z.of_nat remaining)%Z)
        /\ QuasiSteadyStateSolver.calculateLapTime q'
           = Ok (QuasiSteadyStateSolver.lap_time_ q')).
Proof using All.
  induction remaining as [|remaining IH];
    intros iter prev_lap_time tolerance q q' Hq Hrun.
  - cbn [QuasiSteadyStateSolver.solve_loop] in Hrun. injection Hrun as <-.
    split; [exact Hq|]. split; [reflexivity|lia].
  - cbn [QuasiSteadyStateSolver.solve_loop] in Hrun.
    set (qa := QuasiSteadyStateSolver.set_iterations_used (iter + 1) q) in *.
    assert (Hqa : paced track vehicle g vc qa).
    { destruct Hq as ((Ht & Hn & Hg & _ & Hc & Ha & Hb & Ho) & Hveh & Hgg & Hvc & Hpos).
      split; [ready_tac|]. split; [exact Hveh|]. split; [exact Hgg|]. split; assumption. }
    destruct (QuasiSteadyStateSolver.forwardIntegration qa) as [qb| |] eqn:Hf;
      cbn [obind] in Hrun; try discriminate.
    pose proof (paced_forward qa qb Hqa Hf) as Hqb.
    assert (Hib : QuasiSteadyStateSolver.iterations_used_ qb = (iter + 1)%Z).
    { destruct (forwardIntegration_shape track _ qa qb (proj1 Hqa) track_nonempty Hf)
        as (l & v_end & -> & _). reflexivity. }
    destruct (QuasiSteadyStateSolver.backwardIntegration qb) as [qc| |] eqn:Hb;
      cbn [obind] in Hrun; try discriminate.
    pose proof (paced_backward qb qc Hqb Hb) as Hqc.
    assert (Hic : QuasiSteadyStateSolver.iterations_used_ qc = (iter + 1)%Z).
    { destruct (backwardIntegration_shape track _ qb qc (proj1 Hqb) track_nonempty Hb)
        as (l & v_prev & -> & _). exact Hib. }
    destruct Hqc as (Hrc & Hvehc & Hgc & Hvcc & Hposc).
    assert (Hrc' := Hrc). destruct Hrc' as (Htc & Hnc & Hggc & _ & Hcc & Hac & Hbc & Hoc).
    destruct (combineProfiles_shape qc Hoc) as (lo & Hcomb & Hlo & Hmin).
    rewrite Hcomb in Hrun.
    set (qd := QuasiSteadyStateSolver.set_v_optimal lo qc) in *.
    destruct (QuasiSteadyStateSolver.calculateLapTime qd) as [T| |] eqn:HT;
      cbn [obind] in Hrun; try discriminate.
    set (qe := QuasiSteadyStateSolver.set_lap_time T qd) in *.
    assert (Hqe : paced track vehicle g vc qe).
    { split; [ready_tac|]. split; [exact Hvehc|]. split; [exact Hgc|].
      split; [exact Hvcc|exact Hposc]. }
    assert (Hmine : forall i, (i < length (points_ track))%nat ->
              QuasiSteadyStateSolver.v_optimal_ qe !!! i
              = Rmin (vc !!! i) (Rmin (QuasiSteadyStateSolver.v_accel_ qe !!! i)
                                      (QuasiSteadyStateSolver.v_brake_ qe !!! i))).
    { intros i Hi. cbn. rewrite <- Hvcc. apply Hmin. lia. }
    destruct (Rlt_dec _ tolerance) as [Hconv|Hnot].
    + injection Hrun as <-.
      split; [|split; [discriminate|intros _]].
      * destruct Hqe as (Hre & Hrest). split; [|exact Hrest].
        destruct Hre as (Ht & Hn & Hg' & Hk & Hc & Ha & Hb' & Ho). ready_tac.
      * split; [exact Hmine|]. split; [left; reflexivity|exact HT].
    + destruct (IH (iter + 1)%Z _ tolerance qe q' Hqe Hrun) as (Hq' & Hzero & Hpos').
      split; [exact Hq'|]. split; [discriminate|]. intros _.
      destruct remaining as [|remaining'].
      * rewrite (Hzero eq_refl).
        split; [exact Hmine|]. split; [right; cbn; rewrite Hic; lia|exact HT].
      * destruct (Hpos' ltac:(lia)) as (Hm & Hc & Hl).
        split; [exact Hm|]. split; [|exact Hl].
        destruct Hc as [Hc|Hc]; [left; exact Hc|right; rewrite Hc; lia].
Qed.

End Iteration.

(** The table has the signs the passes expect when drag cannot push. *)
Lemma generated_envelope_signs (fuel : nat) (g0 g1 : GGVGenerator.t)
      (v_min v_max v_step ay_max ay_step : R) :
  GGVGenerator.generate fuel g0 v_min v_max v_step ay_max ay_step = Ok g1 ->
  0 < v_step -> 0 < ay_step ->
  0 < mass (mass_params (GGVGenerator.vehicle_ g0)) ->
  0 <= max_brake_force (brake (GGVGenerator.vehicle_ g0)) ->
  0 < air_density (AerodynamicsModel.params_ (GGVGenerator.aero_model_ g0)) ->
  0 < frontal_area (AerodynamicsModel.params_ (GGVGenerator.aero_model_ g0)) ->
  0 <= Cd (AerodynamicsModel.params_ (GGVGenerator.aero_model_ g0)) ->
  envelope_signs g1.
Proof.
  intros Hg Hvs Has Hm Hb Hrho HA HCd v ay.
  destruct (generate_Ok _ _ _ _ _ _ _ _ Hg) as (_ & _ & _ & Hvstep & _ & Hastep & Hpts).
  assert (Hvs1 : 0 < GGVGenerator.v_step_ g1) by (rewrite Hvstep; exact Hvs).
  assert (Has1 : 0 < GGVGenerator.ay_step_ g1) by (rewrite Hastep; exact Has).
  split.
  - apply (interpolate_convex (fun x => 0 <= x)); try assumption.
    + intros a b t Ha Hb' Ht. nra.
    + lra.
    + apply Hpts. intros v0 ay0. simpl. apply calculateMaxAcceleration_bounds.
  - apply (interpolate_convex (fun x => x <= 0)); try assumption.
    + intros a b t Ha Hb' Ht. nra.
    + lra.
    + apply Hpts. intros v0 ay0. simpl. apply calculateMaxBraking_upper; assumption.
Qed.

(** What [solve] has done when it enters the iteration loop. *)
Lemma solve_setup (track : TrackData) (vehicle : VehicleParams)
      (q : QuasiSteadyStateSolver.t) (max_iterations : Z) (tolerance : R) (fuel : nat) :
  Track.reachable track ->
  QuasiSteadyStateSolver.new track vehicle = Ok q ->
  (241 <= fuel)%nat ->
  let N := length (points_ track) in
  exists g vc q0,
    (0 <= Cd (aero vehicle) -> envelope_signs g)
    /\ length vc = N
    /\ (forall i, (i < N)%nat ->
          vc !!! i = QuasiSteadyStateSolver.solveCorneringVelocity q (kappa (points_ track !!! i)))
    /\ positive_profile N vc
    /\ paced track vehicle g vc q0
    /\ QuasiSteadyStateSolver.iterations_used_ q0 = 0%Z
    /\ QuasiSteadyStateSolver.converged_ q0 = false
    /\ QuasiSteadyStateSolver.lap_time_ q0 = 0.0
    /\ QuasiSteadyStateSolver.v_optimal_ q0 = replicate N 0.0
    /\ QuasiSteadyStateSolver.solve fuel q max_iterations tolerance
       = do q' <- QuasiSteadyStateSolver.solve_loop (Z.to_nat max_iterations) 0 1e9
                    tolerance q0;
         Ok (QuasiSteadyStateSolver.lap_time_ q', q').
Proof.
  intros Hreach Hnew Hfuel N.
  assert (Hnew' := Hnew).
  apply solver_new_Ok in Hnew'
    as (Hpre & Hvalid & Ht & Hveh & Hn & Hc & Ha & Hb & Ho & Hit & Hggv).
  destruct (reachable_preprocessed track Hreach Hpre) as [Hlen Hds].
  assert (Hne : (1 <= length (points_ track))%nat) by lia.
  assert (Hlap : QuasiSteadyStateSolver.lap_time_ q = 0.0
                 /\ QuasiSteadyStateSolver.converged_ q = false).
  { rewrite (solver_new_solver_of track vehicle Hpre Hvalid) in Hnew.
    injection Hnew as <-. split; reflexivity. }
  assert (Hgen : exists g,
             GGVGenerator.generate fuel (QuasiSteadyStateSolver.ggv_ q) 0.0 120.0 0.5 50.0 1.0
             = Ok g).
  { destruct (initialize_returns fuel q Hfuel) as (g' & Hinit & _).
    unfold QuasiSteadyStateSolver.initialize in Hinit. cbv zeta in Hinit.
    destruct (GGVGenerator.generate fuel (QuasiSteadyStateSolver.ggv_ q) 0.0 120.0 0.5 50.0 1.0)
      as [g| |]; cbn [obind] in Hinit; try discriminate.
    exists g. reflexivity. }
  destruct Hgen as (g & Hg).
  destruct (generate_Ok _ _ _ _ _ _ _ _ Hg) as (Hgenerated & _).
  set (q1 := QuasiSteadyStateSolver.set_ggv g q).
  assert (Hq1 : ready track 0 q1).
  { repeat split; simpl; try assumption;
      rewrite ?Hc, ?Ha, ?Hb, ?Ho, length_replicate; symmetry; exact Hn. }
  destruct (calculateCorneringLimit_returns track Hne Hds 0 q1 Hq1) as (q2 & Hcl & Hq2).
  destruct (calculateCorneringLimit_shape track 0 q1 q2 Hq1 Hcl) as (vc & -> & Hvcl & Hvcv).
  set (q2 := QuasiSteadyStateSolver.set_v_corner vc q1) in *.
  destruct (validate_true vehicle Hvalid)
    as (Hm & _ & _ & _ & HA & Hrho & _ & Hmuy & _ & _ & _ & _ & _ & _ & Hbrake & _).
  assert (Hvcpos : positive_profile N vc).
  { intros i Hi. rewrite Hvcv by exact Hi.
    apply solveCorneringVelocity_pos; cbn; rewrite Hveh; assumption. }
  set (body := fun (i : nat) (q : QuasiSteadyStateSolver.t) =>
                 let q := QuasiSteadyStateSolver.set_v_accel
                            (<[i := Std.min 50.0 (QuasiSteadyStateSolver.v_corner_ q !!! i)]>
                               (QuasiSteadyStateSolver.v_accel_ q)) q in
                 QuasiSteadyStateSolver.set_v_brake
                   (<[i := Std.min 50.0 (QuasiSteadyStateSolver.v_corner_ q !!! i)]>
                      (QuasiSteadyStateSolver.v_brake_ q)) q).
  assert (Hloop : exists la lb,
             for_range 0 N body q2
             = QuasiSteadyStateSolver.set_v_brake lb (QuasiSteadyStateSolver.set_v_accel la q2)
             /\ length la = N /\ length lb = N
             /\ forall i, (i < N)%nat ->
                  la !!! i = Std.min 50.0 (vc !!! i) /\ lb !!! i = Std.min 50.0 (vc !!! i)).
  { apply (for_range_inv
             (fun k q0 => exists la lb,
                  q0 = QuasiSteadyStateSolver.set_v_brake lb
                         (QuasiSteadyStateSolver.set_v_accel la q2)
                  /\ length la = N /\ length lb = N
                  /\ forall i, (i < k)%nat ->
                       la !!! i = Std.min 50.0 (vc !!! i)
                       /\ lb !!! i = Std.min 50.0 (vc !!! i))).
    - lia.
    - exists (QuasiSteadyStateSolver.v_accel_ q2), (QuasiSteadyStateSolver.v_brake_ q2).
      split; [reflexivity|]. cbn. rewrite Ha, Hb, !length_replicate.
      split; [reflexivity|]. split; [reflexivity|]. intros; lia.
    - intros i q0 Hi (la & lb & -> & Hla & Hlb & Hval). unfold body, q2. cbv zeta.
      cbn [QuasiSteadyStateSolver.v_accel_ QuasiSteadyStateSolver.v_brake_
           QuasiSteadyStateSolver.v_corner_ QuasiSteadyStateSolver.set_v_accel
           QuasiSteadyStateSolver.set_v_brake QuasiSteadyStateSolver.set_v_corner].
      exists (<[i := Std.min 50.0 (vc !!! i)]> la), (<[i := Std.min 50.0 (vc !!! i)]> lb).
      split; [reflexivity|].
      rewrite !length_insert. split; [exact Hla|]. split; [exact Hlb|].
      intros j Hj. destruct (decide (j = i)) as [->|Hne'].
      + rewrite !list_lookup_total_insert_eq by lia. split; reflexivity.
      + rewrite !list_lookup_total_insert_ne by congruence. apply Hval. lia. }
  destruct Hloop as (la & lb & Hloop & Hla & Hlb & Hlab).
  exists g, vc,
    (QuasiSteadyStateSolver.set_converged false
       (QuasiSteadyStateSolver.set_v_brake lb (QuasiSteadyStateSolver.set_v_accel la q2))).
  split.
  { intros HCd. destruct (GGVGenerator_new_Ok _ _ Hggv) as (Hv0 & Haero0 & _).
    apply (generated_envelope_signs _ _ _ _ _ _ _ _ Hg); try lra;
      rewrite ?Hv0, ?Haero0; cbn; try assumption; lra. }
  split; [exact Hvcl|]. split; [exact Hvcv|]. split; [exact Hvcpos|].
  split.
  { split.
    - repeat split; cbn; try assumption; try lia.
      rewrite Ho, length_replicate. symmetry. exact Hn.
    - split; [exact Hveh|]. split; [reflexivity|]. split; [reflexivity|].
      intros _. cbn. split; intros i Hi; destruct (Hlab i Hi) as [H1 H2];
        rewrite ?H1, ?H2; apply std_min_pos; try lra; apply Hvcpos; exact Hi. }
  split; [exact Hit|]. split; [reflexivity|]. split; [exact (proj1 Hlap)|].
  split; [exact Ho|].
  unfold QuasiSteadyStateSolver.solve, QuasiSteadyStateSolver.initialize. cbv zeta.
  rewrite Hg. cbn [obind]. fold q1. rewrite Hcl. cbn [obind].
  replace (QuasiSteadyStateSolver.n_points_ q2) with N by (symmetry; exact Hn).
  change (for_range 0 N _ q2) with (for_range 0 N body q2).
  rewrite Hloop. reflexivity.
Qed.



(** What [solve] returns after at least one iteration. *)
Lemma solve_post (track : TrackData) (vehicle : VehicleParams)
      (q : QuasiSteadyStateSolver.t) (max_iterations : Z) (tolerance : R) (fuel : nat) :
  Track.reachable track ->
  QuasiSteadyStateSolver.new track vehicle = Ok q ->
  (1 <= max_iterations)%Z ->
  (241 <= fuel)%nat ->
  let N := length (points_ track) in
  exists q',
    QuasiSteadyStateSolver.solve fuel q max_iterations tolerance
    = Ok (QuasiSteadyStateSolver.lap_time_ q', q')
    /\ ready track (QuasiSteadyStateSolver.iterations_used_ q') q'
    /\ QuasiSteadyStateSolver.calculateLapTime q' = Ok (QuasiSteadyStateSolver.lap_time_ q')
    /\ (forall i, (i < N)%nat ->
          QuasiSteadyStateSolver.v_corner_ q' !!! i
          = QuasiSteadyStateSolver.solveCorneringVelocity q (kappa (points_ track !!! i))
          /\ 0 < QuasiSteadyStateSolver.v_corner_ q' !!! i
          /\ QuasiSteadyStateSolver.v_optimal_ q' !!! i
             = Rmin (QuasiSteadyStateSolver.v_corner_ q' !!! i)
                    (Rmin (QuasiSteadyStateSolver.v_accel_ q' !!! i)
                          (QuasiSteadyStateSolver.v_brake_ q' !!! i)))
    /\ (QuasiSteadyStateSolver.converged_ q' = true
        \/ QuasiSteadyStateSolver.iterations_used_ q' = max_iterations)
    /\ (0 <= Cd (aero vehicle) ->
        positive_profile N (QuasiSteadyStateSolver.v_accel_ q')
        /\ positive_profile N (QuasiSteadyStateSolver.v_brake_ q')).
Proof.
  intros Hreach Hnew Hmax Hfuel N.
  destruct (solve_setup track vehicle q max_iterations tolerance fuel Hreach Hnew Hfuel)
    as (g & vc & q0 & Hsigns & _ & Hvc & Hvcpos & Hq0 & Hit & _ & _ & _ & Hsolve).
  apply solver_new_Ok in Hnew as (Hpre & _).
  destruct (reachable_preprocessed track Hreach Hpre) as [Hlen Hds].
  assert (Hne : (1 <= length (points_ track))%nat) by lia.
  destruct (solve_loop_returns track Hne Hds (Z.to_nat max_iterations) 0%Z 1e9 tolerance
              _ q0 (proj1 Hq0)) as (q' & Hloop & _).
  destruct (solve_loop_post track vehicle g vc Hne Hds Hvcpos (Z.to_nat max_iterations)
              0%Z 1e9 tolerance q0 q' Hq0 Hloop) as (Hq' & _ & Hpost).
  destruct (Hpost ltac:(lia)) as (Hmin & Hconv & Hlap).
  destruct Hq' as (Hr' & _ & _ & Hvc' & Hpos').
  exists q'. split; [rewrite Hsolve, Hloop; reflexivity|].
  split; [exact Hr'|]. split; [exact Hlap|]. split; [|split].
  - intros i Hi. rewrite Hvc'. split; [apply Hvc; exact Hi|].
    split; [apply Hvcpos; exact Hi|apply Hmin; exact Hi].
  - destruct Hconv as [Hc|Hc]; [left; exact Hc|right; rewrite Hc; lia].
  - intros HCd. apply Hpos', Hsigns, HCd.
Qed.

(** X18: after [solve] with [max_iterations >= 1], for every track point the
    cornering limit is the positive value [solveCorneringVelocity] gives for
    the curvature of the point and the optimal speed is the smallest of the
    cornering limit, the forward profile and the backward profile; and
    either the convergence flag is set or all [max_iterations] iterations
    were used. *)
Theorem solve_profiles (track : TrackData) (vehicle : VehicleParams)
        (q : QuasiSteadyStateSolver.t) (max_iterations : Z) (tolerance : R) :
  Track.reachable track ->
  QuasiSteadyStateSolver.new track vehicle = Ok q ->
  (1 <= max_iterations)%Z ->
  forall fuel, (241 <= fuel)%nat ->
    exists lap_time q',
      QuasiSteadyStateSolver.solve fuel q max_iterations tolerance = Ok (lap_time, q')
      /\ (forall i, (i < length (points_ track))%nat ->
            QuasiSteadyStateSolver.v_corner_ q' !!! i
            = QuasiSteadyStateSolver.solveCorneringVelocity q (kappa (points_ track !!! i))
            /\ 0 < QuasiSteadyStateSolver.v_corner_ q' !!! i
            /\ QuasiSteadyStateSolver.v_optimal_ q' !!! i
               = Rmin (QuasiSteadyStateSolver.v_corner_ q' !!! i)
                      (Rmin (QuasiSteadyStateSolver.v_accel_ q' !!! i)
                            (QuasiSteadyStateSolver.v_brake_ q' !!! i)))
      /\ (QuasiSteadyStateSolver.converged_ q' = true
          \/ QuasiSteadyStateSolver.iterations_used_ q' = max_iterations).
Proof.
  intros Hreach Hnew Hmax fuel Hfuel.
  destruct (solve_post track vehicle q max_iterations tolerance fuel Hreach Hnew Hmax Hfuel)
    as (q' & Hsolve & _ & _ & Hprof & Hconv & _).
  exists (QuasiSteadyStateSolver.lap_time_ q'), q'.
  split; [exact Hsolve|]. split; [exact Hprof|exact Hconv].
Qed.

Lemma solve_profiles_witness :
  exists lap_time q',
    QuasiSteadyStateSolver.solve 241 (solver_of example_track example_vehicle) 10 0.001
    = Ok (lap_time, q')
    /\ (QuasiSteadyStateSolver.converged_ q' = true
        \/ QuasiSteadyStateSolver.iterations_used_ q' = 10%Z).
Proof.
  destruct (solve_profiles example_track example_vehicle
              (solver_of example_track example_vehicle) 10 0.001
              example_track_reachable
              (solver_new_solver_of example_track example_vehicle eq_refl
                 example_vehicle_valid)
              ltac:(lia) 241%nat ltac:(lia))
    as (lap_time & q' & Hsolve & _ & Hconv).
  exists lap_time, q'. split; [exact Hsolve|exact Hconv].
Defined.

(** X19: for a vehicle whose drag coefficient is not negative, the optimal
    speed [solve] leaves at every track point is positive, so
    [calculateLapTime] skips no point: the lap time returned is the sum of
    [ds / v_optimal] over all points. *)
Theorem solve_positive_speeds (track : TrackData) (vehicle : VehicleParams)
        (q : QuasiSteadyStateSolver.t) (max_iterations : Z) (tolerance : R) :
  Track.reachable track ->
  QuasiSteadyStateSolver.new track vehicle = Ok q ->
  0 <= Cd (aero vehicle) ->
  (1 <= max_iterations)%Z ->
  forall fuel, (241 <= fuel)%nat ->
    exists lap_time q',
      QuasiSteadyStateSolver.solve fuel q max_iterations tolerance = Ok (lap_time, q')
      /\ (forall i, (i < length (points_ track))%nat ->
            0 < QuasiSteadyStateSolver.v_optimal_ q' !!! i)
      /\ lap_time
         = foldl (fun total_time i =>
                    total_time + ds (points_ track !!! i)
                                 / (QuasiSteadyStateSolver.v_optimal_ q' !!! i))
                 0.0 (seq 0 (length (points_ track))).
Proof.
  intros Hreach Hnew HCd Hmax fuel Hfuel.
  destruct (solve_post track vehicle q max_iterations tolerance fuel Hreach Hnew Hmax Hfuel)
    as (q' & Hsolve & Hr' & Hlap & Hprof & _ & Hpos).
  destruct (Hpos HCd) as [Hacc Hbrk].
  assert (Hopt : positive_profile (length (points_ track))
                   (QuasiSteadyStateSolver.v_optimal_ q')).
  { intros i Hi. destruct (Hprof i Hi) as (_ & Hc & ->).
    pose proof (Hacc i Hi). pose proof (Hbrk i Hi).
    apply Rmin_glb_lt; [exact Hc|]. apply Rmin_glb_lt; assumption. }
  exists (QuasiSteadyStateSolver.lap_time_ q'), q'.
  split; [exact Hsolve|]. split; [exact Hopt|].
  rewrite (calculateLapTime_positive track _ q' Hr' Hopt) in Hlap.
  injection Hlap as Hlap. symmetry. exact Hlap.
Qed.

Lemma solve_positive_speeds_witness :
  exists lap_time q',
    QuasiSteadyStateSolver.solve 241 (solver_of example_track example_vehicle) 10 0.001
    = Ok (lap_time, q')
    /\ forall i, (i < length (points_ example_track))%nat ->
         0 < QuasiSteadyStateSolver.v_optimal_ q' !!! i.
Proof.
  destruct (solve_positive_speeds example_track example_vehicle
              (solver_of example_track example_vehicle) 10 0.001
              example_track_reachable
              (solver_new_solver_of example_track example_vehicle eq_refl
                 example_vehicle_valid)
              ltac:(simpl; lra) ltac:(lia) 241%nat ltac:(lia))
    as (lap_time & q' & Hsolve & Hpos & _).
  exists lap_time, q'. split; [exact Hsolve|exact Hpos].
Defined.

(** ** QuasiSteadyStateSolver: construction and telemetry *)

(** X20: the constructor checks the track first and the vehicle second, and
    fails with a [runtime_error] in both cases; for a preprocessed track and a
    vehicle that passes [validate] it returns the solver with four all-zero
    profiles, since [validate] has already made the tire radius positive for
    the models it builds. *)
Theorem solver_new_cases (track : TrackData) (vehicle : VehicleParams) :
  (preprocessed_ track = false ->
   QuasiSteadyStateSolver.new track vehicle
   = Throw (runtime_error "Track must be preprocessed before solving"))
  /\ (preprocessed_ track = true -> Params.validate vehicle = false ->
      QuasiSteadyStateSolver.new track vehicle
      = Throw (runtime_error "Vehicle parameters are invalid"))
  /\ (preprocessed_ track = true -> Params.validate vehicle = true ->
      QuasiSteadyStateSolver.new track vehicle = Ok (solver_of track vehicle)).
Proof.
  split; [|split].
  - intros Hpre. unfold QuasiSteadyStateSolver.new, Track.isPreprocessed.
    rewrite Hpre. reflexivity.
  - intros Hpre Hval. unfold QuasiSteadyStateSolver.new, Track.isPreprocessed.
    rewrite Hpre, Hval. reflexivity.
  - apply solver_new_solver_of.
Qed.

Lemma solver_new_cases_witness :
  QuasiSteadyStateSolver.new example_raw_track example_vehicle
  = Throw (runtime_error "Track must be preprocessed before solving")
  /\ QuasiSteadyStateSolver.new example_track Params.VehicleParams_new
     = Throw (runtime_error "Vehicle parameters are invalid")
  /\ QuasiSteadyStateSolver.new example_track example_vehicle
     = Ok (solver_of example_track example_vehicle).
Proof.
  split; [|split].
  - apply (proj1 (solver_new_cases example_raw_track example_vehicle)). reflexivity.
  - apply (proj1 (proj2 (solver_new_cases example_track Params.VehicleParams_new)));
      [reflexivity|].
    unfold Params.validate. simpl.
    repeat match goal with
           | |- context [?a <=? ?b] =>
               let H := fresh in
               assert (H : (a <=? b) = false) by (apply Rleb_false; lra); rewrite H; clear H
           | |- context [?a <? ?b] =>
               let H := fresh in
               assert (H : (a <? b) = false) by (apply Rltb_false; lra); rewrite H; clear H
           end.
    reflexivity.
  - apply (proj2 (proj2 (solver_new_cases example_track example_vehicle)));
      [reflexivity|exact example_vehicle_valid].
Defined.

Lemma createState_fields (q : QuasiSteadyStateSolver.t) (index : nat) (time : R) :
  let pts := points_ (QuasiSteadyStateSolver.track_ q) in
  let v := QuasiSteadyStateSolver.v_optimal_ q !!! index in
  (index < length pts)%nat ->
  exists st,
    QuasiSteadyStateSolver.createState q index time = Ok st
    /\ SimulationState.s st = s (pts !!! index)
    /\ SimulationState.x st = x (pts !!! index)
    /\ SimulationState.y st = y (pts !!! index)
    /\ SimulationState.z st = z (pts !!! index)
    /\ SimulationState.v st = v
    /\ SimulationState.v_kmh st = v * 3.6
    /\ SimulationState.ay st = v * v * kappa (pts !!! index)
    /\ SimulationState.timestamp st = time
    /\ SimulationState.gz st = 1
    /\ 1 <= SimulationState.g_total st
    /\ 0 <= SimulationState.throttle st <= 1
    /\ 0 <= SimulationState.brake st <= 1
    /\ (SimulationState.throttle st = 0 \/ SimulationState.brake st = 0)
    /\ 0 < SimulationState.radius st <= 1e9.
Proof.
  intros pts v Hi. unfold QuasiSteadyStateSolver.createState.
  rewrite getPoint_in_range by exact Hi. cbn [obind]. fold pts. fold v.
  cbv zeta.
  set (ax := if decide (index < size_t_pred (QuasiSteadyStateSolver.n_points_ q))%nat
             then _ else 0.0).
  eexists. split; [reflexivity|].
  unfold SimulationState.updateGForces.
  cbn [SimulationState.s SimulationState.x SimulationState.y SimulationState.z
       SimulationState.v SimulationState.v_kmh SimulationState.ay SimulationState.az
       SimulationState.ax SimulationState.timestamp SimulationState.gz
       SimulationState.gx SimulationState.gy
       SimulationState.g_total SimulationState.throttle SimulationState.brake
       SimulationState.radius].
  do 8 (split; [reflexivity|]).
  destruct (Rle_dec 9.81 0.0) as [Hle|_]; [lra|].
  assert (Hgz : GRAVITY / 9.81 = 1) by (unfold GRAVITY; lra).
  split; [exact Hgz|]. split.
  { rewrite Hgz. rewrite <- sqrt_1 at 1. apply sqrt_le_1_alt.
    pose proof (Rle_0_sqr (ax / 9.81)) as H1.
    pose proof (Rle_0_sqr (v * v * kappa (pts !!! index) / 9.81)) as H2.
    unfold Rsqr in H1, H2. lra. }
  assert (Hmin : forall a, 0 < a -> 0 <= Std.min 1.0 a <= 1).
  { intros a Ha. split.
    - apply std_min_glb; lra.
    - pose proof (std_min_le_l 1.0 a). lra. }
  split; [|split; [|split]].
  - destruct (Rlt_dec 0.1 ax); [apply Hmin; lra|lra].
  - destruct (Rlt_dec 0.1 ax); [lra|].
    destruct (Rlt_dec ax (-0.1)); [apply Hmin; lra|lra].
  - destruct (Rlt_dec 0.1 ax); [right; lra|left; lra].
  - destruct (Rlt_dec 1e-6 (Std.abs (kappa (pts !!! index)))) as [Hk|_]; [|lra].
    set (a := Std.abs (kappa (pts !!! index))) in *.
    assert (Ha : 0 < a) by lra.
    assert (Hinv : 0 < / a) by (apply Rinv_0_lt_compat; exact Ha).
    assert (Hle : / a <= / 1e-6).
    { apply Rinv_le_contravar; lra. }
    replace (/ 1e-6) with 1e6 in Hle by lra.
    unfold Rdiv. lra.
Qed.

(** X21: [createState] fails exactly for an index outside the track. Within
    the track it reports the arc length and position of the point, the
    optimal speed (also in km/h), the lateral acceleration [v^2 kappa], the
    time it was given, a vertical g-force of exactly 1 and hence a total
    g-force of at least 1, throttle and brake in [[0, 1]] and never both
    applied, and a positive corner radius of at most 1e9. *)
Theorem createState_spec (q : QuasiSteadyStateSolver.t) (index : nat) (time : R) :
  let pts := points_ (QuasiSteadyStateSolver.track_ q) in
  let v := QuasiSteadyStateSolver.v_optimal_ q !!! index in
  ((length pts <= index)%nat ->
   QuasiSteadyStateSolver.createState q index time
   = Throw (out_of_range "Track point index out of range"))
  /\ ((index < length pts)%nat ->
      exists st,
        QuasiSteadyStateSolver.createState q index time = Ok st
        /\ SimulationState.s st = s (pts !!! index)
        /\ SimulationState.x st = x (pts !!! index)
        /\ SimulationState.y st = y (pts !!! index)
        /\ SimulationState.z st = z (pts !!! index)
        /\ SimulationState.v st = v
        /\ SimulationState.v_kmh st = v * 3.6
        /\ SimulationState.ay st = v * v * kappa (pts !!! index)
        /\ SimulationState.timestamp st = time
        /\ SimulationState.gz st = 1
        /\ 1 <= SimulationState.g_total st
        /\ 0 <= SimulationState.throttle st <= 1
        /\ 0 <= SimulationState.brake st <= 1
        /\ (SimulationState.throttle st = 0 \/ SimulationState.brake st = 0)
        /\ 0 < SimulationState.radius st <= 1e9).
Proof.
  intros pts v. split.
  - intros Hi. unfold QuasiSteadyStateSolver.createState, Track.getPoint. fold pts.
    destruct (decide (length pts <= index)%nat); [reflexivity|lia].
  - apply createState_fields.
Qed.

Lemma createState_spec_witness :
  exists st,
    QuasiSteadyStateSolver.createState (solver_of example_track example_vehicle) 1 0 = Ok st
    /\ 1 <= SimulationState.g_total st.
Proof.
  destruct (proj2 (createState_spec (solver_of example_track example_vehicle) 1 0))
    as (st & Hst & _ & _ & _ & _ & _ & _ & _ & _ & _ & Hg & _).
  - destruct (preprocess_Ok _ _ example_track_preprocess) as (_ & _ & Hl & _).
    cbn [QuasiSteadyStateSolver.track_ solver_of]. rewrite Hl. simpl. lia.
  - exists st. split; [exact Hst|exact Hg].
Defined.

Lemma for_each_m_app {S : Type} (body : nat -> S -> outcome S) (l1 l2 : list nat) :
  forall st,
    for_each_m body (l1 ++ l2) st = do st' <- for_each_m body l1 st; for_each_m body l2 st'.
Proof.
  induction l1 as [|i l1 IH]; intros st; [reflexivity|].
  simpl. destruct (body i st); simpl; [apply IH|reflexivity|reflexivity].
Qed.

Lemma elapsed_S (q : QuasiSteadyStateSolver.t) (k : nat) :
  elapsed q (S k)
  = if Rlt_dec 0.0 (QuasiSteadyStateSolver.v_optimal_ q !!! k)
    then elapsed q k
         + ds (points_ (QuasiSteadyStateSolver.track_ q) !!! k)
           / (QuasiSteadyStateSolver.v_optimal_ q !!! k)
    else elapsed q k.
Proof. unfold elapsed. rewrite seq_S, foldl_app. reflexivity. Qed.

Lemma elapsed_monotone (q : QuasiSteadyStateSolver.t) (i j : nat) :
  (forall k, 0 <= ds (points_ (QuasiSteadyStateSolver.track_ q) !!! k)) ->
  (i <= j)%nat -> 0 <= elapsed q i <= elapsed q j.
Proof.
  intros Hds Hij.
  assert (Hstep : forall k, elapsed q k <= elapsed q (S k)).
  { intros k. rewrite elapsed_S.
    destruct (Rlt_dec 0.0 (QuasiSteadyStateSolver.v_optimal_ q !!! k)) as [Hv|_]; [|lra].
    assert (Hv' : 0 < QuasiSteadyStateSolver.v_optimal_ q !!! k) by lra.
    pose proof (div_nonneg _ _ (Hds k) Hv'). lra. }
  assert (H0 : forall k, 0 <= elapsed q k).
  { induction k as [|k IH]; [unfold elapsed; simpl; lra|].
    pose proof (Hstep k). lra. }
  split; [apply H0|].
  induction Hij as [|j Hij IH]; [lra|]. pose proof (Hstep j). lra.
Qed.

Lemma calculateLapTime_elapsed (q : QuasiSteadyStateSolver.t) :
  QuasiSteadyStateSolver.n_points_ q = length (points_ (QuasiSteadyStateSolver.track_ q)) ->
  QuasiSteadyStateSolver.calculateLapTime q
  = Ok (elapsed q (QuasiSteadyStateSolver.n_points_ q)).
Proof.
  intros Hn. unfold QuasiSteadyStateSolver.calculateLapTime, for_range_m.
  rewrite Nat.sub_0_r.
  assert (Hgen : forall k, (k <= QuasiSteadyStateSolver.n_points_ q)%nat ->
            for_each_m
              (fun i total_time =>
                 do point <- Track.getPoint (QuasiSteadyStateSolver.track_ q) i;
                 if Rlt_dec 0.0 (QuasiSteadyStateSolver.v_optimal_ q !!! i)
                 then Ok (total_time + ds point / QuasiSteadyStateSolver.v_optimal_ q !!! i)
                 else Ok total_time) (seq 0 k) 0.0
            = Ok (elapsed q k)).
  { induction k as [|k IH]; intros Hk; [reflexivity|].
    rewrite seq_S, for_each_m_app, IH by lia. cbn [obind for_each_m Nat.add].
    rewrite getPoint_in_range by lia. cbn [obind]. rewrite elapsed_S.
    destruct (Rlt_dec 0.0 (QuasiSteadyStateSolver.v_optimal_ q !!! k)); reflexivity. }
  apply Hgen. lia.
Qed.

(** The loop of [getDetailedResult] after [k] rounds. *)
Lemma getDetailedResult_prefix (q : QuasiSteadyStateSolver.t) (k : nat) :
  (k <= length (points_ (QuasiSteadyStateSolver.track_ q)))%nat ->
  exists r,
    for_each_m (QuasiSteadyStateSolver.getDetailedResult_step q) (seq 0 k)
      (LapResult.setLapTime LapResult.new (QuasiSteadyStateSolver.lap_time_ q), 0.0)
    = Ok (r, elapsed q k)
    /\ LapResult.lap_time_ r = QuasiSteadyStateSolver.lap_time_ q
    /\ length (LapResult.states_ r) = k
    /\ forall i, (i < k)%nat ->
         QuasiSteadyStateSolver.createState q i (elapsed q i) = Ok (LapResult.states_ r !!! i).
Proof.
  induction k as [|k IH]; intros Hk.
  - eexists. split; [reflexivity|]. split; [reflexivity|]. split; [reflexivity|].
    intros; lia.
  - destruct (IH ltac:(lia)) as (r & Hrun & Hlap & Hlen & Hst).
    destruct (createState_fields q k (elapsed q k) ltac:(lia)) as (st & Hcs & _).
    rewrite seq_S, for_each_m_app, Hrun. cbn [obind for_each_m Nat.add].
    unfold QuasiSteadyStateSolver.getDetailedResult_step. cbn [fst snd].
    rewrite Hcs. cbn [obind]. rewrite getPoint_in_range by lia. cbn [obind].
    exists (LapResult.addState r st). split.
    + rewrite elapsed_S.
      destruct (Rlt_dec 0.0 (QuasiSteadyStateSolver.v_optimal_ q !!! k)); reflexivity.
    + split; [exact Hlap|]. cbn [LapResult.addState LapResult.states_]. split.
      * rewrite length_app, Hlen. simpl. lia.
      * intros i Hi. destruct (decide (i = k)) as [->|Hne].
        -- rewrite lookup_total_app_r by lia. rewrite Hlen, Nat.sub_diag. exact Hcs.
        -- rewrite lookup_total_app_l by lia. apply Hst. lia.
Qed.

(** What [getDetailedResult] returns on a state whose point count is that of
    its track. *)
Lemma getDetailedResult_states (q : QuasiSteadyStateSolver.t) :
  let N := length (points_ (QuasiSteadyStateSolver.track_ q)) in
  QuasiSteadyStateSolver.n_points_ q = N ->
  exists r,
    QuasiSteadyStateSolver.getDetailedResult q = Ok r
    /\ LapResult.getLapTime r = QuasiSteadyStateSolver.lap_time_ q
    /\ LapResult.size r = N
    /\ (forall i, (i < N)%nat ->
          QuasiSteadyStateSolver.createState q i (elapsed q i) = Ok (LapResult.states_ r !!! i)
          /\ SimulationState.timestamp (LapResult.states_ r !!! i) = elapsed q i
          /\ SimulationState.s (LapResult.states_ r !!! i)
             = s (points_ (QuasiSteadyStateSolver.track_ q) !!! i)
          /\ SimulationState.v (LapResult.states_ r !!! i)
             = QuasiSteadyStateSolver.v_optimal_ q !!! i)
    /\ QuasiSteadyStateSolver.calculateLapTime q = Ok (elapsed q N).
Proof.
  intros N Hn.
  destruct (getDetailedResult_prefix q N ltac:(lia)) as (r & Hrun & Hlap & Hlen & Hst).
  exists r. split; [|split; [exact Hlap|split; [exact Hlen|split]]].
  - unfold QuasiSteadyStateSolver.getDetailedResult, for_range_m. cbv zeta.
    rewrite Hn, Nat.sub_0_r. fold N. rewrite Hrun. reflexivity.
  - intros i Hi. pose proof (Hst i Hi) as Hcs. split; [exact Hcs|].
    destruct (createState_fields q i (elapsed q i) Hi)
      as (st & Hcs' & Hs & _ & _ & _ & Hv & _ & _ & Hts & _).
    rewrite Hcs in Hcs'. injection Hcs' as <-.
    split; [exact Hts|]. split; [exact Hs|exact Hv].
  - rewrite <- Hn. apply calculateLapTime_elapsed. exact Hn.
Qed.

(** X22: [getDetailedResult] returns one state per track point, in order,
    under the solver's lap time. State [i] is what [createState] builds for
    point [i] at the time accumulated over the points before it, by the rule
    of [calculateLapTime]; the time accumulated over all points is the value
    [calculateLapTime] returns. *)
Theorem getDetailedResult_spec (q : QuasiSteadyStateSolver.t) :
  let N := length (points_ (QuasiSteadyStateSolver.track_ q)) in
  QuasiSteadyStateSolver.n_points_ q = N ->
  exists r,
    QuasiSteadyStateSolver.getDetailedResult q = Ok r
    /\ LapResult.getLapTime r = QuasiSteadyStateSolver.lap_time_ q
    /\ LapResult.size r = N
    /\ (forall i, (i < N)%nat ->
          QuasiSteadyStateSolver.createState q i (elapsed q i) = Ok (LapResult.states_ r !!! i)
          /\ SimulationState.timestamp (LapResult.states_ r !!! i) = elapsed q i
          /\ SimulationState.s (LapResult.states_ r !!! i)
             = s (points_ (QuasiSteadyStateSolver.track_ q) !!! i)
          /\ SimulationState.v (LapResult.states_ r !!! i)
             = QuasiSteadyStateSolver.v_optimal_ q !!! i)
    /\ QuasiSteadyStateSolver.calculateLapTime q = Ok (elapsed q N).
Proof. apply getDetailedResult_states. Qed.

Lemma getDetailedResult_spec_witness :
  exists r,
    QuasiSteadyStateSolver.getDetailedResult (solver_of example_track example_vehicle) = Ok r
    /\ LapResult.size r = length (points_ example_track).
Proof.
  destruct (getDetailedResult_spec (solver_of example_track example_vehicle) eq_refl)
    as (r & Hr & _ & Hsize & _).
  exists r. split; [exact Hr|exact Hsize].
Defined.

(** X23: the telemetry of a solved lap. After [solve] with at least one
    iteration, [getDetailedResult] returns one state per track point under
    the lap time [solve] returned; the time stamps start at 0, never decrease
    along the lap and never exceed the lap time; and for a positive lap time
    [getAverageSpeed] is the arc length of the last point over the lap time. *)
Theorem telemetry_after_solve (track : TrackData) (vehicle : VehicleParams)
        (q : QuasiSteadyStateSolver.t) (max_iterations : Z) (tolerance : R) :
  Track.reachable track ->
  QuasiSteadyStateSolver.new track vehicle = Ok q ->
  (1 <= max_iterations)%Z ->
  forall fuel, (241 <= fuel)%nat ->
    let N := length (points_ track) in
    exists lap_time q' r,
      QuasiSteadyStateSolver.solve fuel q max_iterations tolerance = Ok (lap_time, q')
      /\ QuasiSteadyStateSolver.getDetailedResult q' = Ok r
      /\ LapResult.getLapTime r = lap_time
      /\ LapResult.size r = N
      /\ SimulationState.timestamp (LapResult.states_ r !!! 0%nat) = 0
      /\ (forall i j, (i <= j < N)%nat ->
            SimulationState.timestamp (LapResult.states_ r !!! i)
            <= SimulationState.timestamp (LapResult.states_ r !!! j) <= lap_time)
      /\ (0 < lap_time ->
          LapResult.getAverageSpeed r = s (points_ track !!! (N - 1)%nat) / lap_time).
Proof.
  intros Hreach Hnew Hmax fuel Hfuel N.
  destruct (solve_post track vehicle q max_iterations tolerance fuel Hreach Hnew Hmax Hfuel)
    as (q' & Hsolve & Hr' & Hlap & _).
  apply solver_new_Ok in Hnew as (Hpre & _).
  destruct (reachable_preprocessed track Hreach Hpre) as [Hlen Hds].
  destruct Hr' as (Ht & Hn & _).
  assert (Hn' : QuasiSteadyStateSolver.n_points_ q'
                = length (points_ (QuasiSteadyStateSolver.track_ q')))
    by (rewrite Ht; exact Hn).
  destruct (getDetailedResult_states q' Hn') as (r & Hr & Hrlap & Hsize & Hst & Hcalc).
  rewrite Ht in Hst, Hcalc, Hsize. fold N in Hst, Hcalc, Hsize.
  rewrite Hlap in Hcalc. injection Hcalc as HT.
  assert (Hds' : forall k, 0 <= ds (points_ (QuasiSteadyStateSolver.track_ q') !!! k))
    by (rewrite Ht; exact Hds).
  exists (QuasiSteadyStateSolver.lap_time_ q'), q', r.
  split; [exact Hsolve|]. split; [exact Hr|]. split; [exact Hrlap|].
  split; [exact Hsize|]. split; [|split].
  - destruct (Hst 0%nat ltac:(lia)) as (_ & -> & _). unfold elapsed. simpl. lra.
  - intros i j Hij.
    destruct (Hst i ltac:(lia)) as (_ & -> & _).
    destruct (Hst j ltac:(lia)) as (_ & -> & _).
    rewrite HT.
    pose proof (elapsed_monotone q' i j Hds' ltac:(lia)).
    pose proof (elapsed_monotone q' j N Hds' ltac:(lia)). lra.
  - intros HTpos. unfold LapResult.getAverageSpeed, LapResult.states_back.
    unfold LapResult.getLapTime in Hrlap. unfold LapResult.size in Hsize.
    destruct (decide (LapResult.states_ r = [])) as [He|_].
    { rewrite He in Hsize. simpl in Hsize. lia. }
    rewrite Hrlap.
    destruct (Rle_dec (QuasiSteadyStateSolver.lap_time_ q') 0.0) as [Hle|_]; [lra|].
    rewrite Hsize. destruct (Hst (N - 1)%nat ltac:(lia)) as (_ & _ & -> & _).
    reflexivity.
Qed.

Lemma telemetry_after_solve_witness :
  exists lap_time q' r,
    QuasiSteadyStateSolver.solve 241 (solver_of example_track example_vehicle) 10 0.001
    = Ok (lap_time, q')
    /\ QuasiSteadyStateSolver.getDetailedResult q' = Ok r
    /\ LapResult.getLapTime r = lap_time.
Proof.
  destruct (telemetry_after_solve example_track example_vehicle
              (solver_of example_track example_vehicle) 10 0.001
              example_track_reachable
              (solver_new_solver_of example_track example_vehicle eq_refl
                 example_vehicle_valid)
              ltac:(lia) 241%nat ltac:(lia))
    as (lap_time & q' & r & Hsolve & Hr & Hlap & _).
  exists lap_time, q', r. split; [exact Hsolve|]. split; [exact Hr|exact Hlap].
Defined.

(** ** LapResult and SimulationState *)

Lemma foldl_max_spec {A : Type} (f : A -> R) (l : list A) (a0 : R) :
  let m := foldl (fun acc x => Std.max acc (f x)) a0 l in
  a0 <= m /\ (forall x, x ∈ l -> f x <= m) /\ (m = a0 \/ exists x, x ∈ l /\ m = f x).
Proof.
  induction l as [|y l IH] using rev_ind.
  - simpl. split; [lra|]. split; [intros x Hx; inversion Hx|left; reflexivity].
  - cbv zeta in *. rewrite foldl_app. simpl.
    destruct IH as (H0 & Hmax & Hatt).
    set (m := foldl (fun acc x => Std.max acc (f x)) a0 l) in *.
    pose proof (std_max_ge_l m (f y)) as Hl. pose proof (std_max_ge_r m (f y)) as Hr.
    split; [lra|]. split.
    + intros x Hx. apply elem_of_app in Hx as [Hx|Hx].
      * pose proof (Hmax x Hx). lra.
      * apply list_elem_of_singleton in Hx. subst x. exact Hr.
    + unfold Std.max. destruct (Rlt_dec m (f y)) as [Hlt|Hge].
      * right. exists y. split; [|reflexivity].
        apply elem_of_app. right. apply list_elem_of_singleton. reflexivity.
      * destruct Hatt as [Hz|(x & Hx & Heq)]; [left; exact Hz|].
        right. exists x. split; [|exact Heq]. apply elem_of_app. left. exact Hx.
Qed.

Lemma getMaxGForces_folds (l : list SimulationState.t) (a b c : R) :
  foldl (fun '(max_gx, max_gy, max_g_total) state =>
           (Std.max max_gx (Std.abs (SimulationState.gx state)),
            Std.max max_gy (Std.abs (SimulationState.gy state)),
            Std.max max_g_total (SimulationState.g_total state)))
        (a, b, c) l
  = (foldl (fun acc st => Std.max acc (Std.abs (SimulationState.gx st))) a l,
     foldl (fun acc st => Std.max acc (Std.abs (SimulationState.gy st))) b l,
     foldl (fun acc st => Std.max acc (SimulationState.g_total st)) c l).
Proof.
  revert a b c. induction l as [|st l IH]; intros a b c; [reflexivity|].
  simpl. apply IH.
Qed.

(** X24: the maxima a [LapResult] reports. [getMaxSpeed] is 0 or the speed of
    a stored state, is never negative and is at least the speed of every
    stored state; the three values of [getMaxGForces] are never negative and
    bound the magnitudes of the longitudinal and lateral g-forces and the
    total g-force of every stored state. *)
Theorem lap_maxima (r : LapResult.t) :
  let max_speed := LapResult.getMaxSpeed r in
  let max_gx := fst (fst (LapResult.getMaxGForces r)) in
  let max_gy := snd (fst (LapResult.getMaxGForces r)) in
  let max_g_total := snd (LapResult.getMaxGForces r) in
  0 <= max_speed
  /\ (max_speed = 0 \/ exists st, st ∈ LapResult.states_ r /\ max_speed = SimulationState.v st)
  /\ 0 <= max_gx /\ 0 <= max_gy /\ 0 <= max_g_total
  /\ forall st, st ∈ LapResult.states_ r ->
       SimulationState.v st <= max_speed
       /\ Rabs (SimulationState.gx st) <= max_gx
       /\ Rabs (SimulationState.gy st) <= max_gy
       /\ SimulationState.g_total st <= max_g_total.
Proof.
  intros max_speed max_gx max_gy max_g_total.
  assert (Hspeed : max_speed
                   = foldl (fun acc st => Std.max acc (SimulationState.v st)) 0.0
                           (LapResult.states_ r)).
  { unfold max_speed, LapResult.getMaxSpeed. destruct (LapResult.states_ r); reflexivity. }
  unfold max_gx, max_gy, max_g_total, LapResult.getMaxGForces.
  rewrite getMaxGForces_folds. cbn [fst snd]. rewrite Hspeed.
  destruct (foldl_max_spec SimulationState.v (LapResult.states_ r) 0.0) as (Hv0 & Hv & Hva).
  destruct (foldl_max_spec (fun st => Std.abs (SimulationState.gx st))
              (LapResult.states_ r) 0.0) as (Hx0 & Hx & _).
  destruct (foldl_max_spec (fun st => Std.abs (SimulationState.gy st))
              (LapResult.states_ r) 0.0) as (Hy0 & Hy & _).
  destruct (foldl_max_spec SimulationState.g_total (LapResult.states_ r) 0.0)
    as (Hg0 & Hg & _).
  cbv zeta in *.
  split; [lra|]. split.
  { destruct Hva as [Hz|Hex]; [left; rewrite Hz; lra|right; exact Hex]. }
  split; [lra|]. split; [lra|]. split; [lra|].
  intros st Hst. split; [apply Hv; exact Hst|]. split; [apply Hx; exact Hst|].
  split; [apply Hy; exact Hst|apply Hg; exact Hst].
Qed.

Lemma abs_le_norm (a b c : R) : Rabs a <= sqrt (a * a + b * b + c * c).
Proof.
  rewrite <- sqrt_Rsqr_abs. apply sqrt_le_1_alt. unfold Rsqr.
  pose proof (Rle_0_sqr b) as Hb. pose proof (Rle_0_sqr c) as Hc.
  unfold Rsqr in Hb, Hc. lra.
Qed.

(** X25: [updateGForces] divides the three accelerations by the gravity it
    is given, or by 9.81 when that is not positive, and leaves the speed and
    the accelerations as they are. The total g-force is the Euclidean norm of
    the three components, so it bounds the magnitude of each. *)
Theorem updateGForces_spec (gravity : R) (st : SimulationState.t) :
  let g := if Rle_dec gravity 0 then 9.81 else gravity in
  let st' := SimulationState.updateGForces gravity st in
  SimulationState.gx st' = SimulationState.ax st / g
  /\ SimulationState.gy st' = SimulationState.ay st / g
  /\ SimulationState.gz st' = SimulationState.az st / g
  /\ SimulationState.g_total st' * SimulationState.g_total st'
     = SimulationState.gx st' * SimulationState.gx st'
       + SimulationState.gy st' * SimulationState.gy st'
       + SimulationState.gz st' * SimulationState.gz st'
  /\ Rabs (SimulationState.gx st') <= SimulationState.g_total st'
  /\ Rabs (SimulationState.gy st') <= SimulationState.g_total st'
  /\ Rabs (SimulationState.gz st') <= SimulationState.g_total st'
  /\ SimulationState.v st' = SimulationState.v st
  /\ SimulationState.ax st' = SimulationState.ax st
  /\ SimulationState.ay st' = SimulationState.ay st
  /\ SimulationState.az st' = SimulationState.az st.
Proof.
  intros g st'. unfold st', SimulationState.updateGForces. cbv zeta.
  cbn [SimulationState.gx SimulationState.gy SimulationState.gz SimulationState.g_total
       SimulationState.v SimulationState.ax SimulationState.ay SimulationState.az].
  assert (Hg : (if Rle_dec gravity 0.0 then 9.81 else gravity) = g).
  { unfold g. destruct (Rle_dec gravity 0.0), (Rle_dec gravity 0); try reflexivity; lra. }
  rewrite Hg.
  set (a := SimulationState.ax st / g). set (b := SimulationState.ay st / g).
  set (c := SimulationState.az st / g).
  do 3 (split; [reflexivity|]). split.
  { apply sqrt_sqrt. pose proof (Rle_0_sqr a) as Ha. pose proof (Rle_0_sqr b) as Hb.
    pose proof (Rle_0_sqr c) as Hc. unfold Rsqr in Ha, Hb, Hc. lra. }
  split; [apply abs_le_norm|]. split.
  { replace (a * a + b * b + c * c) with (b * b + a * a + c * c) by ring.
    apply abs_le_norm. }
  split.
  { replace (a * a + b * b + c * c) with (c * c + b * b + a * a) by ring.
    apply abs_le_norm. }
  repeat split; reflexivity.
Qed.

(** ** AerodynamicsModel *)

(** X26: drag, downforce and vertical load do not depend on the direction of
    travel. With positive air density and frontal area the drag has the sign
    of the drag coefficient, and with a lift coefficient that is not positive
    the downforce is not negative, so [getTotalVerticalLoad] is at least the
    weight. *)
Theorem aero_forces_spec (m : AerodynamicsModel.t) (v mass g : R) :
  AerodynamicsModel.getDragForce m (- v) = AerodynamicsModel.getDragForce m v
  /\ AerodynamicsModel.getDownforce m (- v) = AerodynamicsModel.getDownforce m v
  /\ AerodynamicsModel.getDragPower m (- v) = - AerodynamicsModel.getDragPower m v
  /\ AerodynamicsModel.getTotalVerticalLoad m 0 mass g = mass * g
  /\ (0 < air_density (AerodynamicsModel.params_ m) ->
      0 < frontal_area (AerodynamicsModel.params_ m) ->
      (0 <= Cd (AerodynamicsModel.params_ m) -> 0 <= AerodynamicsModel.getDragForce m v)
      /\ (Cl (AerodynamicsModel.params_ m) <= 0 ->
          0 <= AerodynamicsModel.getDownforce m v
          /\ mass * g <= AerodynamicsModel.getTotalVerticalLoad m v mass g)).
Proof.
  unfold AerodynamicsModel.getDragPower, AerodynamicsModel.getTotalVerticalLoad,
    AerodynamicsModel.getDragForce, AerodynamicsModel.getDownforce,
    AerodynamicsModel.getAeroCoefficient. cbv zeta.
  split; [ring|]. split; [ring|]. split; [ring|]. split; [ring|].
  intros Hrho HA.
  assert (Hc : 0 < 0.5 * air_density (AerodynamicsModel.params_ m)
                   * frontal_area (AerodynamicsModel.params_ m)).
  { apply Rmult_lt_0_compat; [lra|exact HA]. }
  pose proof (Rle_0_sqr v) as Hv. unfold Rsqr in Hv.
  set (c := 0.5 * air_density (AerodynamicsModel.params_ m)
            * frontal_area (AerodynamicsModel.params_ m)) in *.
  split.
  - intros HCd. apply Rmult_le_pos; [apply Rmult_le_pos; lra|exact Hv].
  - intros HCl.
    assert (Hd : 0 <= - c * Cl (AerodynamicsModel.params_ m) * (v * v)).
    { replace (- c * Cl (AerodynamicsModel.params_ m) * (v * v))
        with (c * (- Cl (AerodynamicsModel.params_ m)) * (v * v)) by ring.
      apply Rmult_le_pos; [apply Rmult_le_pos; lra|exact Hv]. }
    split; [exact Hd|lra].
Qed.

Lemma aero_forces_spec_witness :
  0 <= AerodynamicsModel.getDownforce (AerodynamicsModel.new Params.AeroParams_default) 50.
Proof.
  refine (proj1 (proj2 (proj2 (proj2 (proj2 (proj2
            (aero_forces_spec (AerodynamicsModel.new Params.AeroParams_default) 50 800 9.81))))
                          _ _) _)); simpl; lra.
Defined.

(** ** TrackData: arc length as a running sum *)

Lemma ds_sum_S (pts : list TrackPoint) (k : nat) :
  ds_sum pts (S k) = ds_sum pts k + ds (pts !!! k).
Proof. unfold ds_sum. rewrite seq_S, foldl_app. reflexivity. Qed.

Lemma preprocess_sums (t t' : TrackData) :
  Track.preprocess t = Ok t' ->
  let pts := points_ t' in
  let N := length pts in
  (3 <= N)%nat
  /\ (forall i, (i < N)%nat -> 0 <= ds (pts !!! i))
  /\ (forall k, (k < N)%nat -> s (pts !!! k) = ds_sum pts k)
  /\ total_length_ t' = ds_sum pts N.
Proof.
  intros Hpre pts N.
  destruct (preprocess_Ok t t' Hpre) as (Hlen & _ & Hl & _ & Hs0 & Hstep & Hlast & HL).
  fold pts in Hl, Hs0, Hstep, Hlast, HL.
  assert (HN : N = length (points_ t)) by exact Hl.
  rewrite <- HN in Hstep, Hlast, HL.
  assert (Hds : forall i, (i < N)%nat -> 0 <= ds (pts !!! i)).
  { intros i Hi. destruct (decide (i + 1 < N)%nat) as [Hlt|Hge].
    - rewrite (proj1 (Hstep i Hlt)). apply dist3_nonneg.
    - replace i with (N - 1)%nat by lia. rewrite Hlast. apply dist3_nonneg. }
  assert (Hs : forall k, (k < N)%nat -> s (pts !!! k) = ds_sum pts k).
  { induction k as [|k IH]; intros Hk.
    - rewrite Hs0. reflexivity.
    - rewrite ds_sum_S, <- IH by lia.
      replace (S k) with (k + 1)%nat by lia. apply (Hstep k). lia. }
  split; [lia|]. split; [exact Hds|]. split; [exact Hs|].
  rewrite HL. replace N with (S (N - 1)) at 3 by lia.
  rewrite ds_sum_S, <- Hs by lia. reflexivity.
Qed.

Lemma ds_sum_monotone (pts : list TrackPoint) (n i j : nat) :
  (forall k, (k < n)%nat -> 0 <= ds (pts !!! k)) ->
  (i <= j <= n)%nat -> ds_sum pts i <= ds_sum pts j.
Proof.
  intros Hds [Hij Hjn]. induction Hij as [|j Hij IH]; [lra|].
  rewrite ds_sum_S. pose proof (Hds j ltac:(lia)). specialize (IH ltac:(lia)). lra.
Qed.

Lemma preprocess_sorted (t t' : TrackData) :
  Track.preprocess t = Ok t' ->
  s_sorted (points_ t')
  /\ forall i, (i < length (points_ t'))%nat ->
       0 <= s (points_ t' !!! i)
       /\ s (points_ t' !!! i) + ds (points_ t' !!! i) <= total_length_ t'.
Proof.
  intros Hpre. destruct (preprocess_sums t t' Hpre) as (HN & Hds & Hs & HL).
  split.
  - intros i j Hij. rewrite !Hs by lia.
    apply (ds_sum_monotone _ (length (points_ t'))); [exact Hds|lia].
  - intros i Hi. rewrite HL, Hs by exact Hi. split.
    + replace 0 with (ds_sum (points_ t') 0) by reflexivity.
      apply (ds_sum_monotone _ (length (points_ t'))); [exact Hds|lia].
    + rewrite <- ds_sum_S.
      apply (ds_sum_monotone _ (length (points_ t'))); [exact Hds|lia].
Qed.

(** X27: after [preprocess] the arc length of a point is the sum of the
    segment lengths before it and the total length is the sum of all segment
    lengths, the closing segment included; no segment length is negative, so
    the arc lengths never decrease along the track and every segment ends
    within the total length. *)
Theorem preprocess_arc_sums (t t' : TrackData) :
  Track.preprocess t = Ok t' ->
  let pts := points_ t' in
  let N := length pts in
  (forall i, (i < N)%nat -> 0 <= ds (pts !!! i))
  /\ (forall k, (k < N)%nat -> s (pts !!! k) = ds_sum pts k)
  /\ total_length_ t' = ds_sum pts N
  /\ (forall i j, (i <= j < N)%nat -> 0 <= s (pts !!! i) <= s (pts !!! j))
  /\ (forall i, (i < N)%nat -> s (pts !!! i) + ds (pts !!! i) <= total_length_ t').
Proof.
  intros Hpre pts N.
  destruct (preprocess_sums t t' Hpre) as (_ & Hds & Hs & HL).
  destruct (preprocess_sorted t t' Hpre) as (Hsorted & Hrange).
  split; [exact Hds|]. split; [exact Hs|]. split; [exact HL|]. split.
  - intros i j Hij. split; [apply Hrange; unfold N in Hij; fold pts; lia|].
    apply Hsorted. exact Hij.
  - intros i Hi. apply Hrange. exact Hi.
Qed.

Lemma preprocess_arc_sums_witness :
  total_length_ example_track = ds_sum (points_ example_track) (length (points_ example_track)).
Proof.
  exact (proj1 (proj2 (proj2 (preprocess_arc_sums example_raw_track example_track
                                example_track_preprocess)))).
Defined.

(** ** TrackData: the binary search *)

Lemma mid_of_between (left_ right_ : nat) :
  (left_ < right_)%nat -> (left_ <= Track.mid_of left_ right_ < right_)%nat.
Proof.
  intros Hlt. unfold Track.mid_of.
  assert (Hd := Nat.div_mod_eq (right_ - left_) 2).
  assert (Hm := Nat.mod_upper_bound (right_ - left_) 2). lia.
Qed.

Lemma findIndexAt_loop_spec (pts : list TrackPoint) (sv : R) (left_ right_ : nat) :
  s_sorted pts ->
  (left_ <= right_ < length pts)%nat ->
  (forall j, (j < left_)%nat -> s (pts !!! j) <= sv) ->
  (forall j, (right_ <= j < length pts - 1)%nat -> sv < s (pts !!! j)) ->
  let found := Track.findIndexAt_loop pts sv left_ right_ in
  (left_ <= found <= right_)%nat
  /\ (forall j, (j < found)%nat -> s (pts !!! j) <= sv)
  /\ (forall j, (found <= j < length pts - 1)%nat -> sv < s (pts !!! j)).
Proof.
  intros Hsorted. funelim (Track.findIndexAt_loop pts sv left_ right_).
  - intros Hlr Hbelow Habove. cbv zeta.
    pose proof (mid_of_between left_ right_ l) as Hmid.
    destruct (Rle_dec (s (pts !!! Track.mid_of left_ right_)) sv) as [Hle|Hgt].
    + destruct (H Hle Hsorted ltac:(lia)) as (Hr & Hb & Ha).
      * intros j Hj. destruct (decide (j < left_)%nat) as [Hjl|Hjl]; [apply Hbelow; exact Hjl|].
        pose proof (Hsorted j (Track.mid_of left_ right_) ltac:(lia)). lra.
      * exact Habove.
      * split; [lia|]. split; assumption.
    + destruct (H0 Hgt Hsorted ltac:(lia)) as (Hr & Hb & Ha).
      * exact Hbelow.
      * intros j Hj. pose proof (Hsorted (Track.mid_of left_ right_) j ltac:(lia)). lra.
      * split; [lia|]. split; assumption.
  - intros Hlr Hbelow Habove. cbv zeta.
    split; [lia|]. split; [exact Hbelow|].
    intros j Hj. apply Habove. lia.
Qed.

Lemma findIndexAt_found (t : TrackData) (sv : R) :
  let pts := points_ t in
  (1 <= length pts)%nat -> s_sorted pts -> s (pts !!! 0%nat) <= sv ->
  let i := Track.findIndexAt t sv in
  (i < length pts)%nat
  /\ s (pts !!! i) <= sv
  /\ ((i + 1 < length pts)%nat -> sv < s (pts !!! (i + 1)%nat)).
Proof.
  intros pts HN Hsorted H0 i.
  destruct (findIndexAt_loop_spec pts sv 0 (length pts - 1) Hsorted ltac:(lia))
    as (Hrange & Hbelow & Habove).
  { intros j Hj. lia. }
  { intros j Hj. lia. }
  unfold i, Track.findIndexAt. fold pts. cbv zeta in Hrange, Hbelow, Habove |- *.
  set (found := Track.findIndexAt_loop pts sv 0 (length pts - 1)) in *.
  destruct (decide (0 < found)%nat) as [Hpos|Hzero].
  - destruct (Rlt_dec sv (s (pts !!! found))) as [Hlt|Hge].
    + split; [lia|]. split; [apply Hbelow; lia|].
      intros _. replace (found - 1 + 1)%nat with found by lia. exact Hlt.
    + split; [lia|]. split; [lra|].
      intros Hnext. exfalso. apply Hge. apply Habove. lia.
  - assert (Hf : found = 0%nat) by lia. rewrite Hf in *.
    split; [lia|]. split; [exact H0|].
    intros Hnext. exfalso. pose proof (Habove 0%nat ltac:(lia)). lra.
Qed.

(** X28: the binary search of [findIndexAt]. On a non-empty track whose arc
    lengths do not decrease, for an arc length at or after that of the first
    point, it returns the index of a point at or before the arc length whose
    successor, if the track has one, lies strictly after it. *)
Theorem findIndexAt_bracket (t : TrackData) (sv : R) :
  let pts := points_ t in
  (1 <= length pts)%nat -> s_sorted pts -> s (pts !!! 0%nat) <= sv ->
  let i := Track.findIndexAt t sv in
  (i < length pts)%nat
  /\ s (pts !!! i) <= sv
  /\ ((i + 1 < length pts)%nat -> sv < s (pts !!! (i + 1)%nat)).
Proof. apply findIndexAt_found. Qed.

Lemma example_track_sorted :
  (1 <= length (points_ example_track))%nat
  /\ s_sorted (points_ example_track)
  /\ s (points_ example_track !!! 0%nat) = 0.
Proof.
  destruct (preprocess_sorted _ _ example_track_preprocess) as [Hsorted _].
  destruct (preprocess_Ok _ _ example_track_preprocess) as (_ & _ & Hl & _ & Hs0 & _).
  split; [rewrite Hl; simpl; lia|]. split; [exact Hsorted|exact Hs0].
Qed.

Lemma findIndexAt_bracket_witness :
  s (points_ example_track !!! Track.findIndexAt example_track 35) <= 35.
Proof.
  destruct example_track_sorted as (HN & Hsorted & Hs0).
  refine (proj1 (proj2 (findIndexAt_bracket example_track 35 HN Hsorted _))).
  rewrite Hs0. lra.
Defined.

(** ** TrackData: interpolation at a sample point *)

Lemma ds_sum_strict (pts : list TrackPoint) (n i j : nat) :
  (forall k, (k < n)%nat -> 0 < ds (pts !!! k)) ->
  (i < j <= n)%nat -> ds_sum pts i < ds_sum pts j.
Proof.
  intros Hds [Hij Hjn]. induction Hij as [|j Hij IH].
  - rewrite ds_sum_S. pose proof (Hds i ltac:(lia)). lra.
  - rewrite ds_sum_S. pose proof (Hds j ltac:(lia)). specialize (IH ltac:(lia)). lra.
Qed.

Lemma normalize_s_in_range (fuel : nat) (t : TrackData) (sv : R) :
  0 <= sv < total_length_ t -> Track.normalize_s fuel t sv = Ok sv.
Proof.
  intros [H0 HL]. unfold Track.normalize_s.
  assert (Hup : Track.wrap_up fuel (total_length_ t) sv = Ok sv).
  { destruct fuel; simpl; destruct (Rlt_dec sv 0); try lra; reflexivity. }
  rewrite Hup. cbn [obind].
  destruct fuel; simpl; destruct (Rle_dec (total_length_ t) sv); try lra; reflexivity.
Qed.

(** X29: a round trip through the arc length. On a preprocessed track all of
    whose segments are longer than 1e-6, [interpolateAt] at the arc length of
    a track point returns the position, widths, banking, curvature and
    segment length of that very point, whatever the fuel. *)
Theorem interpolateAt_at_point (t t' : TrackData) (i fuel : nat) :
  Track.preprocess t = Ok t' ->
  let pts := points_ t' in
  (forall j, (j < length pts)%nat -> 1e-6 < ds (pts !!! j)) ->
  (i < length pts)%nat ->
  exists p,
    Track.interpolateAt fuel t' (s (pts !!! i)) = Ok p
    /\ s p = s (pts !!! i)
    /\ x p = x (pts !!! i) /\ y p = y (pts !!! i) /\ z p = z (pts !!! i)
    /\ w_tr_left p = w_tr_left (pts !!! i) /\ w_tr_right p = w_tr_right (pts !!! i)
    /\ banking p = banking (pts !!! i)
    /\ kappa p = kappa (pts !!! i)
    /\ ds p = ds (pts !!! i).
Proof.
  intros Hpre pts Hseg Hi.
  destruct (preprocess_Ok t t' Hpre) as (_ & Hflag & _).
  destruct (preprocess_sums t t' Hpre) as (HN & _ & Hs & HL).
  destruct (preprocess_sorted t t' Hpre) as (Hsorted & Hrange).
  fold pts in HN, Hs, HL, Hsorted, Hrange.
  assert (Hpos : forall k, (k < length pts)%nat -> 0 < ds (pts !!! k)).
  { intros k Hk. pose proof (Hseg k Hk). lra. }
  assert (Hstrict : forall a b, (a < b < length pts)%nat -> s (pts !!! a) < s (pts !!! b)).
  { intros a b Hab. rewrite !Hs by lia.
    apply (ds_sum_strict pts (length pts)); [exact Hpos|lia]. }
  set (sv := s (pts !!! i)).
  assert (Hsv : 0 <= sv < total_length_ t').
  { destruct (Hrange i Hi) as [H0 Hend]. pose proof (Hpos i Hi). unfold sv. lra. }
  destruct (findIndexAt_found t' sv ltac:(fold pts; lia) Hsorted) as (Hr & Hle & Hnext).
  { fold pts. destruct (decide (i = 0%nat)) as [->|Hne]; [unfold sv; lra|].
    pose proof (Hstrict 0%nat i ltac:(lia)). unfold sv. lra. }
  fold pts in Hr, Hle, Hnext.
  assert (Hfound : Track.findIndexAt t' sv = i).
  { set (r := Track.findIndexAt t' sv) in *.
    destruct (decide (r = i)) as [|Hne]; [assumption|]. exfalso.
    destruct (decide (r < i)%nat) as [Hlt|Hge].
    - pose proof (Hnext ltac:(lia)) as Hn1.
      pose proof (Hsorted (r + 1)%nat i ltac:(lia)). unfold sv in Hn1. lra.
    - pose proof (Hstrict i r ltac:(lia)). unfold sv in Hle. lra. }
  unfold Track.interpolateAt. rewrite Hflag. cbn [negb].
  rewrite (normalize_s_in_range fuel t' sv Hsv). cbn [obind]. cbv zeta.
  rewrite Hfound. fold pts.
  assert (Htt : Track.interp_t (pts !!! i) sv = 0).
  { unfold Track.interp_t. cbv zeta.
    destruct (Rlt_dec 1e-6 (ds (pts !!! i))) as [_|Hn]; [|pose proof (Hseg i Hi); lra].
    replace ((sv - s (pts !!! i)) / ds (pts !!! i)) with 0
      by (unfold sv, Rdiv; ring).
    unfold Std.max, Std.min.
    destruct (Rlt_dec 0 1.0); [|lra]. destruct (Rlt_dec 0.0 0); lra. }
  rewrite Htt.
  eexists. split; [reflexivity|]. cbn [s x y z w_tr_left w_tr_right banking kappa ds].
  repeat split; try reflexivity; ring.
Qed.

Lemma example_track_segments :
  length (points_ example_track) = 3%nat
  /\ ds (points_ example_track !!! 0%nat) = 30
  /\ ds (points_ example_track !!! 1%nat) = 40
  /\ ds (points_ example_track !!! 2%nat) = 50.
Proof.
  pose proof (preprocess_Ok _ _ example_track_preprocess) as H.
  remember (points_ example_track) as pts eqn:Hpts.
  remember (total_length_ example_track) as L eqn:HL_def.
  clear Hpts HL_def.
  destruct H as (_ & _ & Hl & _ & _ & Hseg & Hlast & _).
  destruct (Hseg 0%nat ltac:(simpl; lia)) as (Hd0 & _).
  destruct (Hseg 1%nat ltac:(simpl; lia)) as (Hd1 & _).
  unfold Track.dist3 in Hd0, Hd1, Hlast. simpl in Hl, Hd0, Hd1, Hlast.
  assert (H30 : sqrt (30 * 30) = 30) by (apply sqrt_square; lra).
  assert (H40 : sqrt (40 * 40) = 40) by (apply sqrt_square; lra).
  assert (H50 : sqrt (50 * 50) = 50) by (apply sqrt_square; lra).
  replace ((30 - 0) * (30 - 0) + (0 - 0) * (0 - 0) + (0 - 0) * (0 - 0))
    with (30 * 30) in Hd0 by lra.
  replace ((30 - 30) * (30 - 30) + (40 - 0) * (40 - 0) + (0 - 0) * (0 - 0))
    with (40 * 40) in Hd1 by lra.
  replace ((0 - 30) * (0 - 30) + (0 - 40) * (0 - 40) + (0 - 0) * (0 - 0))
    with (50 * 50) in Hlast by lra.
  rewrite H30 in Hd0. rewrite H40 in Hd1. rewrite H50 in Hlast.
  repeat split; assumption.
Qed.

Lemma interpolateAt_at_point_witness :
  exists p,
    Track.interpolateAt 0 example_track (s (points_ example_track !!! 1%nat)) = Ok p
    /\ x p = x (points_ example_track !!! 1%nat).
Proof.
  destruct example_track_segments as (Hl & Hd0 & Hd1 & Hd2).
  destruct (interpolateAt_at_point example_raw_track example_track 1 0
              example_track_preprocess)
    as (p & Hp & _ & Hx & _).
  - rewrite Hl. intros j Hj.
    destruct j as [|[|[|j]]]; try lia; rewrite ?Hd0, ?Hd1, ?Hd2; lra.
  - rewrite Hl. lia.
  - exists p. split; [exact Hp|exact Hx].
Defined.

(** ** TrackData: the queries are periodic in the arc length *)

Lemma wrap_up_multiple (fuel : nat) (L : R) :
  forall sv s', Track.wrap_up fuel L sv = Ok s' -> exists k : nat, s' = sv + INR k * L.
Proof.
  induction fuel as [|fuel IH]; intros sv s' Hrun; simpl in Hrun.
  - destruct (Rlt_dec sv 0); [discriminate|]. injection Hrun as <-.
    exists 0%nat. simpl. ring.
  - destruct (Rlt_dec sv 0).
    + apply IH in Hrun as (k & ->). exists (S k). rewrite S_INR. ring.
    + injection Hrun as <-. exists 0%nat. simpl. ring.
Qed.

Lemma wrap_down_multiple (fuel : nat) (L : R) :
  forall sv s', Track.wrap_down fuel L sv = Ok s' -> exists k : nat, s' = sv - INR k * L.
Proof.
  induction fuel as [|fuel IH]; intros sv s' Hrun; simpl in Hrun.
  - destruct (Rle_dec L sv); [discriminate|]. injection Hrun as <-.
    exists 0%nat. simpl. ring.
  - destruct (Rle_dec L sv).
    + apply IH in Hrun as (k & ->). exists (S k). rewrite S_INR. ring.
    + injection Hrun as <-. exists 0%nat. simpl. ring.
Qed.

Lemma normalize_s_multiple (fuel : nat) (t : TrackData) (sv s' : R) :
  Track.normalize_s fuel t sv = Ok s' ->
  exists m : Z, s' = sv + IZR m * total_length_ t.
Proof.
  unfold Track.normalize_s. intros Hrun.
  destruct (Track.wrap_up fuel (total_length_ t) sv) as [s1| |] eqn:Hup;
    cbn [obind] in Hrun; try discriminate.
  apply wrap_up_multiple in Hup as (k1 & ->).
  apply wrap_down_multiple in Hrun as (k2 & ->).
  exists (Z.of_nat k1 - Z.of_nat k2)%Z.
  rewrite minus_IZR, <- !INR_IZR_INZ. ring.
Qed.

(** Two arc lengths within one lap that differ by whole laps are equal. *)
Lemma same_lap (L a b : R) (m : Z) :
  0 < L -> 0 <= a < L -> 0 <= b < L -> a = b + IZR m * L -> a = b.
Proof.
  intros HL Ha Hb Hab.
  assert (Hm : (m = 0)%Z).
  { assert (Hlo : (-1 < m)%Z).
    { apply lt_IZR. destruct (Rlt_dec (-1) (IZR m)) as [|Hn]; [assumption|]. exfalso.
      assert (IZR m * L <= -1 * L) by (apply Rmult_le_compat_r; lra). lra. }
    assert (Hhi : (m < 1)%Z).
    { apply lt_IZR. destruct (Rlt_dec (IZR m) 1) as [|Hn]; [assumption|]. exfalso.
      assert (1 * L <= IZR m * L) by (apply Rmult_le_compat_r; lra). lra. }
    lia. }
  rewrite Hm in Hab. lra.
Qed.

Lemma normalize_s_periodic (t : TrackData) (sv : R) :
  0 < total_length_ t ->
  exists fuel0, forall fuel, (fuel0 <= fuel)%nat ->
    exists s',
      Track.normalize_s fuel t sv = Ok s'
      /\ Track.normalize_s fuel t (sv + total_length_ t) = Ok s'
      /\ 0 <= s' < total_length_ t.
Proof.
  intros HL.
  destruct (normalize_s_returns t sv HL) as (fuel1 & H1).
  destruct (normalize_s_returns t (sv + total_length_ t) HL) as (fuel2 & H2).
  exists (Nat.max fuel1 fuel2). intros fuel Hfuel.
  destruct (H1 fuel ltac:(lia)) as (a & Ha & Hra).
  destruct (H2 fuel ltac:(lia)) as (b & Hb & Hrb).
  destruct (normalize_s_multiple fuel t sv a Ha) as (ma & Hma).
  destruct (normalize_s_multiple fuel t _ b Hb) as (mb & Hmb).
  assert (Hab : b = a).
  { apply (same_lap (total_length_ t) b a (1 + mb - ma)); try assumption.
    rewrite minus_IZR, plus_IZR. lra. }
  exists a. split; [exact Ha|]. split; [rewrite Hb, Hab; reflexivity|exact Hra].
Qed.

(** X30: on a preprocessed track of positive length, [interpolateAt] and
    [getCurvatureAt] are periodic in the arc length with the total length as
    period: with enough fuel for the normalisation loops, a query one lap
    further returns the same result, and the arc length reported lies in
    [0, total length). *)
Theorem track_queries_periodic (t : TrackData) (sv : R) :
  preprocessed_ t = true -> 0 < total_length_ t ->
  exists fuel0, forall fuel, (fuel0 <= fuel)%nat ->
    exists p,
      Track.interpolateAt fuel t sv = Ok p
      /\ Track.interpolateAt fuel t (sv + total_length_ t) = Ok p
      /\ 0 <= s p < total_length_ t
      /\ Track.getCurvatureAt fuel t sv = Ok (kappa p)
      /\ Track.getCurvatureAt fuel t (sv + total_length_ t) = Ok (kappa p).
Proof.
  intros Hpre HL.
  destruct (normalize_s_periodic t sv HL) as (fuel0 & Hnorm).
  exists fuel0. intros fuel Hfuel.
  destruct (Hnorm fuel Hfuel) as (s' & Ha & Hb & Hrange).
  unfold Track.interpolateAt, Track.getCurvatureAt.
  rewrite Hpre, Ha, Hb. cbn [negb obind]. cbv zeta.
  eexists. split; [reflexivity|]. split; [reflexivity|].
  cbn [s kappa]. split; [exact Hrange|]. split; reflexivity.
Qed.

Lemma track_queries_periodic_witness :
  exists fuel0, forall fuel, (fuel0 <= fuel)%nat ->
    exists p,
      Track.interpolateAt fuel example_track 35 = Ok p
      /\ Track.interpolateAt fuel example_track (35 + total_length_ example_track) = Ok p.
Proof.
  destruct (track_queries_periodic example_track 35) as (fuel0 & H).
  - reflexivity.
  - destruct (preprocess_sums _ _ example_track_preprocess) as (_ & _ & _ & HL).
    destruct example_track_segments as (Hl & Hd0 & Hd1 & Hd2).
    rewrite HL, Hl, !ds_sum_S, Hd0, Hd1, Hd2.
    change (ds_sum (points_ example_track) 0) with 0. lra.
  - exists fuel0. intros fuel Hfuel.
    destruct (H fuel Hfuel) as (p & Hp1 & Hp2 & _).
    exists p. split; [exact Hp1|exact Hp2].
Defined.
